(** * finance-scraper: the IPO field extractor, the company index and the
    fuzzy search engine, embedded in Rocq.

    Sources embedded here:
    - [ipo_data_extractor.py]  (class [IPODataExtractor])
    - [ipo_index_builder.py]   (class [IPOIndexBuilder])
    - [ipo_search_engine.py]   (class [IPOSearchEngine])

    Modelling conventions.
    - A Python [str] is a list of Unicode code points ([PyStr.str]); the
      character classes are those of Unicode 14.0.
    - A Python [float] is the exact rational it denotes ([Q]); rounding to
      binary64 is not modelled.
    - A call that may raise returns a [result]; [Raise e] is the exception.
    - Python dictionaries keep insertion order, so they are association
      lists with unique keys ([PyDict]); objects that are shared and copied
      live in a heap, a list of objects with references as indices.
    - The library calls ([re], [difflib], [bs4] queries) are modelled by
      executable definitions of their documented behaviour on the constructs
      the sources use. *)

From Stdlib Require Import Ascii String ZArith QArith Lia Permutation Sorted.
From stdpp Require Import base option list.

Set Warnings "-register-all".

Local Open Scope nat_scope.

(* ===================================================================== *)
(** ** Python strings                                                     *)
(* ===================================================================== *)

Module PyStr.

(** A character is a Unicode code point. *)
Definition char := N.
Definition str := list char.

(** ASCII literals of the sources are written [txt "..."]. *)
Definition txt (s : string) : str :=
  map Ascii.N_of_ascii (String.list_ascii_of_string s).

Definition char_eqb (a b : char) : bool := N.eqb a b.

Fixpoint str_eqb (a b : str) : bool :=
  match a, b with
  | [], [] => true
  | x :: a', y :: b' => char_eqb x y && str_eqb a' b'
  | _, _ => false
  end.

Definition in_range (lo hi c : N) : bool := (N.leb lo c && N.leb c hi)%N.

(** [str.isspace] on one character, which is also the class [\s] of [re] on
    [str] patterns. *)
Definition isspace (c : char) : bool :=
  in_range 9 13 c || in_range 28 32 c || N.eqb c 133 || N.eqb c 160
  || N.eqb c 5760 || in_range 8192 8202 c || N.eqb c 8232 || N.eqb c 8233
  || N.eqb c 8239 || N.eqb c 8287 || N.eqb c 12288.

(** The decimal digits (Unicode 14.0, category Nd) come in runs of ten, zero
    to nine; these are the code points of the zeros. *)
Definition digit_zeros : list N :=
  [48; 1632; 1776; 1984; 2406; 2534; 2662; 2790; 2918; 3046; 3174; 3302;
   3430; 3558; 3664; 3792; 3872; 4160; 4240; 6112; 6160; 6470; 6608; 6784;
   6800; 6992; 7088; 7232; 7248; 42528; 43216; 43264; 43472; 43504; 43600;
   44016; 65296; 66720; 68912; 69734; 69872; 69942; 70096; 70384; 70736;
   70864; 71248; 71360; 71472; 71904; 72016; 72784; 73040; 73120; 92768;
   92864; 93008; 120782; 120792; 120802; 120812; 120822; 123200; 123632;
   125264; 130032]%N.

Definition digit_zero (c : char) : option N :=
  List.find (fun z => in_range z (z + 9) c) digit_zeros.

(** [str.isdecimal] on one character, which is also the class [\d] of [re]
    on [str] patterns. *)
Definition isdigit (c : char) : bool :=
  match digit_zero c with Some _ => true | None => false end.

(** The value of a decimal digit, as [int] and [float] read it. *)
Definition digit_val (c : char) : N :=
  match digit_zero c with Some z => (c - z)%N | None => 0%N end.

(** The simple lower-case mapping (Unicode 14.0) as runs of code points:
    first, last, step and the lower case of the first; within a run the
    lower case moves along with the code point. *)
Definition lower_runs : list (N * N * N * N) :=
  [(65, 90, 1, 97); (192, 214, 1, 224); (216, 222, 1, 248);
   (256, 302, 2, 257); (304, 304, 1, 105); (306, 310, 2, 307);
   (313, 327, 2, 314); (330, 374, 2, 331); (376, 376, 1, 255);
   (377, 381, 2, 378); (385, 385, 1, 595); (386, 388, 2, 387);
   (390, 390, 1, 596); (391, 391, 1, 392); (393, 394, 1, 598);
   (395, 395, 1, 396); (398, 398, 1, 477); (399, 399, 1, 601);
   (400, 400, 1, 603); (401, 401, 1, 402); (403, 403, 1, 608);
   (404, 404, 1, 611); (406, 406, 1, 617); (407, 407, 1, 616);
   (408, 408, 1, 409); (412, 412, 1, 623); (413, 413, 1, 626);
   (415, 415, 1, 629); (416, 420, 2, 417); (422, 422, 1, 640);
   (423, 423, 1, 424); (425, 425, 1, 643); (428, 428, 1, 429);
   (430, 430, 1, 648); (431, 431, 1, 432); (433, 434, 1, 650);
   (435, 437, 2, 436); (439, 439, 1, 658); (440, 440, 1, 441);
   (444, 444, 1, 445); (452, 452, 1, 454); (453, 453, 1, 454);
   (455, 455, 1, 457); (456, 456, 1, 457); (458, 458, 1, 460);
   (459, 475, 2, 460); (478, 494, 2, 479); (497, 497, 1, 499);
   (498, 500, 2, 499); (502, 502, 1, 405); (503, 503, 1, 447);
   (504, 542, 2, 505); (544, 544, 1, 414); (546, 562, 2, 547);
   (570, 570, 1, 11365); (571, 571, 1, 572); (573, 573, 1, 410);
   (574, 574, 1, 11366); (577, 577, 1, 578); (579, 579, 1, 384);
   (580, 580, 1, 649); (581, 581, 1, 652); (582, 590, 2, 583);
   (880, 882, 2, 881); (886, 886, 1, 887); (895, 895, 1, 1011);
   (902, 902, 1, 940); (904, 906, 1, 941); (908, 908, 1, 972);
   (910, 911, 1, 973); (913, 929, 1, 945); (931, 939, 1, 963);
   (975, 975, 1, 983); (984, 1006, 2, 985); (1012, 1012, 1, 952);
   (1015, 1015, 1, 1016); (1017, 1017, 1, 1010); (1018, 1018, 1, 1019);
   (1021, 1023, 1, 891); (1024, 1039, 1, 1104); (1040, 1071, 1, 1072);
   (1120, 1152, 2, 1121); (1162, 1214, 2, 1163); (1216, 1216, 1, 1231);
   (1217, 1229, 2, 1218); (1232, 1326, 2, 1233); (1329, 1366, 1, 1377);
   (4256, 4293, 1, 11520); (4295, 4295, 1, 11559); (4301, 4301, 1, 11565);
   (5024, 5103, 1, 43888); (5104, 5109, 1, 5112); (7312, 7354, 1, 4304);
   (7357, 7359, 1, 4349); (7680, 7828, 2, 7681); (7838, 7838, 1, 223);
   (7840, 7934, 2, 7841); (7944, 7951, 1, 7936); (7960, 7965, 1, 7952);
   (7976, 7983, 1, 7968); (7992, 7999, 1, 7984); (8008, 8013, 1, 8000);
   (8025, 8031, 2, 8017); (8040, 8047, 1, 8032); (8072, 8079, 1, 8064);
   (8088, 8095, 1, 8080); (8104, 8111, 1, 8096); (8120, 8121, 1, 8112);
   (8122, 8123, 1, 8048); (8124, 8124, 1, 8115); (8136, 8139, 1, 8050);
   (8140, 8140, 1, 8131); (8152, 8153, 1, 8144); (8154, 8155, 1, 8054);
   (8168, 8169, 1, 8160); (8170, 8171, 1, 8058); (8172, 8172, 1, 8165);
   (8184, 8185, 1, 8056); (8186, 8187, 1, 8060); (8188, 8188, 1, 8179);
   (8486, 8486, 1, 969); (8490, 8490, 1, 107); (8491, 8491, 1, 229);
   (8498, 8498, 1, 8526); (8544, 8559, 1, 8560); (8579, 8579, 1, 8580);
   (9398, 9423, 1, 9424); (11264, 11311, 1, 11312); (11360, 11360, 1, 11361);
   (11362, 11362, 1, 619); (11363, 11363, 1, 7549); (11364, 11364, 1, 637);
   (11367, 11371, 2, 11368); (11373, 11373, 1, 593); (11374, 11374, 1, 625);
   (11375, 11375, 1, 592); (11376, 11376, 1, 594); (11378, 11378, 1, 11379);
   (11381, 11381, 1, 11382); (11390, 11391, 1, 575);
   (11392, 11490, 2, 11393); (11499, 11501, 2, 11500);
   (11506, 11506, 1, 11507); (42560, 42604, 2, 42561);
   (42624, 42650, 2, 42625); (42786, 42798, 2, 42787);
   (42802, 42862, 2, 42803); (42873, 42875, 2, 42874);
   (42877, 42877, 1, 7545); (42878, 42886, 2, 42879);
   (42891, 42891, 1, 42892); (42893, 42893, 1, 613);
   (42896, 42898, 2, 42897); (42902, 42920, 2, 42903);
   (42922, 42922, 1, 614); (42923, 42923, 1, 604); (42924, 42924, 1, 609);
   (42925, 42925, 1, 620); (42926, 42926, 1, 618); (42928, 42928, 1, 670);
   (42929, 42929, 1, 647); (42930, 42930, 1, 669); (42931, 42931, 1, 43859);
   (42932, 42946, 2, 42933); (42948, 42948, 1, 42900);
   (42949, 42949, 1, 642); (42950, 42950, 1, 7566); (42951, 42953, 2, 42952);
   (42960, 42960, 1, 42961); (42966, 42968, 2, 42967);
   (42997, 42997, 1, 42998); (65313, 65338, 1, 65345);
   (66560, 66599, 1, 66600); (66736, 66771, 1, 66776);
   (66928, 66938, 1, 66967); (66940, 66954, 1, 66979);
   (66956, 66962, 1, 66995); (66964, 66965, 1, 67003);
   (68736, 68786, 1, 68800); (71840, 71871, 1, 71872);
   (93760, 93791, 1, 93792); (125184, 125217, 1, 125218)]%N.

Definition in_run (c : char) (run : N * N * N * N) : bool :=
  let '(first, last, step, _) := run in
  in_range first last c && N.eqb ((c - first) mod step) 0.

(** The lower case of one character, as [re] folds case. *)
Definition lower_char (c : char) : char :=
  match List.find (in_run c) lower_runs with
  | Some (first, _, _, target) => (target + (c - first))%N
  | None => c
  end.

(** [s.lower()]: the capital I with a dot gives two characters, the other
    characters their simple lower case.  (Python lowers a capital sigma at
    the end of a word to the final form; here it is always the ordinary
    small sigma.) *)
Definition lower (s : str) : str :=
  flat_map (fun c => if N.eqb c 304 then [105; 775]%N else [lower_char c]) s.

(** [s.lstrip()], [s.rstrip()], [s.strip()] *)
Fixpoint lstrip_by (p : char -> bool) (s : str) : str :=
  match s with
  | c :: s' => if p c then lstrip_by p s' else s
  | [] => []
  end.

Definition rstrip_by (p : char -> bool) (s : str) : str :=
  rev (lstrip_by p (rev s)).

Definition strip_by (p : char -> bool) (s : str) : str :=
  rstrip_by p (lstrip_by p s).

Definition strip (s : str) : str := strip_by isspace s.

(** [s.strip(chars)] *)
Definition strip_chars (chars : str) (s : str) : str :=
  strip_by (fun c => existsb (char_eqb c) chars) s.

(** [a.startswith(b)] read the other way round: [p] is a prefix of [s]. *)
Fixpoint is_prefix (p s : str) : bool :=
  match p, s with
  | [], _ => true
  | x :: p', y :: s' => char_eqb x y && is_prefix p' s'
  | _ :: _, [] => false
  end.

(** [sub in s] *)
Fixpoint contains (sub s : str) : bool :=
  is_prefix sub s ||
  match s with
  | [] => false
  | _ :: s' => contains sub s'
  end.

(** [s.replace(old, new)] for a one-character [old]. *)
Definition replace_char (old : char) (new : str) (s : str) : str :=
  flat_map (fun c => if char_eqb c old then new else [c]) s.

(** [s.replace(old, new)] for a non-empty [old]: the occurrences are taken
    from left to right and do not overlap; [skip] counts the characters of
    the last occurrence still to be passed. *)
Fixpoint replace_from (old new : str) (s : str) (skip : nat) : str :=
  match skip with
  | S skip' =>
      match s with
      | [] => []
      | _ :: s' => replace_from old new s' skip'
      end
  | O =>
      match s with
      | [] => []
      | c :: s' =>
          if is_prefix old s
          then new ++ replace_from old new s' (length old - 1)
          else c :: replace_from old new s' 0
      end
  end.

Definition replace (old new : str) (s : str) : str := replace_from old new s 0.

(** [s[a:b]] for [0 <= a <= b]. *)
Definition slice (a b : nat) (s : str) : str := firstn (b - a) (skipn a s).

(** [if not s] *)
Definition is_empty (s : str) : bool :=
  match s with [] => true | _ => false end.

(** [a < b] on texts: by the first code point that differs, a proper prefix
    first. *)
Fixpoint str_ltb (a b : str) : bool :=
  match a, b with
  | _, [] => false
  | [], _ :: _ => true
  | x :: a', y :: b' => N.ltb x y || (N.eqb x y && str_ltb a' b')
  end.

(** [sorted(l)] on texts: the sort is stable and compares with [<] only; a
    text goes in front of the first text that is not smaller than it. *)
Fixpoint insert_asc (x : str) (l : list str) : list str :=
  match l with
  | [] => [x]
  | y :: l' => if str_ltb y x then y :: insert_asc x l' else x :: l
  end.

Fixpoint sorted (l : list str) : list str :=
  match l with
  | [] => []
  | x :: l' => insert_asc x (sorted l')
  end.

End PyStr.

Export PyStr.

(* ===================================================================== *)
(** ** Exceptions                                                         *)
(* ===================================================================== *)

Inductive exn := ValueError | KeyError | AttributeError | TypeError.

Inductive result (A : Type) :=
| Ok (a : A)
| Raise (e : exn).
Arguments Ok {A} a.
Arguments Raise {A} e.

Definition rbind {A B} (x : result A) (f : A -> result B) : result B :=
  match x with
  | Ok a => f a
  | Raise e => Raise e
  end.

Declare Scope result_scope.
Delimit Scope result_scope with result.
Notation "'let!' x ':=' c 'in' k" := (rbind c (fun x => k))
  (at level 10, x name, c at level 100, k at level 200) : result_scope.

(* ===================================================================== *)
(** ** Python floats and ints read from text                              *)
(* ===================================================================== *)

Module PyNum.

(** The digits of [s] as a number, most significant first. *)
Definition digits_val (s : str) : N :=
  fold_left (fun acc c => (acc * 10 + digit_val c)%N) s 0%N.

(** Splits [s] at its first ['.']. *)
Fixpoint split_dot (s : str) : str * option str :=
  match s with
  | [] => ([], None)
  | c :: s' =>
      if char_eqb c 46%N then ([], Some s')
      else let '(a, b) := split_dot s' in (c :: a, b)
  end.

Definition pow10 (n : nat) : positive := Nat.iter n (Pos.mul 10) 1%positive.

(** [float(s)] for the texts the extractor converts: digits with at most one
    ['.'], at least one digit overall; everything else these texts can be
    (the empty text, a lone dot, two dots) raises [ValueError]. *)
Definition float (s : str) : result Q :=
  let '(ip, fp) := split_dot s in
  let frac := default [] fp in
  if forallb isdigit ip && forallb isdigit frac
     && negb (is_empty ip && is_empty frac)
  then Ok (Qmake (Z.of_N (digits_val (ip ++ frac))) (pow10 (length frac)))
  else Raise ValueError.

(** [int(s)] for a text of digits.  (The interpreter's limit on the number
    of digits of such a text is not modelled.) *)
Definition int (s : str) : result Z :=
  if forallb isdigit s && negb (is_empty s)
  then Ok (Z.of_N (digits_val s))
  else Raise ValueError.

End PyNum.

(* ===================================================================== *)
(** ** The [re] module: backtracking matching of the patterns in use      *)
(* ===================================================================== *)

Module Re.

(** Items of a bracketed class. *)
Inductive citem :=
| CLit (c : char)        (* a literal character *)
| CDigit                 (* \d *)
| CSpace.                (* \s *)

(** What matches exactly one character. *)
Inductive atom :=
| Lit (c : char)                         (* a literal character *)
| Dot                                    (* . *)
| Digit                                  (* \d *)
| Space                                  (* \s *)
| Class (neg : bool) (items : list citem). (* [...] and [^...] *)

(** Patterns.  Every starred or plussed item of the sources is a single
    character item, so repetition is over an [atom]. *)
Inductive regex :=
| Eps
| One (a : atom)
| Cat (r1 r2 : regex)
| Alt (r1 r2 : regex)                                  (* r1|r2 *)
| Rep (greedy : bool) (lo : nat) (hi : option nat) (a : atom)
| Opt (greedy : bool) (r : regex)                      (* r? and r?? *)
| Grp (n : nat) (r : regex)                            (* (r), group n *)
| Bos                                                  (* ^ *)
| Eos.                                                 (* $ *)

Record flags := { ignorecase : bool; dotall : bool }.
Definition NOFLAGS := {| ignorecase := false; dotall := false |}.
Definition IGNORECASE := {| ignorecase := true; dotall := false |}.
Definition IGNORECASE_DOTALL := {| ignorecase := true; dotall := true |}.

(** Characters that [re] treats as one letter besides the two cases, keyed
    by the lower-case pattern letter: dotless i, long s, the pi symbol and
    the Greek mu of the micro sign. *)
Definition case_fixes (lo : char) : list char :=
  if N.eqb lo 105 then [305%N]
  else if N.eqb lo 115 then [383%N]
  else if N.eqb lo 960 then [982%N]
  else if N.eqb lo 181 then [956%N]
  else [].

Definition lit_matches (fl : flags) (p c : char) : bool :=
  if ignorecase fl
  then let lo := lower_char p in
       char_eqb (lower_char c) lo || existsb (char_eqb c) (case_fixes lo)
  else char_eqb c p.

Definition citem_matches (fl : flags) (it : citem) (c : char) : bool :=
  match it with
  | CLit p => lit_matches fl p c
  | CDigit => isdigit c
  | CSpace => isspace c
  end.

Definition atom_matches (fl : flags) (a : atom) (c : char) : bool :=
  match a with
  | Lit p => lit_matches fl p c
  | Dot => dotall fl || negb (char_eqb c 10%N)
  | Digit => isdigit c
  | Space => isspace c
  | Class neg items =>
      xorb neg (existsb (fun it => citem_matches fl it c) items)
  end.

(** Group number to (start, end) offsets; the latest binding is first. *)
Definition captures := list (nat * (nat * nat)).

Fixpoint cap_lookup (n : nat) (caps : captures) : option (nat * nat) :=
  match caps with
  | [] => None
  | (m, se) :: caps' => if Nat.eqb n m then Some se else cap_lookup n caps'
  end.

Section Matcher.
Context {R : Type}.
Variable fl : flags.

(** Repetition of one-character items, from offset [pos] with [rest] left to
    read: greedy tries one more character first, lazy tries to stop first. *)
Fixpoint rep (greedy : bool) (a : atom) (lo : nat) (hi : option nat)
    (pos : nat) (rest : str) (k : nat -> str -> option R) {struct rest}
    : option R :=
  let can_stop := match lo with O => true | S _ => false end in
  let can_more := match hi with Some O => false | _ => true end in
  match rest with
  | c :: rest' =>
      if can_more && atom_matches fl a c then
        if greedy then
          match rep greedy a (pred lo) (pred <$> hi) (S pos) rest' k with
          | Some x => Some x
          | None => if can_stop then k pos rest else None
          end
        else
          match (if can_stop then k pos rest else None) with
          | Some x => Some x
          | None => rep greedy a (pred lo) (pred <$> hi) (S pos) rest' k
          end
      else if can_stop then k pos rest else None
  | [] => if can_stop then k pos rest else None
  end.

(** [go r pos rest caps k]: match [r] at offset [pos], then continue with
    [k]; alternatives are tried in the order of the pattern and the first
    that lets the whole continuation succeed is taken. *)
Fixpoint go (r : regex) (pos : nat) (rest : str) (caps : captures)
    (k : nat -> str -> captures -> option R) : option R :=
  match r with
  | Eps => k pos rest caps
  | One a =>
      match rest with
      | c :: rest' => if atom_matches fl a c then k (S pos) rest' caps else None
      | [] => None
      end
  | Cat r1 r2 =>
      go r1 pos rest caps (fun pos' rest' caps' => go r2 pos' rest' caps' k)
  | Alt r1 r2 =>
      match go r1 pos rest caps k with
      | Some x => Some x
      | None => go r2 pos rest caps k
      end
  | Rep g lo hi a =>
      rep g a lo hi pos rest (fun pos' rest' => k pos' rest' caps)
  | Opt g r1 =>
      if g then
        match go r1 pos rest caps k with
        | Some x => Some x
        | None => k pos rest caps
        end
      else
        match k pos rest caps with
        | Some x => Some x
        | None => go r1 pos rest caps k
        end
  | Grp n r1 =>
      go r1 pos rest caps
         (fun pos' rest' caps' => k pos' rest' ((n, (pos, pos')) :: caps'))
  | Bos => if Nat.eqb pos 0 then k pos rest caps else None
  | Eos =>
      match rest with
      | [] => k pos rest caps
      | [c] => if char_eqb c 10%N then k pos rest caps else None
      | _ => None
      end
  end.

End Matcher.

(** A match object. *)
Record match_obj := {
  m_string : str;
  m_start : nat;
  m_end : nat;
  m_caps : captures }.

(** [m.group(n)]: [None] when group [n] took no part in the match. *)
Definition group (n : nat) (m : match_obj) : option str :=
  match n with
  | O => Some (slice (m_start m) (m_end m) (m_string m))
  | _ => (fun se => slice (fst se) (snd se) (m_string m))
           <$> cap_lookup n (m_caps m)
  end.

(** [m.group(n)] where the pattern makes group [n] take part in every
    match. *)
Definition group_str (n : nat) (m : match_obj) : str :=
  default [] (group n m).

(** A match that starts exactly at [pos]. *)
Definition match_at (fl : flags) (r : regex) (s : str) (pos : nat)
    (rest : str) : option match_obj :=
  go fl r pos rest []
     (fun e _ caps =>
        Some {| m_string := s; m_start := pos; m_end := e; m_caps := caps |}).

Fixpoint search_from (fl : flags) (r : regex) (s : str) (pos : nat)
    (rest : str) : option match_obj :=
  match match_at fl r s pos rest with
  | Some m => Some m
  | None =>
      match rest with
      | [] => None
      | _ :: rest' => search_from fl r s (S pos) rest'
      end
  end.

(** [re.search(r, s, flags)]: the leftmost match. *)
Definition search (r : regex) (s : str) (fl : flags) : option match_obj :=
  search_from fl r s 0 s.

(** The successive non-overlapping matches, left to right.  [skip] counts the
    characters still covered by the previous match.  (The patterns scanned
    this way never match the empty text.) *)
Fixpoint scan (fl : flags) (r : regex) (s : str) (pos : nat) (rest : str)
    (skip : nat) : list match_obj :=
  match skip with
  | S skip' =>
      match rest with
      | [] => []
      | _ :: rest' => scan fl r s (S pos) rest' skip'
      end
  | O =>
      match match_at fl r s pos rest with
      | Some m =>
          m :: match rest with
               | [] => []
               | _ :: rest' => scan fl r s (S pos) rest' (m_end m - pos - 1)
               end
      | None =>
          match rest with
          | [] => []
          | _ :: rest' => scan fl r s (S pos) rest' 0
          end
      end
  end.

(** [re.findall(r, s, flags)] for a pattern with exactly one group. *)
Definition findall1 (r : regex) (s : str) (fl : flags) : list str :=
  map (group_str 1) (scan fl r s 0 s 0).

(** [re.sub(r, repl, s, flags=fl)] for a replacement text without group
    references. *)
Fixpoint sub_from (fl : flags) (r : regex) (repl : str) (s : str) (pos : nat)
    (rest : str) (skip : nat) : str :=
  match skip with
  | S skip' =>
      match rest with
      | [] => []
      | _ :: rest' => sub_from fl r repl s (S pos) rest' skip'
      end
  | O =>
      match match_at fl r s pos rest with
      | Some m =>
          if Nat.eqb (m_end m) pos then
            repl ++ match rest with
                    | [] => []
                    | c :: rest' => c :: sub_from fl r repl s (S pos) rest' 0
                    end
          else
            repl ++ match rest with
                    | [] => []
                    | _ :: rest' =>
                        sub_from fl r repl s (S pos) rest' (m_end m - pos - 1)
                    end
      | None =>
          match rest with
          | [] => []
          | c :: rest' => c :: sub_from fl r repl s (S pos) rest' 0
          end
      end
  end.

Definition sub (r : regex) (repl : str) (s : str) (fl : flags) : str :=
  sub_from fl r repl s 0 s 0.

(** *** What a pattern accepts

    [accepts fl r pos w rest]: at offset [pos] of the subject, with [rest]
    following, the pattern [r] can take the text [w].  This is the set of
    texts of the pattern, without the order in which [re] tries them. *)
Inductive accepts (fl : flags) : regex -> nat -> str -> str -> Prop :=
| acc_eps pos rest : accepts fl Eps pos [] rest
| acc_one a c pos rest :
    atom_matches fl a c = true -> accepts fl (One a) pos [c] rest
| acc_cat r1 r2 pos w1 w2 rest :
    accepts fl r1 pos w1 (w2 ++ rest) ->
    accepts fl r2 (pos + length w1) w2 rest ->
    accepts fl (Cat r1 r2) pos (w1 ++ w2) rest
| acc_alt_l r1 r2 pos w rest :
    accepts fl r1 pos w rest -> accepts fl (Alt r1 r2) pos w rest
| acc_alt_r r1 r2 pos w rest :
    accepts fl r2 pos w rest -> accepts fl (Alt r1 r2) pos w rest
| acc_rep g lo hi a pos w rest :
    forallb (atom_matches fl a) w = true ->
    lo <= length w ->
    match hi with Some h => length w <= h | None => True end ->
    accepts fl (Rep g lo hi a) pos w rest
| acc_opt_some g r pos w rest :
    accepts fl r pos w rest -> accepts fl (Opt g r) pos w rest
| acc_opt_none g r pos rest : accepts fl (Opt g r) pos [] rest
| acc_grp n r pos w rest :
    accepts fl r pos w rest -> accepts fl (Grp n r) pos w rest
| acc_bos rest : accepts fl Bos 0 [] rest
| acc_eos pos rest :
    rest = [] \/ rest = [10%N] -> accepts fl Eos pos [] rest.

(** *** Writing patterns *)

(** A literal text. *)
Definition lit (s : str) : regex :=
  fold_right (fun c r => Cat (One (Lit c)) r) Eps s.

Definition seq (rs : list regex) : regex := fold_right Cat Eps rs.

Definition star (a : atom) : regex := Rep true 0 None a.         (* a*  *)
Definition plus (a : atom) : regex := Rep true 1 None a.         (* a+  *)
Definition star_lazy (a : atom) : regex := Rep false 0 None a.   (* a*? *)
Definition plus_lazy (a : atom) : regex := Rep false 1 None a.   (* a+? *)
Definition opt (r : regex) : regex := Opt true r.                (* r?  *)
Definition times (lo hi : nat) (a : atom) : regex :=
  Rep true lo (Some hi) a.                                       (* a{lo,hi} *)
Definition alts (rs : list regex) : regex :=
  match rs with
  | [] => Eps
  | r :: rs' => fold_left Alt rs' r
  end.

Definition not_chars (s : str) : atom := Class true (map CLit s).

End Re.

(* ===================================================================== *)
(** ** Python values and dictionaries                                     *)
(* ===================================================================== *)

(** The values the program stores in dictionaries and lists. *)
Inductive pyval :=
| VNone
| VStr (s : str)
| VFloat (q : Q)
| VInt (z : Z)
| VList (l : list pyval)
| VDict (d : list (str * pyval)).

Module PyDict.

(** A dictionary: keys in order of first insertion, each key once. *)
Definition dict (V : Type) := list (str * V).

(** [d.get(k)] *)
Fixpoint get {V} (k : str) (d : dict V) : option V :=
  match d with
  | [] => None
  | (k', v) :: d' => if str_eqb k k' then Some v else get k d'
  end.

(** [k in d] *)
Definition mem {V} (k : str) (d : dict V) : bool :=
  match get k d with Some _ => true | None => false end.

(** [d[k] = v]: a present key keeps its place and takes the new value, a new
    key goes last. *)
Fixpoint set {V} (k : str) (v : V) (d : dict V) : dict V :=
  match d with
  | [] => [(k, v)]
  | (k', v') :: d' =>
      if str_eqb k k' then (k', v) :: d' else (k', v') :: set k v d'
  end.

(** [dict(pairs)]: the pairs are inserted from left to right. *)
Definition of_pairs {V} (pairs : list (str * V)) : dict V :=
  fold_left (fun d kv => set (fst kv) (snd kv) d) pairs [].

Definition keys {V} (d : dict V) : list str := map fst d.
Definition values {V} (d : dict V) : list V := map snd d.

(** [zip(a, b)] *)
Definition zip {A B} (a : list A) (b : list B) : list (A * B) := combine a b.

End PyDict.

(* ===================================================================== *)
(** ** The parsed document ([bs4])                                        *)
(* ===================================================================== *)

Module Bs4.

(** An attribute value: one text, or the list of tokens of a multi-valued
    attribute such as [class]. *)
Inductive attr_val :=
| AStr (s : str)
| AList (l : list str).

Inductive node :=
| NavigableString (s : str)
| Tag (name : str) (attrs : list (str * attr_val)) (contents : list node).

(** Everything below a node, in document order. *)
Fixpoint descendants (n : node) : list node :=
  match n with
  | NavigableString _ => []
  | Tag _ _ cs =>
      (fix over (l : list node) : list node :=
         match l with
         | [] => []
         | c :: l' => c :: descendants c ++ over l'
         end) cs
  end.

(** [tag.text]: the texts below the tag, concatenated. *)
Fixpoint text (n : node) : str :=
  match n with
  | NavigableString s => s
  | Tag _ _ cs =>
      (fix over (l : list node) : str :=
         match l with
         | [] => []
         | c :: l' => text c ++ over l'
         end) cs
  end.

(** The texts below a node, in document order. *)
Fixpoint strings (n : node) : list str :=
  match n with
  | NavigableString s => [s]
  | Tag _ _ cs =>
      (fix over (l : list node) : list str :=
         match l with
         | [] => []
         | c :: l' => strings c ++ over l'
         end) cs
  end.

(** [tag.get_text(strip=True)]: every text stripped, the empty ones left
    out, the rest concatenated. *)
Definition get_text_strip (n : node) : str :=
  concat (List.filter (fun s => negb (is_empty s)) (map strip (strings n))).

Fixpoint attr_get (k : str) (attrs : list (str * attr_val)) : option attr_val :=
  match attrs with
  | [] => None
  | (k', v) :: attrs' => if str_eqb k k' then Some v else attr_get k attrs'
  end.

(** [tag.get(k)] *)
Definition get (k : str) (n : node) : option attr_val :=
  match n with
  | NavigableString _ => None
  | Tag _ attrs _ => attr_get k attrs
  end.

Fixpoint join_space (l : list str) : str :=
  match l with
  | [] => []
  | [a] => a
  | a :: l' => a ++ 32%N :: join_space l'
  end.

(** How an attribute filter is tested against an attribute value: on a
    multi-valued attribute any token may satisfy it, and so may the tokens
    joined by spaces. *)
Definition attr_matches (p : str -> bool) (v : option attr_val) : bool :=
  match v with
  | None => false
  | Some (AStr s) => p s
  | Some (AList l) => existsb p l || p (join_space l)
  end.

(** One keyword filter of [find]: attribute name and test of its value. *)
Definition has_name (name : str) (n : node) : bool :=
  match n with
  | NavigableString _ => false
  | Tag name' _ _ => str_eqb name name'
  end.

Definition node_matches (name : str) (filters : list (str * (str -> bool)))
    (n : node) : bool :=
  has_name name n &&
  forallb (fun f => attr_matches (snd f) (get (fst f) n)) filters.

(** [tag.find_all(name, **filters)] *)
Definition find_all (name : str) (filters : list (str * (str -> bool)))
    (root : node) : list node :=
  List.filter (node_matches name filters) (descendants root).

(** [tag.find(name, **filters)] *)
Definition find (name : str) (filters : list (str * (str -> bool)))
    (root : node) : option node :=
  head (find_all name filters root).

(** A filter given as a text and a filter given as a compiled pattern. *)
Definition is_text (s : str) : str -> bool := fun v => str_eqb s v.
Definition re_filter (r : Re.regex) (fl : Re.flags) : str -> bool :=
  fun v => match Re.search r v fl with Some _ => true | None => false end.

(** A parsed document: the tree ([soup], a [Tag] that holds the top-level
    nodes) and its serialisation ([str(soup)]). *)
Record document := {
  soup : node;
  html_str : str }.

End Bs4.

(* ===================================================================== *)
(** ** [ipo_data_extractor.py]: class [IPODataExtractor]                  *)
(* ===================================================================== *)

Module IPODataExtractor.
Import Re PyDict Bs4.
Local Open Scope result_scope.

(** The two character sequences the source file spells with non-ASCII
    characters: the currency sign and the bullet of the placeholder, as the
    file has them. *)
Definition rupee : str := [8218; 199; 960]%N.
Definition bullet : str := [8218; 243; 232]%N.
Definition placeholder : str := txt "[" ++ bullet ++ txt "]".

Definition chr (s : string) : atom :=
  match txt s with
  | c :: _ => Lit c
  | [] => Dot
  end.

(** [r'\s+'] *)
Definition ws_run : regex := plus Space.

(** [r'\[<bullet>\]'] *)
Definition placeholder_re : regex := lit placeholder.

(** [_clean_text] *)
Definition _clean_text (text : option str) : str :=
  match text with
  | None => []
  | Some text =>
      if is_empty text then []
      else
        let text := Re.sub ws_run (txt " ") (strip text) NOFLAGS in
        let text := Re.sub placeholder_re [] text NOFLAGS in
        strip text
  end.

(** The numeric literal shared by the currency patterns, written NUM in the
    comments below: [\d,]+\.?\d* *)
Definition number_re : regex :=
  seq [plus (Class false [CDigit; CLit 44%N]); opt (One (chr ".")); star Digit].

(** [r'[<rupee>Rs.]*\s*(NUM)\s*(Cr\.?|Crore|Lakh|Lakhs)?'] *)
Definition currency_pattern : regex :=
  seq [ star (Class false (map CLit (rupee ++ txt "Rs.")));
        star Space;
        Grp 1 number_re;
        star Space;
        opt (Grp 2 (alts [ Cat (lit (txt "Cr")) (opt (One (chr ".")));
                           lit (txt "Crore");
                           lit (txt "Lakh");
                           lit (txt "Lakhs") ])) ].

(** [_extract_currency_value] *)
Definition _extract_currency_value (text : option str)
    : result (option (dict pyval)) :=
  match text with
  | None => Ok None
  | Some text =>
      if is_empty text then Ok None
      else
        match Re.search currency_pattern text NOFLAGS with
        | Some m =>
            let value := replace_char 44%N [] (group_str 1 m) in
            let unit :=
              match group 2 m with
              | Some u => if is_empty u then [] else u
              | None => []
              end in
            let! v := (if is_empty value then Ok VNone
                       else let! q := PyNum.float value in Ok (VFloat q)) in
            Ok (Some [ (txt "value", v);
                       (txt "unit", VStr (replace_char 46%N [] unit));
                       (txt "currency", VStr rupee);
                       (txt "raw", VStr (_clean_text (Some text))) ])
        | None =>
            Ok (Some [ (txt "raw", VStr (_clean_text (Some text))) ])
        end
  end.

(** [.*?<b[^>]*>([^<]+)</b>], the labelled value in bold that ends most
    patterns. *)
Definition bold_value : list regex :=
  [ lit (txt "<b"); star (not_chars (txt ">")); lit (txt ">");
    Grp 1 (plus (not_chars (txt "<"))); lit (txt "</b>") ].

Definition then_bold_value : list regex := star_lazy Dot :: bold_value.

(** [_extract_basic_info] *)
Definition title_pattern : regex :=      (* r'^(.+?)\s+IPO' *)
  seq [Bos; Grp 1 (plus_lazy Dot); plus Space; lit (txt "IPO")].

Definition span_value (label : string) : regex :=
  (* label r'\s*:\s*<span[^>]*>([^<]+)</span>' *)
  seq [ lit (txt label); star Space; lit (txt ":"); star Space;
        lit (txt "<span"); star (not_chars (txt ">")); lit (txt ">");
        Grp 1 (plus (not_chars (txt "<"))); lit (txt "</span>") ].

Definition exchange_pattern : regex := span_value "Exchange".
Definition issue_type_pattern : regex := span_value "Issue Type".

Definition _extract_basic_info (doc : document) : dict pyval :=
  let basic_info := [] in
  let basic_info :=
    match find (txt "title") [] (soup doc) with
    | Some title =>
        set (txt "company_name")
            (VStr match Re.search title_pattern (text title) NOFLAGS with
                  | Some m => strip (group_str 1 m)
                  | None => []
                  end) basic_info
    | None => basic_info
    end in
  let basic_info :=
    match find (txt "span") [(txt "class", is_text (txt "mainboard-ipo"))]
               (soup doc) with
    | Some category_elem =>
        set (txt "ipo_category")
            (VStr (_clean_text (Some (text category_elem)))) basic_info
    | None => basic_info
    end in
  let basic_info :=
    match Re.search exchange_pattern (html_str doc) NOFLAGS with
    | Some m =>
        set (txt "exchange") (VStr (_clean_text (group 1 m))) basic_info
    | None => basic_info
    end in
  let basic_info :=
    match Re.search issue_type_pattern (html_str doc) NOFLAGS with
    | Some m =>
        set (txt "issue_type") (VStr (_clean_text (group 1 m))) basic_info
    | None => basic_info
    end in
  basic_info.

(** [_extract_dates] *)
Definition months : list string :=
  [ "January"; "February"; "March"; "April"; "May"; "June"; "July";
    "August"; "September"; "October"; "November"; "December" ]%string.

Definition date_regex : regex :=
  seq [ times 1 2 Digit;
        alts [lit (txt "st"); lit (txt "nd"); lit (txt "rd"); lit (txt "th")];
        plus Space;
        alts (map (fun m => lit (txt m)) months);
        plus Space;
        times 4 4 Digit ].

Definition date_fields : list (str * regex) :=
  [ (txt "drhp_date",
     seq (alts [ lit (txt "Date of DRHP");
                 seq [ lit (txt "filed its Draft Red Herring Prospectus");
                       star_lazy Dot; lit (txt "on") ] ]
          :: then_bold_value));
    (txt "ipo_open_date",
     seq (lit (txt "IPO open date is") :: then_bold_value));
    (txt "ipo_close_date",
     seq (alts [lit (txt "close"); lit (txt "IPO Close")]
          :: star_lazy Dot :: lit (txt "date is") :: then_bold_value));
    (txt "allotment_date",
     seq (opt (lit (txt "IPO ")) :: lit (txt "Allotment Date is")
          :: then_bold_value));
    (txt "refund_date",
     seq (alts [lit (txt "Initiation of Refund"); lit (txt "refund dates")]
          :: then_bold_value));
    (txt "listing_date",
     seq (lit (txt "Listing date is") :: then_bold_value)) ].

(** One turn of the loop over [date_fields.items()]. *)
Definition date_step (html_str : str) (dates : dict pyval)
    (fp : str * regex) : dict pyval :=
  match Re.search (snd fp) html_str IGNORECASE_DOTALL with
  | Some m =>
      let date_text := _clean_text (group 1 m) in
      match Re.search date_regex date_text NOFLAGS with
      | Some _ => set (fst fp) (VStr date_text) dates
      | None => dates
      end
  | None => dates
  end.

Definition _extract_dates (doc : document) : dict pyval :=
  fold_left (date_step (html_str doc)) date_fields [].

(** The loop [for pattern in patterns: m = re.search(...); if m: ...; break]:
    the match of the first pattern that matches. *)
Fixpoint first_match (patterns : list regex) (s : str) (fl : flags)
    : option match_obj :=
  match patterns with
  | [] => None
  | p :: patterns' =>
      match Re.search p s fl with
      | Some m => Some m
      | None => first_match patterns' s fl
      end
  end.

(** [float(m.group(1).replace(',', ''))] *)
Definition float_group1 (m : match_obj) : result pyval :=
  let! q := PyNum.float (replace_char 44%N [] (group_str 1 m)) in
  Ok (VFloat q).

(** [if m: d[key] = float(m.group(1).replace(',', ''))] *)
Definition set_float (key : string) (m : option match_obj) (d : dict pyval)
    : result (dict pyval) :=
  match m with
  | Some m => let! v := float_group1 m in Ok (set (txt key) v d)
  | None => Ok d
  end.

(** [_extract_pricing] *)
Definition size_patterns : list regex :=
  [ (* r'IPO size is.*?<b><rupee>\s*(NUM)\s*(Cr\.?|Crore)' *)
    seq [ lit (txt "IPO size is"); star_lazy Dot; lit (txt "<b>"); lit rupee;
          star Space; Grp 1 number_re; star Space;
          Grp 2 (alts [ Cat (lit (txt "Cr")) (opt (One (chr ".")));
                        lit (txt "Crore") ]) ];
    (* r'ipo size of <rupee>\s*(NUM)\s*(Cr\.?)' *)
    seq [ lit (txt "ipo size of "); lit rupee; star Space; Grp 1 number_re;
          star Space; Grp 2 (Cat (lit (txt "Cr")) (opt (One (chr ".")))) ];
    (* r'IPO\s+Size\s*:.*?<b[^>]*><rupee>\s*(NUM)\s*(Cr\.?)' *)
    seq [ lit (txt "IPO"); plus Space; lit (txt "Size"); star Space;
          lit (txt ":"); star_lazy Dot; lit (txt "<b");
          star (not_chars (txt ">")); lit (txt ">"); lit rupee; star Space;
          Grp 1 number_re; star Space;
          Grp 2 (Cat (lit (txt "Cr")) (opt (One (chr ".")))) ] ].

Definition price_patterns : list regex :=
  [ (* r'Issue Price\s*:.*?<b[^>]*><rupee>\s*(NUM)' *)
    seq [ lit (txt "Issue Price"); star Space; lit (txt ":"); star_lazy Dot;
          lit (txt "<b"); star (not_chars (txt ">")); lit (txt ">");
          lit rupee; star Space; Grp 1 number_re ];
    (* r'IPO price of.*?<b><rupee>\s*(NUM)</b>' *)
    seq [ lit (txt "IPO price of"); star_lazy Dot; lit (txt "<b>");
          lit rupee; star Space; Grp 1 number_re; lit (txt "</b>") ] ].

Definition band_pattern : regex :=
  (* r'upper price band.*?is set at <rupee>\s*(NUM)' *)
  seq [ lit (txt "upper price band"); star_lazy Dot; lit (txt "is set at ");
        lit rupee; star Space; Grp 1 number_re ].

Definition face_value_pattern : regex :=
  (* r'Face Value.*?<rupee>\s*(NUM)' *)
  seq [ lit (txt "Face Value"); star_lazy Dot; lit rupee; star Space;
        Grp 1 number_re ].

Definition lot_pattern : regex :=
  (* r'(?:Lot Size|Market Lot|lot size).*?(\d+)\s*(?:shares?)?' *)
  seq [ alts [lit (txt "Lot Size"); lit (txt "Market Lot"); lit (txt "lot size")];
        star_lazy Dot; Grp 1 (plus Digit); star Space;
        opt (Cat (lit (txt "share")) (opt (One (chr "s")))) ].

Definition _extract_pricing (doc : document) : result (dict pyval) :=
  let pricing := [] in
  let html_str := html_str doc in
  let! pricing :=
    set_float "ipo_size_cr" (first_match size_patterns html_str IGNORECASE)
              pricing in
  let! pricing :=
    set_float "issue_price_rs" (first_match price_patterns html_str IGNORECASE)
              pricing in
  let! pricing :=
    set_float "price_band_upper_rs" (Re.search band_pattern html_str IGNORECASE)
              pricing in
  let! pricing :=
    set_float "face_value_rs"
              (Re.search face_value_pattern html_str IGNORECASE) pricing in
  let! pricing :=
    match Re.search lot_pattern html_str IGNORECASE with
    | Some m =>
        let! z := PyNum.int (group_str 1 m) in
        Ok (set (txt "lot_size") (VInt z) pricing)
    | None => Ok pricing
    end in
  Ok pricing.

(** [_extract_financial_info] *)
Definition open_bold : list regex :=      (* <b[^>]*> *)
  [lit (txt "<b"); star (not_chars (txt ">")); lit (txt ">")].

Definition mcap_pattern : regex :=
  (* r'Market Capitalisation\s*:.*?<b[^>]*><rupee>\s*(NUM)\s*Cr\.' *)
  seq ([ lit (txt "Market Capitalisation"); star Space; lit (txt ":");
         star_lazy Dot ] ++ open_bold ++
       [ lit rupee; star Space; Grp 1 number_re; star Space; lit (txt "Cr.") ]).

Definition pe_patterns : list regex :=
  [ (* r'PE\s+(?:multiple|Ratio)\s*:.*?<b[^>]*>(NUM)' *)
    seq ([ lit (txt "PE"); plus Space;
           alts [lit (txt "multiple"); lit (txt "Ratio")];
           star Space; lit (txt ":"); star_lazy Dot ] ++ open_bold ++
         [ Grp 1 number_re ]);
    (* r'PE\s+Ratio:<b[^>]*>(NUM)x?</b>' *)
    seq ([ lit (txt "PE"); plus Space; lit (txt "Ratio:") ] ++ open_bold ++
         [ Grp 1 number_re; opt (One (chr "x")); lit (txt "</b>") ]) ].

Definition revenue_pattern : regex :=
  (* r'Revenue\s*\(annualised\).*?<b[^>]*><rupee>\s*(NUM)\s*cr\.' *)
  seq ([ lit (txt "Revenue"); star Space; lit (txt "(annualised)");
         star_lazy Dot ] ++ open_bold ++
       [ lit rupee; star Space; Grp 1 number_re; star Space; lit (txt "cr.") ]).

Definition pat_pattern : regex :=
  (* r'PAT:\s*\(annualised\).*?<b[^>]*><rupee>\s*(NUM)\s*cr\.' *)
  seq ([ lit (txt "PAT:"); star Space; lit (txt "(annualised)");
         star_lazy Dot ] ++ open_bold ++
       [ lit rupee; star Space; Grp 1 number_re; star Space; lit (txt "cr.") ]).

Definition holding_pattern (label : string) : regex :=
  (* label r'\s*:.*?<b[^>]*>([\d.]+)\s*%' *)
  seq ([ lit (txt label); star Space; lit (txt ":"); star_lazy Dot ]
       ++ open_bold ++
       [ Grp 1 (plus (Class false [CDigit; CLit 46%N])); star Space;
         lit (txt "%") ]).

Definition pre_holding_pattern := holding_pattern "Pre Issue Promoter Holding".
Definition post_holding_pattern := holding_pattern "Post Issue Promoter Holding".

(** [if m: d[key] = float(m.group(1))] *)
Definition set_plain_float (key : string) (m : option match_obj)
    (d : dict pyval) : result (dict pyval) :=
  match m with
  | Some m =>
      let! q := PyNum.float (group_str 1 m) in
      Ok (set (txt key) (VFloat q) d)
  | None => Ok d
  end.

Definition _extract_financial_info (doc : document) : result (dict pyval) :=
  let financial := [] in
  let html_str := html_str doc in
  let! financial :=
    set_float "market_cap_cr" (Re.search mcap_pattern html_str IGNORECASE)
              financial in
  let! financial :=
    set_float "pe_ratio" (first_match pe_patterns html_str IGNORECASE)
              financial in
  let! financial :=
    set_float "revenue_annualised_cr"
              (Re.search revenue_pattern html_str IGNORECASE) financial in
  let! financial :=
    set_float "pat_annualised_cr"
              (Re.search pat_pattern html_str IGNORECASE) financial in
  let! financial :=
    set_plain_float "pre_issue_promoter_holding_percent"
              (Re.search pre_holding_pattern html_str IGNORECASE) financial in
  let! financial :=
    set_plain_float "post_issue_promoter_holding_percent"
              (Re.search post_holding_pattern html_str IGNORECASE) financial in
  Ok financial.

(** [_extract_stakeholders] *)
Definition quote : str := [34%N].

Definition brlm_pattern : regex :=
  (* <a href=Q[^Q]*merchant-banker[^Q]*Q[^>]*>\s*<b[^>]*>\s*
     ([^<]+?(?:Securities|Capital|Advisory)[^<]*?Limited)\s*</b>
     where Q is the double quote *)
  seq ([ lit (txt "<a href="); lit quote; star (not_chars quote);
         lit (txt "merchant-banker"); star (not_chars quote); lit quote;
         star (not_chars (txt ">")); lit (txt ">"); star Space ]
       ++ open_bold ++
       [ star Space;
         Grp 1 (seq [ plus_lazy (not_chars (txt "<"));
                      alts [ lit (txt "Securities"); lit (txt "Capital");
                             lit (txt "Advisory") ];
                      star_lazy (not_chars (txt "<"));
                      lit (txt "Limited") ]);
         star Space; lit (txt "</b>") ]).

Definition registrar_pattern : regex :=
  (* <a[^>]*href=Q[^Q]*ipo-registrar[^Q]*Q[^>]*>\s*
     ([^<]+?(?:Securities|Capital|Computers|Consultants)[^<]*?Limited[^<]*?)
     \s*(?:<i|</a>) *)
  seq [ lit (txt "<a"); star (not_chars (txt ">")); lit (txt "href=");
        lit quote; star (not_chars quote); lit (txt "ipo-registrar");
        star (not_chars quote); lit quote; star (not_chars (txt ">"));
        lit (txt ">"); star Space;
        Grp 1 (seq [ plus_lazy (not_chars (txt "<"));
                     alts [ lit (txt "Securities"); lit (txt "Capital");
                            lit (txt "Computers"); lit (txt "Consultants") ];
                     star_lazy (not_chars (txt "<"));
                     lit (txt "Limited");
                     star_lazy (not_chars (txt "<")) ]);
        star Space;
        alts [lit (txt "<i"); lit (txt "</a>")] ].

(** The loop that removes duplicates and keeps the order. *)
Fixpoint dedup_clean (seen : list str) (matches : list str) : list str :=
  match matches with
  | [] => []
  | brlm :: matches' =>
      let brlm_clean := _clean_text (Some brlm) in
      if negb (is_empty brlm_clean)
         && negb (existsb (str_eqb brlm_clean) seen)
      then brlm_clean :: dedup_clean (brlm_clean :: seen) matches'
      else dedup_clean seen matches'
  end.

Definition _extract_stakeholders (doc : document) : dict pyval :=
  let stakeholders := [] in
  let html_str := html_str doc in
  let brlm_matches := findall1 brlm_pattern html_str IGNORECASE in
  let stakeholders :=
    match brlm_matches with
    | [] => stakeholders
    | _ =>
        let brlms := dedup_clean [] brlm_matches in
        set (txt "lead_managers") (VList (map VStr (firstn 3 brlms)))
            stakeholders
    end in
  let stakeholders :=
    match Re.search registrar_pattern html_str IGNORECASE with
    | Some m =>
        set (txt "registrar") (VStr (_clean_text (group 1 m))) stakeholders
    | None => stakeholders
    end in
  stakeholders.

(** [_extract_company_info] *)
Definition ref_link (path : string) : regex :=
  (* <a[^>]*href=Q[^Q]*PATH/([^Q]+)Q[^>]*>\s*<b[^>]*>([^<]+)</b> *)
  seq ([ lit (txt "<a"); star (not_chars (txt ">")); lit (txt "href=");
         lit quote; star (not_chars quote); lit (txt path); lit (txt "/");
         Grp 1 (plus (not_chars quote)); lit quote;
         star (not_chars (txt ">")); lit (txt ">"); star Space ]
       ++ open_bold ++
       [ Grp 2 (plus (not_chars (txt "<"))); lit (txt "</b>") ]).

Definition sector_pattern : regex := ref_link "know-your-sector".
Definition city_pattern : regex := ref_link "geography-wise-ipos".

Definition linked_bold : list regex :=
  (* <a[^>]*>\s*<b[^>]*>([^<]+)</b>\s*</a> *)
  [ lit (txt "<a"); star (not_chars (txt ">")); lit (txt ">"); star Space ]
  ++ open_bold ++
  [ Grp 1 (plus (not_chars (txt "<"))); lit (txt "</b>"); star Space;
    lit (txt "</a>") ].

Definition sector_fallback : regex :=
  (* r'caters to.*?' <linked bold> r'\s*sector' *)
  seq ([lit (txt "caters to"); star_lazy Dot] ++ linked_bold ++
       [star Space; lit (txt "sector")]).

Definition city_fallback : regex :=
  (* r'based in.*?' <linked bold> *)
  seq ([lit (txt "based in"); star_lazy Dot] ++ linked_bold).

Definition subsector_pattern : regex :=
  (* r'Sub Sector\s*:\s*<b[^>]*>([^<]+)</b>' *)
  seq ([ lit (txt "Sub Sector"); star Space; lit (txt ":"); star Space ]
       ++ open_bold ++
       [ Grp 1 (plus (not_chars (txt "<"))); lit (txt "</b>") ]).

(** [if primary: d[key] = clean(primary.group(2)) else: fallback ...] *)
Definition with_fallback (key : string) (primary fallback : regex)
    (html_str : str) (d : dict pyval) : dict pyval :=
  match Re.search primary html_str IGNORECASE with
  | Some m => set (txt key) (VStr (_clean_text (group 2 m))) d
  | None =>
      match Re.search fallback html_str IGNORECASE with
      | Some m => set (txt key) (VStr (_clean_text (group 1 m))) d
      | None => d
      end
  end.

Definition _extract_company_info (doc : document) : dict pyval :=
  let company := [] in
  let html_str := html_str doc in
  let company := with_fallback "sector" sector_pattern sector_fallback
                               html_str company in
  let company := with_fallback "city" city_pattern city_fallback
                               html_str company in
  let company :=
    match Re.search subsector_pattern html_str IGNORECASE with
    | Some m => set (txt "sub_sector") (VStr (_clean_text (group 1 m))) company
    | None => company
    end in
  let company :=
    match find (txt "div") [(txt "id", is_text (txt "company-info-preview"))]
               (soup doc) with
    | Some desc_div =>
        let desc_text := _clean_text (Some (text desc_div)) in
        let desc_text := strip_chars quote desc_text in
        set (txt "description") (VStr (firstn 500 desc_text)) company
    | None => company
    end in
  company.

(** [_parse_subscription_table] *)
Definition cell_texts (name : string) (row : node) : list str :=
  map (fun c => _clean_text (Some (text c))) (find_all (txt name) [] row).

(** The loop over [tbody.find_all('tr')]. *)
Fixpoint table_rows (headers : list str) (trs : list node)
    : list (dict str) :=
  match trs with
  | [] => []
  | tr :: trs' =>
      let cells := cell_texts "td" tr in
      match cells, headers with
      | _ :: _, _ :: _ => of_pairs (zip headers cells) :: table_rows headers trs'
      | _, _ => table_rows headers trs'
      end
  end.

Definition _parse_subscription_table (table : node) : list (dict str) :=
  let headers :=
    match find (txt "thead") [] table with
    | Some header_row => cell_texts "th" header_row
    | None => []
    end in
  match find (txt "tbody") [] table with
  | Some tbody => table_rows headers (find_all (txt "tr") [] tbody)
  | None => []
  end.

(** [_extract_subscription] *)
Definition sub_pattern : regex :=
  (* r'Subscription\s*:.*?<b[^>]*>([^<]+)</b>' *)
  seq ([ lit (txt "Subscription"); star Space; lit (txt ":"); star_lazy Dot ]
       ++ open_bold ++
       [ Grp 1 (plus (not_chars (txt "<"))); lit (txt "</b>") ]).

Definition times_pattern : regex :=
  (* r'([\d.]+)\s*times' *)
  seq [ Grp 1 (plus (Class false [CDigit; CLit 46%N])); star Space;
        lit (txt "times") ].

Definition row_value (row : dict str) : pyval :=
  VDict (map (fun kv => (fst kv, VStr (snd kv))) row).

Definition _extract_subscription (doc : document) : result (dict pyval) :=
  let subscription := [] in
  let html_str := html_str doc in
  let! subscription :=
    match Re.search sub_pattern html_str IGNORECASE with
    | Some m =>
        let sub_text := _clean_text (group 1 m) in
        if negb (is_empty sub_text) && negb (str_eqb sub_text placeholder)
        then
          match Re.search times_pattern sub_text IGNORECASE with
          | Some times_match =>
              let! q := PyNum.float (group_str 1 times_match) in
              Ok (set (txt "total_subscription_times") (VFloat q) subscription)
          | None =>
              Ok (set (txt "total_subscription_raw") (VStr sub_text)
                      subscription)
          end
        else Ok subscription
    | None => Ok subscription
    end in
  let subscription :=
    match find (txt "table")
               [(txt "class", re_filter (lit (txt "subscription")) NOFLAGS)]
               (soup doc) with
    | Some sub_table =>
        set (txt "category_wise")
            (VList (map row_value (_parse_subscription_table sub_table)))
            subscription
    | None => subscription
    end in
  Ok subscription.

(** [_extract_issue_composition] *)
Definition fresh_pattern : regex :=
  (* r'fresh issue size of\s*<rupee>\s*(NUM)\s*Cr' *)
  seq [ lit (txt "fresh issue size of"); star Space; lit rupee; star Space;
        Grp 1 number_re; star Space; lit (txt "Cr") ].

Definition ofs_pattern : regex :=
  (* r'Offer for sale being\s*<rupee>\s*(NUM)\s*Cr' *)
  seq [ lit (txt "Offer for sale being"); star Space; lit rupee; star Space;
        Grp 1 number_re; star Space; lit (txt "Cr") ].

Definition _extract_issue_composition (doc : document)
    : result (dict pyval) :=
  let composition := [] in
  let html_str := html_str doc in
  let! composition :=
    set_float "fresh_issue_cr" (Re.search fresh_pattern html_str IGNORECASE)
              composition in
  let! composition :=
    set_float "offer_for_sale_cr" (Re.search ofs_pattern html_str IGNORECASE)
              composition in
  Ok composition.

(** [_extract_documents] *)
Definition rhp_href : regex :=
  (* r'.*RHP\.pdf|.*Red_Herring.*\.pdf' *)
  Alt (seq [star Dot; lit (txt "RHP.pdf")])
      (seq [star Dot; lit (txt "Red_Herring"); star Dot; lit (txt ".pdf")]).

Definition drhp_href : regex :=
  (* r'.*DRHP\.pdf' *)
  seq [star Dot; lit (txt "DRHP.pdf")].

(** [link = soup.find('a', href=pattern); if link and link.get('href'):
    d[key] = link['href']] *)
Definition set_href (key : string) (pattern : regex) (doc : document)
    (d : dict pyval) : dict pyval :=
  match find (txt "a") [(txt "href", re_filter pattern IGNORECASE)]
             (soup doc) with
  | Some link =>
      match get (txt "href") link with
      | Some (AStr h) => if is_empty h then d else set (txt key) (VStr h) d
      | Some (AList l) =>
          match l with
          | [] => d
          | _ => set (txt key) (VList (map VStr l)) d
          end
      | None => d
      end
  | None => d
  end.

Definition _extract_documents (doc : document) : dict pyval :=
  let documents := [] in
  let documents := set_href "rhp_url" rhp_href doc documents in
  let documents := set_href "drhp_url" drhp_href doc documents in
  documents.

(** [extract_all]: the nine groups, computed in this order; an exception in
    one group leaves [extract_all] by that exception. *)
Definition extract_all (doc : document) : result (dict pyval) :=
  let basic_info := _extract_basic_info doc in
  let dates := _extract_dates doc in
  let! pricing := _extract_pricing doc in
  let! financial_info := _extract_financial_info doc in
  let stakeholders := _extract_stakeholders doc in
  let company_info := _extract_company_info doc in
  let! subscription := _extract_subscription doc in
  let! issue_composition := _extract_issue_composition doc in
  let documents := _extract_documents doc in
  Ok [ (txt "basic_info", VDict basic_info);
       (txt "dates", VDict dates);
       (txt "pricing", VDict pricing);
       (txt "financial_info", VDict financial_info);
       (txt "stakeholders", VDict stakeholders);
       (txt "company_info", VDict company_info);
       (txt "subscription", VDict subscription);
       (txt "issue_composition", VDict issue_composition);
       (txt "documents", VDict documents) ].

End IPODataExtractor.

(* ===================================================================== *)
(** ** [difflib.SequenceMatcher(None, a, b).ratio()]                      *)
(* ===================================================================== *)

Module Difflib.

(** The indices of [b], from [j] on, that hold the character [c]. *)
Fixpoint positions_from (j : nat) (b : str) (c : char) : list nat :=
  match b with
  | [] => []
  | x :: b' =>
      if char_eqb x c then j :: positions_from (S j) b' c
      else positions_from (S j) b' c
  end.

(** [b2j]: where each character occurs in [b].  With [autojunk] on (the
    default) and [len(b) >= 200], a character that occurs more than
    [len(b) // 100 + 1] times is "popular" and loses its entry. *)
Definition b2j (b : str) (c : char) : list nat :=
  let idxs := positions_from 0 b c in
  let n := length b in
  if (200 <=? n) && (n / 100 + 1 <? length idxs) then [] else idxs.

(** [j2len.get(j, 0)] *)
Fixpoint j2len_get (j2len : list (nat * nat)) (j : nat) : nat :=
  match j2len with
  | [] => 0
  | (j', k) :: rest => if Nat.eqb j j' then k else j2len_get rest j
  end.

(** [a[i]] at an index within the sequence. *)
Definition at_ (a : str) (i : nat) : char := nth i a 0%N.

Definition best := (nat * nat * nat)%type.   (* besti, bestj, bestsize *)

(** The inner loop [for j in b2j.get(a[i], nothing)] of
    [find_longest_match]: [j - 1] is looked up in the row of the previous
    [i]; a longer run replaces the best one only when strictly longer. *)
Fixpoint row (i blo bhi : nat) (j2len : list (nat * nat)) (js : list nat)
    (newj2len : list (nat * nat)) (bst : best) : list (nat * nat) * best :=
  match js with
  | [] => (newj2len, bst)
  | j :: js' =>
      if j <? blo then row i blo bhi j2len js' newj2len bst
      else if bhi <=? j then (newj2len, bst)
      else
        let k := match j with
                 | O => 1
                 | S j1 => j2len_get j2len j1 + 1
                 end in
        let '(besti, bestj, bestsize) := bst in
        row i blo bhi j2len js' ((j, k) :: newj2len)
            (if bestsize <? k then (i + 1 - k, j + 1 - k, k) else bst)
  end.

(** The outer loop [for i in range(alo, ahi)]. *)
Fixpoint rows (a b : str) (blo bhi : nat) (is_ : list nat)
    (j2len : list (nat * nat)) (bst : best) : best :=
  match is_ with
  | [] => bst
  | i :: is' =>
      let '(newj2len, bst') :=
        row i blo bhi j2len (b2j b (at_ a i)) [] bst in
      rows a b blo bhi is' newj2len bst'
  end.

(** [while besti > alo and bestj > blo and a[besti-1] == b[bestj-1]] *)
Fixpoint extend_left (a b : str) (alo blo : nat) (besti bestj bestsize : nat)
    : best :=
  match besti with
  | O => (besti, bestj, bestsize)
  | S i1 =>
      if (alo <? besti) && (blo <? bestj)
         && char_eqb (at_ a i1) (at_ b (bestj - 1))
      then extend_left a b alo blo i1 (bestj - 1) (bestsize + 1)
      else (besti, bestj, bestsize)
  end.

(** [while besti+bestsize < ahi and bestj+bestsize < bhi and
    a[besti+bestsize] == b[bestj+bestsize]]; [n] bounds the turns. *)
Fixpoint extend_right (a b : str) (ahi bhi : nat) (besti bestj : nat)
    (n : nat) (bestsize : nat) : nat :=
  match n with
  | O => bestsize
  | S n' =>
      if (besti + bestsize <? ahi) && (bestj + bestsize <? bhi)
         && char_eqb (at_ a (besti + bestsize)) (at_ b (bestj + bestsize))
      then extend_right a b ahi bhi besti bestj n' (bestsize + 1)
      else bestsize
  end.

(** [find_longest_match(alo, ahi, blo, bhi)].  No element is junk
    ([isjunk] is [None]), so the two loops that extend over junk do
    nothing and are left out. *)
Definition find_longest_match (a b : str) (alo ahi blo bhi : nat) : best :=
  let '(besti, bestj, bestsize) :=
    rows a b blo bhi (seq alo (ahi - alo)) [] (alo, blo, 0) in
  let '(besti, bestj, bestsize) :=
    extend_left a b alo blo besti bestj bestsize in
  (besti, bestj,
   extend_right a b ahi bhi besti bestj (ahi - (besti + bestsize)) bestsize).

(** The total size of the blocks of [get_matching_blocks]: the longest
    block of the range, then the ranges left and right of it.  [fuel]
    bounds the nesting, which is at most the length of the range of [a]. *)
Fixpoint matched (fuel : nat) (a b : str) (alo ahi blo bhi : nat) : nat :=
  match fuel with
  | O => 0
  | S fuel' =>
      let '(i, j, k) := find_longest_match a b alo ahi blo bhi in
      if Nat.eqb k 0 then 0
      else
        k
        + (if (alo <? i) && (blo <? j)
           then matched fuel' a b alo i blo j else 0)
        + (if (i + k <? ahi) && (j + k <? bhi)
           then matched fuel' a b (i + k) ahi (j + k) bhi else 0)
  end.

Definition matches (a b : str) : nat :=
  matched (length a) a b 0 (length a) 0 (length b).

(** [ratio()]: [2.0 * matches / length], and [1.0] for two empty
    sequences. *)
Definition ratio (a b : str) : Q :=
  let length := (length a + length b)%nat in
  match length with
  | O => 1%Q
  | S _ => Qmake (2 * Z.of_nat (matches a b)) (Pos.of_nat length)
  end.

End Difflib.

(* ===================================================================== *)
(** ** [ipo_index_builder.py]: class [IPOIndexBuilder]                    *)
(* ===================================================================== *)

(** A company record: a dictionary with the keys [name], [slug], [id],
    [url], [category], and [match_score] on a search result. *)
Abbreviation company := (PyDict.dict pyval) (only parsing).

(** [company[key]] used as a text (a dictionary or set key, an operand of
    a text method).  The builder stores texts only; another kind of value
    is reported as [TypeError]. *)
Definition text_item (key : string) (c : company) : result str :=
  match PyDict.get (txt key) c with
  | None => Raise KeyError
  | Some (VStr s) => Ok s
  | Some _ => Raise TypeError
  end.

(** [company[key] == text]: a value that is not a text is equal to no
    text. *)
Definition item_is (key : string) (text : str) (c : company) : result bool :=
  match PyDict.get (txt key) c with
  | None => Raise KeyError
  | Some (VStr s) => Ok (str_eqb s text)
  | Some _ => Ok false
  end.

Module IPOIndexBuilder.
Import Re PyDict Bs4.
Local Open Scope result_scope.

Definition BASE_URL : str := txt "https://www.ipoplatform.com".

Definition CATEGORIES : list (str * str) :=
  [ (txt "mainboard", txt "/list-of-mainboard-ipos");
    (txt "sme", txt "/list-of-sme-ipos");
    (txt "upcoming", txt "/upcoming-mainboard-ipo") ].

Definition link_pattern : regex :=      (* r'/ipo/([^/]+)/(\d+)' *)
  seq [ lit (txt "/ipo/"); Grp 1 (plus (not_chars (txt "/"))); lit (txt "/");
        Grp 2 (plus Digit) ].

Definition ipo_suffix : regex :=        (* r'\s+IPO\s*$' *)
  seq [plus Space; lit (txt "IPO"); star Space; Eos].

(** [link_tag.get(k, '')] used as a text; a multi-valued attribute makes the
    text operation that follows fail, which the [try] turns into [None]. *)
Definition text_attr (k : string) (link_tag : node) : option str :=
  match get (txt k) link_tag with
  | None => Some []
  | Some (AStr s) => Some s
  | Some (AList _) => None
  end.

(** [extract_company_from_link]; every exception inside is caught and gives
    [None]. *)
Definition extract_company_from_link (link_tag : node) : option company :=
  match text_attr "href" link_tag with
  | None => None
  | Some href =>
      match Re.search link_pattern href NOFLAGS with
      | None => None
      | Some m =>
          let slug := group_str 1 m in
          let company_id := group_str 2 m in
          let company_name := get_text_strip link_tag in
          let company_name := Re.sub ipo_suffix [] company_name IGNORECASE in
          match (if is_empty company_name
                 then (fun t => replace (txt " IPO") [] t)
                        <$> text_attr "title" link_tag
                 else Some company_name) with
          | None => None
          | Some company_name =>
              if negb (is_empty company_name) && negb (is_empty slug)
                 && negb (is_empty company_id)
              then Some [ (txt "name", VStr (strip company_name));
                          (txt "slug", VStr slug);
                          (txt "id", VStr company_id);
                          (txt "url",
                           VStr (BASE_URL ++ txt "/ipo/" ++ slug ++ txt "/"
                                 ++ company_id)) ]
              else None
          end
      end
  end.

Definition listing_href : regex :=
  (* r'(/ipo/|https://www\.ipoplatform\.com/ipo/)[^/]+/\d+' *)
  seq [ Grp 1 (Alt (lit (txt "/ipo/"))
                   (lit (txt "https://www.ipoplatform.com/ipo/")));
        plus (not_chars (txt "/")); lit (txt "/"); plus Digit ].

(** The loop of [scrape_category] over the links; [seen] is the set of ids
    already taken on this page. *)
Fixpoint scrape_links (category_name : str) (seen : list str)
    (ipo_links : list node) : result (list company) :=
  match ipo_links with
  | [] => Ok []
  | link :: ipo_links' =>
      match extract_company_from_link link with
      | Some company =>
          let! id := text_item "id" company in
          if negb (existsb (str_eqb id) seen) then
            let company := set (txt "category") (VStr category_name) company in
            let! companies := scrape_links category_name (id :: seen) ipo_links' in
            Ok (company :: companies)
          else scrape_links category_name seen ipo_links'
      | None => scrape_links category_name seen ipo_links'
      end
  end.

(** [scrape_category]; [fetch_page] is the network: it gives the parsed page
    of a URL, or [None] when the request fails. *)
Definition scrape_category (fetch_page : str -> option node)
    (category_name category_path : str) : result (list company) :=
  let url := BASE_URL ++ category_path in
  match fetch_page url with
  | None => Ok []
  | Some soup =>
      let ipo_links :=
        find_all (txt "a") [(txt "href", re_filter listing_href NOFLAGS)] soup in
      scrape_links category_name [] ipo_links
  end.

(** The first loop of [build_index]: the companies of all categories, one
    category after the other. *)
Fixpoint scrape_all (fetch_page : str -> option node)
    (categories : list (str * str)) : result (list company) :=
  match categories with
  | [] => Ok []
  | (category_name, category_path) :: categories' =>
      let! companies := scrape_category fetch_page category_name category_path in
      let! rest := scrape_all fetch_page categories' in
      Ok (companies ++ rest)
  end.

(** The second loop of [build_index]:
    [for company in all_companies: unique_companies[company['id']] = company] *)
Fixpoint unique_loop (all_companies : list company)
    (unique_companies : dict company) : result (dict company) :=
  match all_companies with
  | [] => Ok unique_companies
  | company :: all_companies' =>
      let! id := text_item "id" company in
      unique_loop all_companies' (set id company unique_companies)
  end.

(** Collection build: [list(unique_companies.values())] *)
Definition unique_by_id (all_companies : list company)
    : result (list company) :=
  let! unique_companies := unique_loop all_companies [] in
  Ok (values unique_companies).

(** [build_index] *)
Definition build_index (fetch_page : str -> option node)
    : result (list company) :=
  let! all_companies := scrape_all fetch_page CATEGORIES in
  unique_by_id all_companies.

(** [get_company_by_id] *)
Fixpoint get_company_by_id (companies : list company) (company_id : str)
    : result (option company) :=
  match companies with
  | [] => Ok None
  | company :: companies' =>
      let! hit := item_is "id" company_id company in
      if hit then Ok (Some company)
      else get_company_by_id companies' company_id
  end.

(** [get_company_by_slug] *)
Fixpoint get_company_by_slug (companies : list company) (slug : str)
    : result (option company) :=
  match companies with
  | [] => Ok None
  | company :: companies' =>
      let! hit := item_is "slug" slug company in
      if hit then Ok (Some company)
      else get_company_by_slug companies' slug
  end.

End IPOIndexBuilder.

(* ===================================================================== *)
(** ** [ipo_search_engine.py]: class [IPOSearchEngine]                    *)
(* ===================================================================== *)

Module IPOSearchEngine.
Import PyDict.
Local Open Scope result_scope.

Definition Qltb (a b : Q) : bool := negb (Qle_bool b a).

(** [max(a, b)]: the first of the largest, so [b] only when [b > a]. *)
Definition py_max (a b : Q) : Q := if Qltb a b then b else a.

(** [results[:limit]]; a negative [limit] counts from the end. *)
Definition slice_to {A} (limit : Z) (l : list A) : list A :=
  if (0 <=? limit)%Z then firstn (Z.to_nat limit) l
  else firstn (length l - Z.to_nat (- limit)) l.

(** [list.sort(key=..., reverse=True)] on the list of (key, element) pairs:
    the sort is stable, a pair goes in front of the first pair whose key is
    not greater than its own. *)
Fixpoint insert_desc {A} (x : Q * A) (l : list (Q * A)) : list (Q * A) :=
  match l with
  | [] => [x]
  | y :: l' => if Qltb (fst x) (fst y) then y :: insert_desc x l' else x :: l
  end.

Fixpoint sort_desc {A} (l : list (Q * A)) : list (Q * A) :=
  match l with
  | [] => []
  | x :: l' => insert_desc x (sort_desc l')
  end.

(** [calculate_similarity] *)
Definition calculate_similarity (str1 str2 : str) : Q :=
  Difflib.ratio (lower str1) (lower str2).

(** The score of one name in the loop of [search]: the similarity, raised
    to 0.6 when the query is a substring of the name. *)
Definition match_score (query name : str) : Q :=
  let score := calculate_similarity query name in
  if contains (lower query) (lower name) then py_max score 0.6 else score.

(** [company['name']] as the operand of [.lower()]. *)
Definition name_of (c : company) : result str :=
  match get (txt "name") c with
  | None => Raise KeyError
  | Some (VStr s) => Ok s
  | Some _ => Raise AttributeError
  end.

(** The key of the sort: [x['match_score']]. *)
Definition sort_key (x : company) : result Q :=
  match get (txt "match_score") x with
  | None => Raise KeyError
  | Some (VFloat q) => Ok q
  | Some _ => Raise TypeError
  end.

Fixpoint keyed (l : list company) : result (list (Q * company)) :=
  match l with
  | [] => Ok []
  | x :: l' =>
      let! k := sort_key x in
      let! rest := keyed l' in
      Ok ((k, x) :: rest)
  end.

(** *** [search] on the values of the records *)

(** The loop over [self.companies]. *)
Fixpoint scan (query : str) (min_score : Q) (companies : list company)
    : result (list company) :=
  match companies with
  | [] => Ok []
  | company :: companies' =>
      let! name := name_of company in
      let score := match_score query name in
      if Qle_bool min_score score then
        let result := set (txt "match_score") (VFloat score) company in
        let! results := scan query min_score companies' in
        Ok (result :: results)
      else scan query min_score companies'
  end.

Definition search (companies : list company) (query : str) (limit : Z)
    (min_score : Q) : result (list company) :=
  if is_empty query || match companies with [] => true | _ => false end
  then Ok []
  else
    let! results := scan query min_score companies in
    let! ks := keyed results in
    Ok (slice_to limit (map snd (sort_desc ks))).

(** The defaults of [search]: [limit=10], [min_score=0.3]. *)
Definition default_limit : Z := 10.
Definition default_min_score : Q := 0.3.

(** *** The lookups *)

(** [search_by_id] *)
Fixpoint search_by_id (companies : list company) (company_id : str)
    : result (option company) :=
  match companies with
  | [] => Ok None
  | company :: companies' =>
      let! hit := item_is "id" company_id company in
      if hit then Ok (Some company)
      else search_by_id companies' company_id
  end.

(** [search_by_slug] *)
Fixpoint search_by_slug (companies : list company) (slug : str)
    : result (option company) :=
  match companies with
  | [] => Ok None
  | company :: companies' =>
      let! hit := item_is "slug" slug company in
      if hit then Ok (Some company)
      else search_by_slug companies' slug
  end.

(** [c.get('category', '').lower()] *)
Definition category_lower (c : company) : result str :=
  match get (txt "category") c with
  | None => Ok (lower [])
  | Some (VStr s) => Ok (lower s)
  | Some _ => Raise AttributeError
  end.

(** [search_by_category] *)
Fixpoint search_by_category (companies : list company) (category : str)
    : result (list company) :=
  match companies with
  | [] => Ok []
  | c :: companies' =>
      let! cat := category_lower c in
      if str_eqb cat (lower category) then
        let! rest := search_by_category companies' category in
        Ok (c :: rest)
      else search_by_category companies' category
  end.

(** [categories.add(x)], the set held as the list of its members in the
    order they came in.  (The order Python keeps them in does not matter:
    the members are distinct and the set is only used sorted.) *)
Definition set_add (x : str) (categories : list str) : list str :=
  if existsb (str_eqb x) categories then categories else categories ++ [x].

(** The loop of [get_all_categories].  The categories are texts; a category
    of another kind is reported as [TypeError] (what Python does for a list
    or a dictionary, and for another value as soon as it is sorted together
    with a text). *)
Fixpoint collect_categories (companies : list company)
    (categories : list str) : result (list str) :=
  match companies with
  | [] => Ok categories
  | company :: companies' =>
      if mem (txt "category") company then
        let! category := text_item "category" company in
        collect_categories companies' (set_add category categories)
      else collect_categories companies' categories
  end.

(** [get_all_categories] *)
Definition get_all_categories (companies : list company)
    : result (list str) :=
  let! categories := collect_categories companies [] in
  Ok (sorted categories).

(** *** [search] on the objects

    The records are objects in a heap; [self.companies] and the result are
    lists of references.  A reference is the index of its object in the
    heap; a new object goes to the end.  The fields of a company are texts
    and numbers, which cannot be changed in place, so a record holds them
    itself. *)

Abbreviation loc := nat (only parsing).
Abbreviation heap := (list company) (only parsing).

(** A computation on the heap that may raise. *)
Definition ST (A : Type) := heap -> result A * heap.

Definition ret {A} (a : A) : ST A := fun h => (Ok a, h).
Definition bind {A B} (m : ST A) (f : A -> ST B) : ST B :=
  fun h => match m h with
           | (Ok a, h') => f a h'
           | (Raise e, h') => (Raise e, h')
           end.
Definition lift {A} (r : result A) : ST A := fun h => (r, h).

Declare Scope st_scope.
Delimit Scope st_scope with st.
Notation "'let!' x ':=' c 'in' k" := (bind c (fun x => k))
  (at level 10, x name, c at level 100, k at level 200) : st_scope.

(** Reading the object behind a reference. *)
Definition deref (l : loc) : ST company :=
  fun h => match h !! l with
           | Some d => (Ok d, h)
           | None => (Raise KeyError, h)
           end.

(** [d.copy()]: a new object with the same items. *)
Definition copy (l : loc) : ST loc :=
  fun h => match h !! l with
           | Some d => (Ok (length h), h ++ [d])
           | None => (Raise KeyError, h)
           end.

(** [obj[k] = v] *)
Definition setitem (l : loc) (k : str) (v : pyval) : ST unit :=
  fun h => match h !! l with
           | Some d => (Ok tt, <[l := set k v d]> h)
           | None => (Raise KeyError, h)
           end.

Local Open Scope st_scope.

Fixpoint scan_h (query : str) (min_score : Q) (companies : list loc)
    : ST (list loc) :=
  match companies with
  | [] => ret []
  | company :: companies' =>
      let! d := deref company in
      let! name := lift (name_of d) in
      let score := match_score query name in
      if Qle_bool min_score score then
        let! result := copy company in
        let! _ := setitem result (txt "match_score") (VFloat score) in
        let! results := scan_h query min_score companies' in
        ret (result :: results)
      else scan_h query min_score companies'
  end.

Fixpoint keyed_h (l : list loc) : ST (list (Q * loc)) :=
  match l with
  | [] => ret []
  | x :: l' =>
      let! d := deref x in
      let! k := lift (sort_key d) in
      let! rest := keyed_h l' in
      ret ((k, x) :: rest)
  end.

Definition search_h (companies : list loc) (query : str) (limit : Z)
    (min_score : Q) : ST (list loc) :=
  if is_empty query || match companies with [] => true | _ => false end
  then ret []
  else
    let! results := scan_h query min_score companies in
    let! ks := keyed_h results in
    ret (slice_to limit (map snd (sort_desc ks))).

(** The records behind a list of references. *)
Fixpoint deref_all (h : heap) (ls : list loc) : option (list company) :=
  match ls with
  | [] => Some []
  | l :: ls' =>
      match h !! l, deref_all h ls' with
      | Some d, Some ds => Some (d :: ds)
      | _, _ => None
      end
  end.

(** [search_by_id] on the objects: the reference found is returned as it
    is. *)
Fixpoint search_by_id_h (companies : list loc) (company_id : str)
    : ST (option loc) :=
  match companies with
  | [] => ret None
  | company :: companies' =>
      let! d := deref company in
      let! hit := lift (item_is "id" company_id d) in
      if hit then ret (Some company)
      else search_by_id_h companies' company_id
  end.

End IPOSearchEngine.

(* ===================================================================== *)
(** ** [search_ipo.py]: class [IPOSearchAndExtract]                       *)
(* ===================================================================== *)

Module IPOSearchAndExtract.
Import PyDict.
Local Open Scope result_scope.

(** [search_companies]: the search with its default minimum score. *)
Definition search_companies (companies : list company) (query : str)
    (limit : Z) : result (list company) :=
  IPOSearchEngine.search companies query limit
                         IPOSearchEngine.default_min_score.

(** [search_and_extract]: the best of five results goes to
    [get_company_details], which fetches and reads the page of the company
    ([None] when the page cannot be fetched). *)
Definition search_and_extract {A : Type}
    (get_company_details : company -> result (option A))
    (companies : list company) (company_name : str) : result (option A) :=
  let! results := search_companies companies company_name 5 in
  match results with
  | [] => Ok None
  | best_match :: _ => get_company_details best_match
  end.

End IPOSearchAndExtract.

(* ===================================================================== *)
(** * The vocabulary of the properties                                    *)
(* ===================================================================== *)

Section ReFactsTerms.
Import Re.

Definition within (hi : option nat) (n : nat) : Prop :=
  match hi with Some h => n <= h | None => True end.

End ReFactsTerms.

Section CurrencyTerms.
Import Re PyDict IPODataExtractor.

(** A digit or a separator: what the numeric literal of the currency
    pattern starts with. *)
Definition is_num_char (c : char) : bool := isdigit c || char_eqb c 44%N.

(** What the claim C5 asks of a non-empty input [text], whichever way "a
    numeric literal is found" is read: either the value is the [float] of a
    literal, or value (missing or [None]), unit and currency symbol are all
    absent. *)
Definition currency_claim (text : str) : Prop :=
  exists d, _extract_currency_value (Some text) = Ok (Some d) /\
    ((exists q, get (txt "value") d = Some (VFloat q)) \/
     ((get (txt "value") d = None \/ get (txt "value") d = Some VNone) /\
      get (txt "unit") d = None /\ get (txt "currency") d = None)).

End CurrencyTerms.

Section DatesTerms.
Import Re PyDict Bs4 IPODataExtractor.

(** The calendar-date shape: a day of one or two digits with its ordinal
    suffix, a month name and a year of four digits, separated by white
    space, somewhere in the text. *)
Definition has_calendar_date (t : str) : Prop :=
  exists pre day ord ws1 month ws2 year post,
    t = pre ++ (day ++ ord ++ ws1 ++ month ++ ws2 ++ year) ++ post /\
    forallb isdigit day = true /\ 1 <= length day <= 2 /\
    In ord [txt "st"; txt "nd"; txt "rd"; txt "th"] /\
    forallb isspace ws1 = true /\ 1 <= length ws1 /\
    In month (map txt months) /\
    forallb isspace ws2 = true /\ 1 <= length ws2 /\
    forallb isdigit year = true /\ length year = 4.

(** The value a labelled pattern contributes to the dates group: the
    cleaned text in bold after the label, when it has the calendar-date
    shape. *)
Definition date_value (html_str : str) (pattern : regex) : option pyval :=
  match Re.search pattern html_str IGNORECASE_DOTALL with
  | Some m =>
      let date_text := _clean_text (group 1 m) in
      match Re.search date_regex date_text NOFLAGS with
      | Some _ => Some (VStr date_text)
      | None => None
      end
  | None => None
  end.

Definition field_of (k : str) (fields : list (str * regex))
    : option (str * regex) :=
  List.find (fun fp => str_eqb k (fst fp)) fields.

End DatesTerms.

Section DatesWitnessTerms.
Import Re PyDict Bs4 IPODataExtractor.

(** A page whose listing date is still the placeholder. *)
Definition pending_listing_doc : document :=
  {| soup :=
       Tag (txt "[document]") []
         [ Tag (txt "p") []
             [ NavigableString (txt "IPO open date is ");
               Tag (txt "b") [] [NavigableString (txt "21st November 2025")];
               NavigableString (txt " and Listing date is ");
               Tag (txt "b") [] [NavigableString placeholder] ] ];
     html_str := txt "<p>IPO open date is <b>21st November 2025</b> and "
                 ++ txt "Listing date is <b>" ++ placeholder
                 ++ txt "</b></p>" |}.

End DatesWitnessTerms.

Section PricingTerms.
Import Re PyDict Bs4 IPODataExtractor.

(** The fallback chains of the pricing group with the keys they fill. *)
Definition pricing_chains : list (list regex * string) :=
  [ (size_patterns, "ipo_size_cr"%string);
    (price_patterns, "issue_price_rs"%string) ].

(** A page on which the first and the second issue-size pattern both
    match, with different amounts. *)
Definition two_sizes_doc : document :=
  {| soup :=
       Tag (txt "[document]") []
         [ NavigableString (txt "IPO size is ");
           Tag (txt "b") [] [NavigableString (rupee ++ txt " 895.00 Cr.")];
           NavigableString (txt " with ipo size of " ++ rupee ++ txt "100 Cr") ];
     html_str := txt "IPO size is <b>" ++ rupee ++ txt " 895.00 Cr.</b> with "
                 ++ txt "ipo size of " ++ rupee ++ txt "100 Cr" |}.

End PricingTerms.

Section SubscriptionTableTerms.
Import PyDict Bs4 IPODataExtractor.

(** The header labels of a table: the cleaned texts of the [th] cells below
    its first [thead]; none without a [thead]. *)
Definition table_headers (table : node) : list str :=
  match find (txt "thead") [] table with
  | Some header_row => cell_texts "th" header_row
  | None => []
  end.

(** A table with two header cells and one row of two cells. *)
Definition two_column_table : node :=
  Tag (txt "table") [(txt "class", AList [txt "subscription"])]
    [ Tag (txt "thead") []
        [ Tag (txt "tr") []
            [ Tag (txt "th") [] [NavigableString (txt "Category")];
              Tag (txt "th") [] [NavigableString (txt "Times")] ] ];
      Tag (txt "tbody") []
        [ Tag (txt "tr") []
            [ Tag (txt "td") [] [NavigableString (txt "QIB")];
              Tag (txt "td") [] [NavigableString (txt " 2.5 ")] ] ] ].

End SubscriptionTableTerms.

Section CollectionBuildTerms.
Import PyDict Bs4 IPOIndexBuilder.

(** The id of a company, and the companies that have one. *)
Definition id_of (c : company) : str :=
  match PyDict.get (txt "id") c with
  | Some (VStr s) => s
  | _ => []
  end.

Definition has_text_id (c : company) : Prop :=
  exists s, PyDict.get (txt "id") c = Some (VStr s).

(** The entry with id [i] that comes last in the sequence. *)
Definition last_with_id (i : str) (all_companies : list company)
    : option company :=
  List.find (fun c => str_eqb (id_of c) i) (rev all_companies).

(** A company as a listing page gives it: a name and an id. *)
Definition listed (name id : string) : company :=
  [ (txt "name", VStr (txt name)); (txt "id", VStr (txt id)) ].

End CollectionBuildTerms.

Section DifflibFuelTerms.
Import Difflib.

(** The block found lies inside the range of [a]. *)
Definition in_arange (alo ahi : nat) (bst : best) : Prop :=
  let '(besti, bestj, bestsize) := bst in
  alo <= besti /\ besti + bestsize <= ahi.

Definition row_bound (n : nat) (j2len : list (nat * nat)) : Prop :=
  forall j, j2len_get j2len j <= n.

End DifflibFuelTerms.

Section RankingTerms.
Import PyDict IPOSearchEngine.
Local Open Scope Q_scope.
Context {A : Type}.

(** Descending by key. *)
Definition key_ge (p q : Q * A) : Prop := fst q <= fst p.

Definition same_key (s : Q) (p : Q * A) : bool := Qeq_bool (fst p) s.

(** [ranked] is the stable descending arrangement of [input]: the same
    entries, keys descending, and entries of equal key in the order they
    have in [input]. *)
Definition stable_desc (ranked input : list (Q * A)) : Prop :=
  Permutation ranked input /\
  StronglySorted key_ge ranked /\
  forall s, List.filter (same_key s) ranked = List.filter (same_key s) input.

End RankingTerms.

Section SearchResultsTerms.
Import PyDict IPOSearchEngine.
Local Open Scope Q_scope.

(** The name of a company, and the companies that have one. *)
Definition name_text (c : company) : str :=
  match PyDict.get (txt "name") c with
  | Some (VStr s) => s
  | _ => []
  end.

Definition has_text_name (c : company) : Prop :=
  exists s, PyDict.get (txt "name") c = Some (VStr s).

(** A company with its computed score: the score and the scored copy. *)
Definition scored (query : str) (c : company) : Q * company :=
  let score := match_score query (name_text c) in
  (score, set (txt "match_score") (VFloat score) c).

(** The companies whose score is at least [min_score], in the order of the
    collection. *)
Definition qualifying (query : str) (min_score : Q)
    (companies : list company) : list (Q * company) :=
  List.filter (fun p => Qle_bool min_score (fst p))
              (map (scored query) companies).

(** The claim C1 at one input: the result is the first [limit] entries of
    the stable descending arrangement of the qualifying companies. *)
Definition search_claim (companies : list company) (query : str)
    (limit : Z) (min_score : Q) : Prop :=
  exists ranked,
    stable_desc ranked (qualifying query min_score companies) /\
    search companies query limit min_score
    = Ok (firstn (Z.to_nat limit) (map snd ranked)).

(** A company that has a name only. *)
Definition named (name : string) : company := [(txt "name", VStr (txt name))].

End SearchResultsTerms.

Section SearchRefinementTerms.
Import PyDict IPOSearchEngine.

(** The reference [l] leads to the record [d]. *)
Definition points (h : list company) (l : nat) (d : company) : Prop :=
  h !! l = Some d.

(** A keyed reference and a keyed record: same key, and the reference
    leads to the record. *)
Definition keyed_points (h : list company) (a : Q * nat) (b : Q * company)
    : Prop :=
  fst a = fst b /\ points h (snd a) (snd b).

End SearchRefinementTerms.

Section ExtractAllTerms.
Import PyDict Bs4 IPODataExtractor.

(** A page with a well-formed open date and a promoter holding figure that
    has two decimal points. *)
Definition two_dots_doc : document :=
  {| soup :=
       Tag (txt "[document]") []
         [ Tag (txt "p") []
             [ NavigableString (txt "IPO open date is ");
               Tag (txt "b") [] [NavigableString (txt "21st November 2025")];
               NavigableString (txt ". Pre Issue Promoter Holding : ");
               Tag (txt "b") [] [NavigableString (txt "1.2.3%")] ] ];
     html_str :=
       txt "<p>IPO open date is <b>21st November 2025</b>. "
       ++ txt "Pre Issue Promoter Holding : <b>1.2.3%</b></p>" |}.

End ExtractAllTerms.

Section GroupTerms.
Import Re.

(** [accepts_caps fl r pos w rest caps caps']: the pattern [r] takes the
    text [w] at offset [pos], with [rest] following, and the groups it goes
    through are added to [caps], which gives [caps']. *)
Inductive accepts_caps (fl : flags)
    : regex -> nat -> str -> str -> captures -> captures -> Prop :=
| ac_eps pos rest caps : accepts_caps fl Eps pos [] rest caps caps
| ac_one a c pos rest caps :
    atom_matches fl a c = true -> accepts_caps fl (One a) pos [c] rest caps caps
| ac_cat r1 r2 pos w1 w2 rest caps caps1 caps2 :
    accepts_caps fl r1 pos w1 (w2 ++ rest) caps caps1 ->
    accepts_caps fl r2 (pos + length w1) w2 rest caps1 caps2 ->
    accepts_caps fl (Cat r1 r2) pos (w1 ++ w2) rest caps caps2
| ac_alt_l r1 r2 pos w rest caps caps' :
    accepts_caps fl r1 pos w rest caps caps' ->
    accepts_caps fl (Alt r1 r2) pos w rest caps caps'
| ac_alt_r r1 r2 pos w rest caps caps' :
    accepts_caps fl r2 pos w rest caps caps' ->
    accepts_caps fl (Alt r1 r2) pos w rest caps caps'
| ac_rep g lo hi a pos w rest caps :
    forallb (atom_matches fl a) w = true ->
    lo <= length w ->
    within hi (length w) ->
    accepts_caps fl (Rep g lo hi a) pos w rest caps caps
| ac_opt_some g r pos w rest caps caps' :
    accepts_caps fl r pos w rest caps caps' ->
    accepts_caps fl (Opt g r) pos w rest caps caps'
| ac_opt_none g r pos rest caps : accepts_caps fl (Opt g r) pos [] rest caps caps
| ac_grp n r pos w rest caps caps' :
    accepts_caps fl r pos w rest caps caps' ->
    accepts_caps fl (Grp n r) pos w rest caps
                 ((n, (pos, pos + length w)) :: caps')
| ac_bos rest caps : accepts_caps fl Bos 0 [] rest caps caps
| ac_eos pos rest caps :
    rest = [] \/ rest = [10%N] -> accepts_caps fl Eos pos [] rest caps caps.

(** The groups of a pattern, with their numbers. *)
Fixpoint groups_of (r : regex) : list (nat * regex) :=
  match r with
  | Cat r1 r2 | Alt r1 r2 => groups_of r1 ++ groups_of r2
  | Opt _ r1 => groups_of r1
  | Grp n r1 => (n, r1) :: groups_of r1
  | _ => []
  end.



End GroupTerms.

Section IndexTerms.
Import PyDict Bs4 IPOIndexBuilder.

(** What the builder makes of a link with the reference [href]: the
    reference holds "/ipo/<slug>/<id>" with a slug without a slash and an id
    of digits, the address is the site followed by that piece, and the name
    is a text that was not empty, stripped. *)
Definition link_record (href : str) (c : company) : Prop :=
  exists pre post raw slug id,
    href = pre ++ (txt "/ipo/" ++ slug ++ txt "/" ++ id) ++ post /\
    slug <> [] /\ ~ In 47%N slug /\
    id <> [] /\ forallb isdigit id = true /\
    raw <> [] /\
    c = [ (txt "name", VStr (strip raw));
          (txt "slug", VStr slug);
          (txt "id", VStr id);
          (txt "url",
           VStr (BASE_URL ++ txt "/ipo/" ++ slug ++ txt "/" ++ id)) ].

(** The companies that a sequence of links gives, in the order of the
    links. *)
Fixpoint link_companies (links : list node) : list company :=
  match links with
  | [] => []
  | link :: links' =>
      match extract_company_from_link link with
      | Some c => c :: link_companies links'
      | None => link_companies links'
      end
  end.

(** The entry with id [i] that comes first in the sequence. *)
Definition first_with_id (i : str) (cs : list company) : option company :=
  List.find (fun c => str_eqb (id_of c) i) cs.

(** A record of the index: the five items, all texts, the category one of
    [cats]. *)
Definition index_record (cats : list str) (c : company) : Prop :=
  exists name slug id category,
    c = [ (txt "name", VStr name);
          (txt "slug", VStr slug);
          (txt "id", VStr id);
          (txt "url",
           VStr (BASE_URL ++ txt "/ipo/" ++ slug ++ txt "/" ++ id));
          (txt "category", VStr category) ] /\
    slug <> [] /\ ~ In 47%N slug /\
    id <> [] /\ forallb isdigit id = true /\
    In category cats.

(** A link as a listing page has it. *)
Definition acme_link : node :=
  Tag (txt "a")
      [(txt "href", AStr (txt "https://www.ipoplatform.com/ipo/acme-ltd/123"))]
      [NavigableString (txt " Acme Ltd IPO ")].

Definition acme_company : company :=
  [ (txt "name", VStr (txt "Acme Ltd"));
    (txt "slug", VStr (txt "acme-ltd"));
    (txt "id", VStr (txt "123"));
    (txt "url", VStr (txt "https://www.ipoplatform.com/ipo/acme-ltd/123")) ].

End IndexTerms.

Section LookupTerms.
Import PyDict.

(** The slug of a company. *)
Definition slug_of (c : company) : str :=
  match PyDict.get (txt "slug") c with
  | Some (VStr s) => s
  | _ => []
  end.

Definition has_text_slug (c : company) : Prop :=
  exists s, PyDict.get (txt "slug") c = Some (VStr s).

(** The entry with slug [s] that comes first in the sequence. *)
Definition first_with_slug (s : str) (cs : list company) : option company :=
  List.find (fun c => str_eqb (slug_of c) s) cs.

(** The listing pages as the network gives them when only the first one
    answers, with two links to the same company. *)
Definition one_page (url : str) : option Bs4.node :=
  if str_eqb url (IPOIndexBuilder.BASE_URL ++ txt "/list-of-mainboard-ipos")
  then Some (Bs4.Tag (txt "[document]") []
               [ acme_link;
                 Bs4.Tag (txt "a") [(txt "href", Bs4.AStr (txt "/ipo/acme/123"))]
                         [Bs4.NavigableString (txt "Acme")] ])
  else None.

End LookupTerms.

Section DifflibRangeTerms.
Import Difflib.

(** The block found lies inside the range of [b]. *)
Definition in_brange (blo bhi : nat) (bst : best) : Prop :=
  let '(besti, bestj, bestsize) := bst in
  blo <= bestj /\ bestj + bestsize <= bhi.

(** A run that ends at [j] starts at [blo] or after it. *)
Definition row_bound_b (blo : nat) (j2len : list (nat * nat)) : Prop :=
  forall j, j2len_get j2len j <= j + 1 - blo.

End DifflibRangeTerms.

Section CategoryTerms.
Import PyDict IPOSearchEngine.

(** The category of a company, and the companies whose category, when they
    have one, is a text. *)
Definition category_text (c : company) : str :=
  match PyDict.get (txt "category") c with
  | Some (VStr s) => s
  | _ => []
  end.

Definition category_is_text (c : company) : Prop :=
  PyDict.get (txt "category") c = None \/
  exists s, PyDict.get (txt "category") c = Some (VStr s).

(** Strictly ascending. *)
Definition ascending (l : list str) : Prop :=
  StronglySorted (fun a b => str_ltb a b = true) l.

(** A company that has a category only. *)
Definition in_category (category : string) : company :=
  [(txt "category", VStr (txt category))].

End CategoryTerms.

Section SearchErrorTerms.

(** A record that has an id and no name. *)
Definition listed_id_only : company := [(txt "id", VStr (txt "7"))].

End SearchErrorTerms.

Section CleanTextTerms.
Import Re IPODataExtractor.

(** The number of characters at the front of [s] that satisfy [p]. *)
Fixpoint prefix_len (p : char -> bool) (s : str) : nat :=
  match s with
  | c :: s' => if p c then S (prefix_len p s') else 0
  | [] => 0
  end.

(** Every run of white space replaced by one space; [in_run] says that the
    run the front of [s] belongs to has its space already. *)
Fixpoint collapse_ws (in_run : bool) (s : str) : str :=
  match s with
  | [] => []
  | c :: s' =>
      if isspace c
      then if in_run then collapse_ws true s' else 32%N :: collapse_ws true s'
      else c :: collapse_ws false s'
  end.

(** No two white-space characters next to each other. *)
Fixpoint no_ws_pair (s : str) : bool :=
  match s with
  | c :: s' =>
      match s' with
      | d :: _ => negb (isspace c && isspace d) && no_ws_pair s'
      | [] => true
      end
  | [] => true
  end.

End CleanTextTerms.

Section PlainSpaceTerms.

(** Every white-space character of [s] is the plain space. *)
Definition plain_spaces (s : str) : bool :=
  forallb (fun c => implb (isspace c) (N.eqb c 32)) s.

End PlainSpaceTerms.

Section FigureTerms.
Import Re PyDict Bs4 IPODataExtractor.

(** The text of group 1 of a match, when there is a match. *)
Definition captured (m : option match_obj) : option str :=
  group_str 1 <$> m.

(** The number of points in a text. *)
Definition points_in (g : str) : nat :=
  length (List.filter (fun c => char_eqb c 46%N) g).

(** A captured figure that is not the text of a number: it has no digit,
    or more than one point. *)
Definition unreadable (g : option str) : bool :=
  match g with
  | Some g => negb (existsb isdigit g) || (2 <=? points_in g)
  | None => false
  end.

(** The figures that [extract_all] converts with [float], in the order of
    the conversions: the four amounts of the pricing group, the four
    amounts and the two holdings of the financial group, the subscription
    figure and the two amounts of the issue composition. *)
Definition pricing_figures (doc : document) : list (option str) :=
  [ captured (first_match size_patterns (html_str doc) IGNORECASE);
    captured (first_match price_patterns (html_str doc) IGNORECASE);
    captured (Re.search band_pattern (html_str doc) IGNORECASE);
    captured (Re.search face_value_pattern (html_str doc) IGNORECASE) ].

Definition financial_figures (doc : document) : list (option str) :=
  [ captured (Re.search mcap_pattern (html_str doc) IGNORECASE);
    captured (first_match pe_patterns (html_str doc) IGNORECASE);
    captured (Re.search revenue_pattern (html_str doc) IGNORECASE);
    captured (Re.search pat_pattern (html_str doc) IGNORECASE);
    captured (Re.search pre_holding_pattern (html_str doc) IGNORECASE);
    captured (Re.search post_holding_pattern (html_str doc) IGNORECASE) ].

Definition subscription_figures (doc : document) : list (option str) :=
  [ match Re.search sub_pattern (html_str doc) IGNORECASE with
    | Some m =>
        let sub_text := _clean_text (group 1 m) in
        if negb (is_empty sub_text) && negb (str_eqb sub_text placeholder)
        then captured (Re.search times_pattern sub_text IGNORECASE)
        else None
    | None => None
    end ].

Definition composition_figures (doc : document) : list (option str) :=
  [ captured (Re.search fresh_pattern (html_str doc) IGNORECASE);
    captured (Re.search ofs_pattern (html_str doc) IGNORECASE) ].

Definition figures (doc : document) : list (option str) :=
  pricing_figures doc ++ financial_figures doc ++ subscription_figures doc
  ++ composition_figures doc.




End FigureTerms.

Section DocumentTerms.
Import Bs4.

(** A page with one link, to a draft prospectus. *)
Definition draft_only_doc : document :=
  {| soup :=
       Tag (txt "[document]") []
         [ Tag (txt "a") [(txt "href", AStr (txt "/files/Acme_DRHP.pdf"))]
               [NavigableString (txt "DRHP")] ];
     html_str := txt "<a href=" ++ [34%N] ++ txt "/files/Acme_DRHP.pdf"
                 ++ [34%N] ++ txt ">DRHP</a>" |}.

End DocumentTerms.

Section GroupInvariantTerms.
Import Bs4 IPODataExtractor.

(** A page that names the same lead manager twice. *)
Definition manager_link : str :=
  txt "<a href=" ++ quote ++ txt "/merchant-banker/alpha" ++ quote
  ++ txt "><b>Alpha  Capital Limited</b></a>".

Definition two_managers_doc : document :=
  {| soup := Tag (txt "[document]") [] [];
     html_str := manager_link ++ txt " and " ++ manager_link |}.

(** A page whose description is written between double quotes. *)
Definition quoted_description_doc : document :=
  {| soup :=
       Tag (txt "[document]") []
         [ Tag (txt "div") [(txt "id", AStr (txt "company-info-preview"))]
               [ NavigableString (quote ++ txt "Acme makes  anvils."
                                  ++ quote) ] ];
     html_str := txt "<div id=" ++ quote ++ txt "company-info-preview"
                 ++ quote ++ txt ">" ++ quote ++ txt "Acme makes  anvils."
                 ++ quote ++ txt "</div>" |}.

(** A page whose subscription is a text without a figure. *)
Definition subscription_text_doc : document :=
  {| soup := Tag (txt "[document]") [] [];
     html_str := txt "Subscription : <b>Not yet open</b>" |}.

End GroupInvariantTerms.

Section CurrencyUnitTerms.
Import Re IPODataExtractor.

(** The unit alternatives of the currency pattern:
    [Cr\.?|Crore|Lakh|Lakhs]. *)
Definition currency_units : regex :=
  alts [ Cat (lit (txt "Cr")) (opt (One (chr ".")));
         lit (txt "Crore");
         lit (txt "Lakh");
         lit (txt "Lakhs") ].

End CurrencyUnitTerms.

(* ===================================================================== *)
(** * Properties                                                          *)
(* ===================================================================== *)

(** ** Strings *)

Section StrFacts.

Lemma char_eqb_eq (a b : char) : char_eqb a b = true <-> a = b.
Proof. unfold char_eqb. apply N.eqb_eq. Qed.

Lemma char_eqb_refl (a : char) : char_eqb a a = true.
Proof. apply char_eqb_eq. reflexivity. Qed.

Lemma str_eqb_eq (a b : str) : str_eqb a b = true <-> a = b.
Proof.
  revert b. induction a as [|x a IH]; intros [|y b]; simpl; try easy.
  rewrite andb_true_iff, char_eqb_eq, IH. split.
  - intros [-> ->]. reflexivity.
  - intros [= -> ->]. auto.
Qed.

Lemma str_eqb_refl (a : str) : str_eqb a a = true.
Proof. apply str_eqb_eq. reflexivity. Qed.

Lemma str_eqb_neq (a b : str) : str_eqb a b = false <-> a <> b.
Proof.
  split.
  - intros H E. apply str_eqb_eq in E. congruence.
  - intros H. destruct (str_eqb a b) eqn:E; [|reflexivity].
    apply str_eqb_eq in E. contradiction.
Qed.

Lemma str_eqb_sym (a b : str) : str_eqb a b = str_eqb b a.
Proof.
  destruct (str_eqb a b) eqn:E1, (str_eqb b a) eqn:E2; try reflexivity.
  - apply str_eqb_eq in E1. subst. rewrite str_eqb_refl in E2. discriminate.
  - apply str_eqb_eq in E2. subst. rewrite str_eqb_refl in E1. discriminate.
Qed.

(** What is left of a text after [lstrip] does not start with a character of
    the stripped kind. *)
Lemma lstrip_by_head (p : char -> bool) (s : str) :
  match lstrip_by p s with
  | [] => True
  | c :: _ => p c = false
  end.
Proof.
  induction s as [|c s IH]; simpl; [exact I|].
  destruct (p c) eqn:E; [exact IH|exact E].
Qed.

Lemma lstrip_by_suffix (p : char -> bool) (s : str) :
  exists pre, s = pre ++ lstrip_by p s /\ forallb p pre = true.
Proof.
  induction s as [|c s [pre [E F]]]; simpl.
  - exists []. auto.
  - destruct (p c) eqn:Ec.
    + exists (c :: pre). simpl. rewrite Ec, F. split; [congruence|reflexivity].
    + exists []. auto.
Qed.

(** Stripping on the right keeps a first character that is not stripped. *)
Lemma rstrip_by_head (p : char -> bool) (s : str) :
  match s with
  | [] => True
  | c :: _ => p c = false ->
      match rstrip_by p s with
      | [] => False
      | c' :: _ => c' = c
      end
  end.
Proof.
  destruct s as [|c s]; [exact I|]. intros Hc. unfold rstrip_by.
  destruct (lstrip_by_suffix p (rev (c :: s))) as [pre [E F]].
  assert (Hrev : c :: s = rev (lstrip_by p (rev (c :: s))) ++ rev pre).
  { rewrite <- rev_app_distr, <- E, rev_involutive. reflexivity. }
  destruct (rev (lstrip_by p (rev (c :: s)))) as [|c' t] eqn:Et.
  - simpl in Hrev. destruct (rev pre) as [|x t'] eqn:Ep; [discriminate|].
    injection Hrev as Hx _. subst x.
    assert (Hin : In c pre). { apply in_rev. rewrite Ep. left. reflexivity. }
    rewrite forallb_forall in F. rewrite (F _ Hin) in Hc. discriminate.
  - simpl in Hrev. injection Hrev as Hx _. symmetry. exact Hx.
Qed.

(** [strip] leaves no white space at either end. *)
Lemma strip_by_ends (p : char -> bool) (s : str) :
  (match strip_by p s with [] => True | c :: _ => p c = false end) /\
  (match rev (strip_by p s) with [] => True | c :: _ => p c = false end).
Proof.
  unfold strip_by. split.
  - pose proof (lstrip_by_head p s) as H1.
    pose proof (rstrip_by_head p (lstrip_by p s)) as H2.
    destruct (lstrip_by p s) as [|c t] eqn:E.
    + unfold rstrip_by. simpl. exact I.
    + specialize (H2 H1).
      destruct (rstrip_by p (c :: t)) as [|c' t']; [exact I|]. subst. exact H1.
  - unfold rstrip_by. rewrite rev_involutive. apply lstrip_by_head.
Qed.

End StrFacts.

(** ** The matcher against what a pattern accepts *)

Section ReFacts.
Import Re.
Variable fl : flags.

(** A successful repetition took some characters of the class, within the
    bounds, and the continuation succeeded after them. *)
Lemma rep_sound {R} (g : bool) (a : atom) (rest : str) :
  forall lo hi pos (k : nat -> str -> option R) x,
    rep fl g a lo hi pos rest k = Some x ->
    exists w rest',
      rest = w ++ rest' /\ forallb (atom_matches fl a) w = true /\
      lo <= length w /\ within hi (length w) /\
      k (pos + length w) rest' = Some x.
Proof.
  induction rest as [|c rest IH]; intros lo hi pos k x H; simpl in H.
  - destruct lo; [|discriminate].
    exists [], []. simpl. rewrite Nat.add_0_r.
    repeat split; auto. destruct hi; simpl; lia.
  - assert (Stop : forall y,
      (match lo with O => true | S _ => false end = true) ->
      k pos (c :: rest) = Some y ->
      exists w rest',
        c :: rest = w ++ rest' /\ forallb (atom_matches fl a) w = true /\
        lo <= length w /\ within hi (length w) /\
        k (pos + length w) rest' = Some y).
    { intros y Hlo Hk. destruct lo; [|discriminate].
      exists [], (c :: rest). simpl. rewrite Nat.add_0_r.
      repeat split; auto. destruct hi; simpl; lia. }
    assert (More : forall y,
      match hi with Some O => false | _ => true end = true ->
      atom_matches fl a c = true ->
      rep fl g a (pred lo) (pred <$> hi) (S pos) rest k = Some y ->
      exists w rest',
        c :: rest = w ++ rest' /\ forallb (atom_matches fl a) w = true /\
        lo <= length w /\ within hi (length w) /\
        k (pos + length w) rest' = Some y).
    { intros y Hhi Hc Hr.
      destruct (IH _ _ _ _ _ Hr) as (w & rest' & E & F & L & U & K).
      exists (c :: w), rest'. simpl. rewrite Hc, F.
      replace (pos + S (length w)) with (S pos + length w) by lia.
      repeat split; auto.
      - congruence.
      - lia.
      - destruct hi as [[|h]|]; simpl in *; try discriminate; lia. }
    destruct (match hi with Some O => false | _ => true end) eqn:Hhi;
      destruct (atom_matches fl a c) eqn:Hc; simpl in H.
    + destruct g.
      * destruct (rep fl true a (pred lo) (pred <$> hi) (S pos) rest k) eqn:Hr.
        -- injection H as <-. eapply More; eauto.
        -- destruct (match lo with O => true | S _ => false end) eqn:Hlo;
             [|discriminate]. eapply Stop; eauto.
      * destruct (match lo with O => true | S _ => false end) eqn:Hlo.
        -- destruct (k pos (c :: rest)) eqn:Hk.
           ++ injection H as <-. eapply Stop; eauto.
           ++ eapply More; eauto.
        -- eapply More; eauto.
    + destruct (match lo with O => true | S _ => false end) eqn:Hlo;
        [|discriminate]. eapply Stop; eauto.
    + destruct (match lo with O => true | S _ => false end) eqn:Hlo;
        [|discriminate]. eapply Stop; eauto.
    + destruct (match lo with O => true | S _ => false end) eqn:Hlo;
        [|discriminate]. eapply Stop; eauto.
Qed.

(** If the continuation succeeds after some admissible run of characters,
    the repetition succeeds. *)
Lemma rep_complete {R} (g : bool) (a : atom) (w : str) :
  forall rest' lo hi pos (k : nat -> str -> option R),
    forallb (atom_matches fl a) w = true ->
    lo <= length w -> within hi (length w) ->
    is_Some (k (pos + length w) rest') ->
    is_Some (rep fl g a lo hi pos (w ++ rest') k).
Proof.
  induction w as [|c w IH]; intros rest' lo hi pos k F L U K.
  - simpl in *. rewrite Nat.add_0_r in K.
    assert (lo = 0) by lia. subst lo.
    destruct rest' as [|c rest']; simpl; [exact K|].
    destruct (match hi with Some O => false | _ => true end
              && atom_matches fl a c) eqn:E; [|exact K].
    destruct g.
    + destruct (rep fl true a _ _ _ _ _); [eauto|exact K].
    + destruct (k pos (c :: rest')) eqn:E'; [eauto|].
      destruct K as [? K]. discriminate.
  - simpl in F. apply andb_true_iff in F as [Fc F].
    simpl. rewrite Fc.
    assert (Hhi : match hi with Some O => false | _ => true end = true).
    { destruct hi as [[|h]|]; simpl in *; auto; lia. }
    rewrite Hhi. simpl.
    assert (M : is_Some (rep fl g a (pred lo) (pred <$> hi) (S pos)
                             (w ++ rest') k)).
    { apply IH; auto.
      - simpl in L. lia.
      - destruct hi as [h|]; simpl in *; [lia|exact I].
      - simpl in K. replace (S pos + length w) with (pos + S (length w))
          by lia. exact K. }
    destruct g.
    + destruct M as [y M]. rewrite M. eauto.
    + destruct (match lo with O => true | S _ => false end);
        [destruct (k pos (c :: w ++ rest')); [eauto|exact M] | exact M].
Qed.

(** Soundness of the matcher: when [go] succeeds, the pattern accepts a
    prefix of what was left and the continuation succeeded after it. *)
Lemma go_sound {R} (r : regex) :
  forall pos rest caps (k : nat -> str -> captures -> option R) x,
    go fl r pos rest caps k = Some x ->
    exists w rest' caps',
      rest = w ++ rest' /\ accepts fl r pos w rest' /\
      k (pos + length w) rest' caps' = Some x.
Proof.
  induction r as [|a|r1 IH1 r2 IH2|r1 IH1 r2 IH2|g lo hi a|g r IH|n r IH| |];
    intros pos rest caps k x H; simpl in H.
  - exists [], rest, caps. simpl. rewrite Nat.add_0_r.
    repeat split; auto. constructor.
  - destruct rest as [|c rest]; [discriminate|].
    destruct (atom_matches fl a c) eqn:E; [|discriminate].
    exists [c], rest, caps. simpl.
    replace (pos + 1) with (S pos) by lia.
    repeat split; auto. constructor. exact E.
  - apply IH1 in H as (w1 & rest1 & caps1 & E1 & A1 & H).
    apply IH2 in H as (w2 & rest2 & caps2 & E2 & A2 & H).
    exists (w1 ++ w2), rest2, caps2. subst.
    rewrite <- app_assoc, length_app, Nat.add_assoc.
    repeat split; auto. constructor; auto.
  - destruct (go fl r1 pos rest caps k) eqn:E.
    + injection H as <-.
      apply IH1 in E as (w & rest' & caps' & ? & ? & ?).
      exists w, rest', caps'. repeat split; auto. apply acc_alt_l; auto.
    + apply IH2 in H as (w & rest' & caps' & ? & ? & ?).
      exists w, rest', caps'. repeat split; auto. apply acc_alt_r; auto.
  - apply rep_sound in H as (w & rest' & E & F & L & U & K).
    exists w, rest', caps. repeat split; auto. constructor; auto.
  - assert (None_case : forall y, k pos rest caps = Some y ->
      exists w rest' caps',
        rest = w ++ rest' /\ accepts fl (Opt g r) pos w rest' /\
        k (pos + length w) rest' caps' = Some y).
    { intros y Hk. exists [], rest, caps. simpl. rewrite Nat.add_0_r.
      repeat split; auto. apply acc_opt_none. }
    assert (Some_case : forall y, go fl r pos rest caps k = Some y ->
      exists w rest' caps',
        rest = w ++ rest' /\ accepts fl (Opt g r) pos w rest' /\
        k (pos + length w) rest' caps' = Some y).
    { intros y Hg. apply IH in Hg as (w & rest' & caps' & ? & ? & ?).
      exists w, rest', caps'. repeat split; auto. apply acc_opt_some; auto. }
    destruct g.
    + destruct (go fl r pos rest caps k) eqn:E.
      * injection H as <-. auto.
      * auto.
    + destruct (k pos rest caps) eqn:E.
      * injection H as <-. auto.
      * auto.
  - apply IH in H as (w & rest' & caps' & ? & ? & ?).
    exists w, rest', ((n, (pos, pos + length w)) :: caps').
    repeat split; auto. constructor; auto.
  - destruct (Nat.eqb pos 0) eqn:E; [|discriminate].
    apply Nat.eqb_eq in E. subst.
    exists [], rest, caps. repeat split; auto. constructor.
  - assert (E : rest = [] \/ rest = [10%N]).
    { destruct rest as [|c [|? ?]]; auto; try discriminate.
      destruct (char_eqb c 10%N) eqn:Ec; [|discriminate].
      apply char_eqb_eq in Ec. subst. auto. }
    assert (Hk : k pos rest caps = Some x).
    { destruct E as [-> | ->]; auto. }
    exists [], rest, caps. simpl. rewrite Nat.add_0_r.
    repeat split; auto. constructor. exact E.
Qed.

(** Completeness of the matcher: when the pattern accepts a prefix after
    which the continuation succeeds whatever the groups, [go] succeeds
    (maybe with another prefix, which it prefers). *)
Lemma go_complete {R} (r : regex) :
  forall pos w rest' caps (k : nat -> str -> captures -> option R),
    accepts fl r pos w rest' ->
    (forall caps', is_Some (k (pos + length w) rest' caps')) ->
    is_Some (go fl r pos (w ++ rest') caps k).
Proof.
  intros pos w rest' caps k A. revert caps k.
  induction A as [pos rest|a c pos rest Hc|r1 r2 pos w1 w2 rest A1 IH1 A2 IH2
                  |r1 r2 pos w rest A IH|r1 r2 pos w rest A IH
                  |g lo hi a pos w rest F L U|g r pos w rest A IH|g r pos rest
                  |n r pos w rest A IH|rest|pos rest E];
    intros caps k K; simpl.
  - specialize (K caps). simpl in K. rewrite Nat.add_0_r in K. exact K.
  - rewrite Hc. specialize (K caps). simpl in K.
    replace (pos + 1) with (S pos) in K by lia. exact K.
  - rewrite <- app_assoc. apply IH1. intros caps1. apply IH2.
    intros caps2. specialize (K caps2).
    rewrite length_app, Nat.add_assoc in K. exact K.
  - destruct (IH caps k K) as [y Hy]. rewrite Hy. eauto.
  - destruct (go fl r1 pos (w ++ rest) caps k); [eauto|]. apply IH, K.
  - apply rep_complete; auto.
  - destruct g.
    + destruct (IH caps k K) as [y Hy]. rewrite Hy. eauto.
    + destruct (k pos (w ++ rest) caps); [eauto|]. apply IH, K.
  - specialize (K caps). simpl in K. rewrite Nat.add_0_r in K.
    destruct g.
    + destruct (go fl r pos rest caps k); [eauto|exact K].
    + destruct K as [y Hy]. rewrite Hy. eauto.
  - apply IH. intros caps'. apply K.
  - apply (K caps).
  - specialize (K caps). simpl in K. rewrite Nat.add_0_r in K.
    destruct E as [-> | ->]; simpl; exact K.
Qed.

End ReFacts.

Section SearchFacts.
Import Re.
Variable fl : flags.

Lemma match_at_sound (r : regex) (s : str) (pos : nat) (rest : str) m :
  match_at fl r s pos rest = Some m ->
  exists w rest',
    rest = w ++ rest' /\ accepts fl r pos w rest' /\
    m_string m = s /\ m_start m = pos /\ m_end m = pos + length w.
Proof.
  unfold match_at. intros H.
  apply go_sound in H as (w & rest' & caps' & E & A & H).
  injection H as <-. exists w, rest'. simpl. auto.
Qed.

Lemma match_at_complete (r : regex) (s : str) (pos : nat) (w rest' : str) :
  accepts fl r pos w rest' -> is_Some (match_at fl r s pos (w ++ rest')).
Proof.
  intros A. unfold match_at. eapply go_complete; eauto.
Qed.

Lemma search_from_sound (r : regex) (s : str) (rest : str) :
  forall pos m,
    search_from fl r s pos rest = Some m ->
    exists skipped w rest',
      rest = skipped ++ w ++ rest' /\
      accepts fl r (pos + length skipped) w rest' /\
      m_string m = s /\ m_start m = pos + length skipped /\
      m_end m = pos + length skipped + length w.
Proof.
  induction rest as [|c rest IH]; intros pos m H; simpl in H.
  - destruct (match_at fl r s pos []) eqn:E; [|discriminate].
    injection H as <-.
    apply match_at_sound in E as (w & rest' & E & A & ? & ? & ?).
    exists [], w, rest'. simpl. rewrite Nat.add_0_r. auto.
  - destruct (match_at fl r s pos (c :: rest)) eqn:E.
    + injection H as <-.
      apply match_at_sound in E as (w & rest' & E & A & ? & ? & ?).
      exists [], w, rest'. simpl. rewrite Nat.add_0_r. auto.
    + destruct (IH _ _ H) as (sk & w & rest' & E1 & A & ? & ? & ?).
      exists (c :: sk), w, rest'. simpl.
      replace (pos + S (length sk)) with (S pos + length sk) by lia.
      subst rest. auto.
Qed.

Lemma search_from_complete (r : regex) (s : str) (skipped : str) :
  forall pos w rest',
    accepts fl r (pos + length skipped) w rest' ->
    is_Some (search_from fl r s pos (skipped ++ w ++ rest')).
Proof.
  induction skipped as [|c sk IH]; intros pos w rest' A.
  - simpl in A. rewrite Nat.add_0_r in A. simpl.
    destruct (match_at_complete r s _ _ _ A) as [m Hm].
    destruct (w ++ rest') eqn:E; simpl; rewrite Hm; eauto.
  - simpl.
    destruct (match_at fl r s pos (c :: sk ++ w ++ rest')); [eauto|].
    apply IH. simpl in A.
    replace (S pos + length sk) with (pos + S (length sk)) by lia.
    exact A.
Qed.

(** [re.search] succeeds exactly when the pattern accepts a piece of the
    subject. *)
Lemma search_sound (r : regex) (s : str) m :
  Re.search r s fl = Some m ->
  exists pre w post,
    s = pre ++ w ++ post /\ accepts fl r (length pre) w post /\
    m_string m = s /\ m_start m = length pre /\
    m_end m = length pre + length w.
Proof.
  unfold Re.search. intros H.
  apply search_from_sound in H.
  destruct H as (sk & w & rest' & ? & ? & ? & ? & ?).
  exists sk, w, rest'. auto.
Qed.

Lemma search_complete (r : regex) (pre w post : str) :
  accepts fl r (length pre) w post ->
  is_Some (Re.search r (pre ++ w ++ post) fl).
Proof.
  intros A. unfold Re.search.
  apply (search_from_complete r _ pre 0 w post). exact A.
Qed.

(** *** Reading off what the written patterns accept *)

Lemma accepts_cat_inv r1 r2 pos w rest :
  accepts fl (Cat r1 r2) pos w rest ->
  exists w1 w2, w = w1 ++ w2 /\ accepts fl r1 pos w1 (w2 ++ rest) /\
                accepts fl r2 (pos + length w1) w2 rest.
Proof. intros H. inversion H; subst. eauto. Qed.

Lemma accepts_eps_inv pos w rest : accepts fl Eps pos w rest -> w = [].
Proof. intros H. inversion H; subst. reflexivity. Qed.

Lemma accepts_grp_inv n r pos w rest :
  accepts fl (Grp n r) pos w rest -> accepts fl r pos w rest.
Proof. intros H. inversion H; subst. assumption. Qed.

Lemma accepts_rep_inv g lo hi a pos w rest :
  accepts fl (Rep g lo hi a) pos w rest ->
  forallb (atom_matches fl a) w = true /\ lo <= length w /\
  match hi with Some h => length w <= h | None => True end.
Proof. intros H. inversion H; subst. auto. Qed.

Lemma accepts_alt_inv r1 r2 pos w rest :
  accepts fl (Alt r1 r2) pos w rest ->
  accepts fl r1 pos w rest \/ accepts fl r2 pos w rest.
Proof. intros H. inversion H; subst; auto. Qed.

Lemma accepts_fold_alt (rs : list regex) :
  forall r0 pos w rest,
    accepts fl (fold_left Alt rs r0) pos w rest ->
    accepts fl r0 pos w rest \/ exists r, In r rs /\ accepts fl r pos w rest.
Proof.
  induction rs as [|r rs IH]; intros r0 pos w rest H; simpl in *; [auto|].
  apply IH in H as [H | (r' & Hin & H)].
  - apply accepts_alt_inv in H as [H | H]; [auto|]. right. exists r. auto.
  - right. exists r'. auto.
Qed.

Lemma accepts_alts (rs : list regex) pos w rest :
  rs <> [] ->
  accepts fl (alts rs) pos w rest ->
  exists r, In r rs /\ accepts fl r pos w rest.
Proof.
  destruct rs as [|r0 rs]; [congruence|]. intros _ H. simpl in H.
  apply accepts_fold_alt in H as [H | (r & Hin & H)].
  - exists r0. simpl. auto.
  - exists r. simpl. auto.
Qed.

Lemma accepts_alts_intro (rs : list regex) r pos w rest :
  In r rs -> accepts fl r pos w rest -> accepts fl (alts rs) pos w rest.
Proof.
  destruct rs as [|r0 rs]; [intros []|]. simpl.
  assert (G : forall rs r0,
    (accepts fl r0 pos w rest \/ (In r rs /\ accepts fl r pos w rest)) ->
    accepts fl (fold_left Alt rs r0) pos w rest).
  { clear. induction rs as [|r1 rs IH]; intros r0 [H0 | [Hin H1]]; simpl; auto.
    - destruct Hin.
    - apply IH. left. apply acc_alt_l. exact H0.
    - destruct Hin as [-> | Hin].
      + apply IH. left. apply acc_alt_r. exact H1.
      + apply IH. right. auto. }
  intros [-> | Hin] H; apply G; auto.
Qed.

(** A literal text accepts, character by character, what [lit_matches]
    allows. *)
Lemma accepts_lit_inv (s : str) :
  forall pos w rest,
    accepts fl (lit s) pos w rest -> Forall2 (fun p c => lit_matches fl p c = true) s w.
Proof.
  induction s as [|p s IH]; intros pos w rest H; simpl in H.
  - apply accepts_eps_inv in H. subst. constructor.
  - apply accepts_cat_inv in H as (w1 & w2 & -> & H1 & H2).
    inversion H1; subst. simpl. constructor; [assumption|].
    eapply IH; eauto.
Qed.

Lemma accepts_lit_intro (s : str) :
  forall pos w rest,
    Forall2 (fun p c => lit_matches fl p c = true) s w ->
    accepts fl (lit s) pos w rest.
Proof.
  induction s as [|p s IH]; intros pos w rest H; inversion H; subst; simpl.
  - constructor.
  - change (y :: l') with ([y] ++ l'). constructor.
    + constructor. simpl. assumption.
    + apply IH. assumption.
Qed.

End SearchFacts.

Lemma lit_matches_noflags (p c : char) :
  Re.lit_matches Re.NOFLAGS p c = true <-> c = p.
Proof. unfold Re.lit_matches. simpl. apply char_eqb_eq. Qed.

Lemma accepts_lit_exact (s : str) pos w rest :
  Re.accepts Re.NOFLAGS (Re.lit s) pos w rest <-> w = s.
Proof.
  split.
  - intros H. apply accepts_lit_inv in H.
    induction H as [|p c s w Hpc _ IH]; [reflexivity|].
    apply lit_matches_noflags in Hpc. congruence.
  - intros ->. apply accepts_lit_intro.
    induction s; constructor; auto. apply lit_matches_noflags. reflexivity.
Qed.

(** ** The text normalizer *)

Section CleanText.
Import Re IPODataExtractor.

Lemma clean_text_absent :
  _clean_text None = [] /\ _clean_text (Some []) = [].
Proof. split; reflexivity. Qed.

(** The result never starts or ends with white space. *)
Lemma clean_text_trimmed (text : option str) :
  (match _clean_text text with [] => True | c :: _ => isspace c = false end) /\
  (match rev (_clean_text text) with [] => True | c :: _ => isspace c = false end).
Proof.
  destruct text as [text|]; simpl; [|auto].
  destruct (is_empty text); simpl; [auto|].
  apply strip_by_ends.
Qed.

(** C4 (the code departs from the claim): the white space is collapsed
    before the placeholder is taken out, so a placeholder between two spaces
    leaves two spaces in a row in the result; and taking the placeholder out
    once can bring the two halves of another one together, which stays in the
    result. *)
Theorem clean_text_keeps_double_space :
  _clean_text (Some (txt "a " ++ placeholder ++ txt " b")) = txt "a  b" /\
  _clean_text (Some (txt "[" ++ bullet ++ placeholder ++ txt "]"))
    = placeholder.
Proof. split; vm_compute; reflexivity. Qed.

End CleanText.

(** ** The currency parser *)

Section Currency.
Import Re PyDict IPODataExtractor.

Lemma num_class_matches (c : char) :
  atom_matches NOFLAGS (Class false [CDigit; CLit 44%N]) c = is_num_char c.
Proof.
  unfold is_num_char. simpl. unfold lit_matches. simpl.
  rewrite orb_false_r. reflexivity.
Qed.

Lemma existsb_split {A} (p : A -> bool) (l : list A) :
  existsb p l = true -> exists pre c post, l = pre ++ c :: post /\ p c = true.
Proof.
  induction l as [|x l IH]; simpl; [discriminate|].
  destruct (p x) eqn:E; simpl.
  - intros _. exists [], x, l. auto.
  - intros H. destruct (IH H) as (pre & c & post & -> & Hc).
    exists (x :: pre), c, post. auto.
Qed.

(** The currency pattern matches exactly the texts that hold a digit or a
    comma. *)
Lemma currency_pattern_matches (text : str) :
  is_Some (Re.search currency_pattern text NOFLAGS)
  <-> existsb is_num_char text = true.
Proof.
  split.
  - intros [m H]. apply search_sound in H as (pre & w & post & E & A & _).
    unfold currency_pattern in A. simpl in A.
    apply accepts_cat_inv in A as (w1 & w2 & -> & _ & A).
    apply accepts_cat_inv in A as (w3 & w4 & -> & _ & A).
    apply accepts_cat_inv in A as (w5 & w6 & -> & A & _).
    apply accepts_grp_inv in A. unfold number_re in A. simpl in A.
    apply accepts_cat_inv in A as (u1 & u2 & -> & A & _).
    apply accepts_rep_inv in A as (F & L & _).
    destruct u1 as [|c u1]; [simpl in L; lia|].
    cbn [forallb] in F. apply andb_true_iff in F as [Fc _].
    rewrite num_class_matches in Fc.
    subst text. apply existsb_exists. exists c. split; [|exact Fc].
    apply in_or_app. right. apply in_or_app. left.
    apply in_or_app. right. apply in_or_app. right.
    apply in_or_app. left. apply in_or_app. left. left. reflexivity.
  - intros H. apply existsb_split in H as (pre & c & post & -> & Hc).
    change (c :: post) with ([c] ++ post).
    apply search_complete.
    unfold currency_pattern, number_re. simpl.
    apply (acc_cat _ _ _ _ [] [c]); [constructor; simpl; auto; lia|].
    apply (acc_cat _ _ _ _ [] [c]); [constructor; simpl; auto; lia|].
    apply (acc_cat _ _ _ _ [c] []).
    + apply acc_grp.
      apply (acc_cat _ _ _ _ [c] []).
      * constructor; simpl; auto.
        rewrite <- num_class_matches in Hc. simpl in Hc.
        rewrite Hc. reflexivity.
      * apply (acc_cat _ _ _ _ [] []); [apply acc_opt_none|].
        apply (acc_cat _ _ _ _ [] []); [constructor; simpl; auto; lia|].
        constructor.
    + apply (acc_cat _ _ _ _ [] []); [constructor; simpl; auto; lia|].
      apply (acc_cat _ _ _ _ [] []); [apply acc_opt_none|].
      constructor.
Qed.

(** C5, counterexample: for the one-comma text the pattern matches, the
    literal without its separators is empty, and the result carries a
    [None] value together with a unit and the currency symbol. *)
Lemma currency_claim_fails_on_comma : ~ currency_claim (txt ",").
Proof.
  intros (d & H & C). vm_compute in H. injection H as <-.
  destruct C as [[q C] | (_ & C & _)]; vm_compute in C; discriminate.
Qed.

(** C5 (amended): absent or empty input gives an absent result.  For a
    non-empty input without digit or comma the pattern does not match and
    the result carries [raw] alone.  For a non-empty input with a digit or a
    comma the pattern matches; when the literal, separators removed, is
    empty (it was made of commas), value is [None] while unit, currency and
    raw are present; when it converts, value is its [float], unit is the
    matched unit without dots (empty without a unit), currency is the
    symbol and raw is the cleaned input. *)
Theorem currency_value_cases (text : option str) :
  match text with
  | None | Some [] => _extract_currency_value text = Ok None
  | Some t =>
      (existsb is_num_char t = false ->
       _extract_currency_value text
       = Ok (Some [(txt "raw", VStr (_clean_text text))])) /\
      (existsb is_num_char t = true ->
       exists m, Re.search currency_pattern t NOFLAGS = Some m /\
         let literal := replace_char 44%N [] (group_str 1 m) in
         let unit := replace_char 46%N [] (default [] (group 2 m)) in
         (literal = [] ->
          _extract_currency_value text
          = Ok (Some [ (txt "value", VNone); (txt "unit", VStr unit);
                       (txt "currency", VStr rupee);
                       (txt "raw", VStr (_clean_text text)) ])) /\
         (forall q, PyNum.float literal = Ok q ->
          _extract_currency_value text
          = Ok (Some [ (txt "value", VFloat q); (txt "unit", VStr unit);
                       (txt "currency", VStr rupee);
                       (txt "raw", VStr (_clean_text text)) ])))
  end.
Proof.
  destruct text as [[|c t]|]; try reflexivity.
  set (text := c :: t). split.
  - intros H. unfold _extract_currency_value.
    change (is_empty text) with false. cbv iota.
    destruct (Re.search currency_pattern text NOFLAGS) eqn:E; [|reflexivity].
    assert (S : is_Some (Re.search currency_pattern text NOFLAGS)) by eauto.
    apply currency_pattern_matches in S. congruence.
  - intros H. apply currency_pattern_matches in H as [m Hm].
    exists m. split; [exact Hm|].
    assert (U : match group 2 m with
                | Some u => if is_empty u then [] else u
                | None => []
                end = default [] (group 2 m)).
    { destruct (group 2 m) as [[|? ?]|]; reflexivity. }
    unfold _extract_currency_value.
    change (is_empty text) with false. cbv iota. rewrite Hm, U.
    split.
    + intros ->. reflexivity.
    + intros q Hq.
      destruct (replace_char 44%N [] (group_str 1 m)) as [|x l] eqn:El.
      * vm_compute in Hq. discriminate.
      * change (is_empty (x :: l)) with false. cbv iota.
        rewrite Hq. reflexivity.
Qed.

(** The amended statement at the text "Rs. 1,895.50 Crore": the value is
    1895.50 and the unit is Cr. *)
Lemma currency_value_cases_witness :
  _extract_currency_value (Some (txt "Rs. 1,895.50 Crore"))
  = Ok (Some [ (txt "value", VFloat 1895.50); (txt "unit", VStr (txt "Cr"));
               (txt "currency", VStr rupee);
               (txt "raw", VStr (txt "Rs. 1,895.50 Crore")) ]).
Proof.
  pose proof (currency_value_cases (Some (txt "Rs. 1,895.50 Crore"))) as H.
  cbv beta iota in H. destruct H as [_ H].
  destruct (H eq_refl) as (m & Hm & _ & Hq).
  vm_compute in Hm. injection Hm as <-.
  exact (Hq 1895.50%Q eq_refl).
Defined.

End Currency.

(** ** Dictionaries *)

Section DictFacts.
Import PyDict.
Context {V : Type}.

Lemma get_set (k k' : str) (v : V) (d : dict V) :
  get k (set k' v d) = if str_eqb k k' then Some v else get k d.
Proof.
  induction d as [|[k0 v0] d IH]; simpl.
  - reflexivity.
  - destruct (str_eqb k' k0) eqn:E; simpl.
    + apply str_eqb_eq in E. subst k0.
      destruct (str_eqb k k'); reflexivity.
    + destruct (str_eqb k k0) eqn:E0.
      * apply str_eqb_eq in E0. subst k0.
        rewrite str_eqb_sym, E. reflexivity.
      * exact IH.
Qed.

Lemma get_set_eq (k : str) (v : V) (d : dict V) : get k (set k v d) = Some v.
Proof. rewrite get_set, str_eqb_refl. reflexivity. Qed.

Lemma get_set_ne (k k' : str) (v : V) (d : dict V) :
  k <> k' -> get k (set k' v d) = get k d.
Proof.
  intros H. rewrite get_set.
  apply str_eqb_neq in H. rewrite H. reflexivity.
Qed.

Lemma get_In (k : str) (v : V) (d : dict V) :
  get k d = Some v -> In (k, v) d.
Proof.
  induction d as [|[k0 v0] d IH]; simpl; [discriminate|].
  destruct (str_eqb k k0) eqn:E.
  - apply str_eqb_eq in E. intros [= ->]. subst. auto.
  - auto.
Qed.

Lemma get_None_keys (k : str) (d : dict V) :
  get k d = None <-> ~ In k (keys d).
Proof.
  induction d as [|[k0 v0] d IH]; simpl; [tauto|].
  destruct (str_eqb k k0) eqn:E.
  - apply str_eqb_eq in E. subst. split; [discriminate|]. tauto.
  - apply str_eqb_neq in E. rewrite IH. split.
    + intros H [H1|H1]; [congruence|tauto].
    + tauto.
Qed.

Lemma In_get (k : str) (v : V) (d : dict V) :
  List.NoDup (keys d) -> In (k, v) d -> get k d = Some v.
Proof.
  induction d as [|[k0 v0] d IH]; simpl; [tauto|].
  intros N [H|H].
  - injection H as -> ->. rewrite str_eqb_refl. reflexivity.
  - inversion N as [|? ? Hn N']; subst.
    destruct (str_eqb k k0) eqn:E.
    + apply str_eqb_eq in E. subst k0. exfalso. apply Hn.
      apply (in_map fst) in H. exact H.
    + auto.
Qed.

(** Setting a key keeps the keys in place: a new key goes to the end. *)
Lemma keys_set (k : str) (v : V) (d : dict V) :
  keys (set k v d) = if mem k d then keys d else keys d ++ [k].
Proof.
  unfold mem. induction d as [|[k0 v0] d IH]; simpl; [reflexivity|].
  destruct (str_eqb k k0) eqn:E; simpl; [reflexivity|].
  rewrite IH. destruct (get k d); reflexivity.
Qed.

Lemma keys_set_NoDup (k : str) (v : V) (d : dict V) :
  List.NoDup (keys d) -> List.NoDup (keys (set k v d)).
Proof.
  intros N. rewrite keys_set. unfold mem.
  destruct (get k d) eqn:E; [exact N|].
  apply get_None_keys in E.
  apply List.NoDup_app; auto.
  - constructor; [intros []|constructor].
  - intros x Hx [<-|[]]. contradiction.
Qed.

End DictFacts.

(** ** The dates group *)

Section Dates.
Import Re PyDict Bs4 IPODataExtractor.

Lemma In_map_lit (l : list str) r pos w rest :
  In r (map lit l) -> accepts NOFLAGS r pos w rest -> In w l.
Proof.
  intros Hin A. apply in_map_iff in Hin as (s & <- & Hs).
  apply accepts_lit_exact in A. subst. exact Hs.
Qed.

(** The check [re.search(date_regex, date_text)] succeeds exactly on the
    texts of the calendar-date shape. *)
Lemma date_regex_shape (t : str) :
  is_Some (Re.search date_regex t NOFLAGS) <-> has_calendar_date t.
Proof.
  split.
  - intros [m H]. apply search_sound in H as (pre & w & post & E & A & _).
    unfold date_regex in A. cbn [seq fold_right] in A.
    apply accepts_cat_inv in A as (day & w1 & -> & Aday & A).
    apply accepts_cat_inv in A as (ord & w2 & -> & Aord & A).
    apply accepts_cat_inv in A as (ws1 & w3 & -> & Aws1 & A).
    apply accepts_cat_inv in A as (month & w4 & -> & Amonth & A).
    apply accepts_cat_inv in A as (ws2 & w5 & -> & Aws2 & A).
    apply accepts_cat_inv in A as (year & w6 & -> & Ayear & A).
    apply accepts_eps_inv in A. subst w6.
    apply accepts_rep_inv in Aday as (Fd & Ld & Ud).
    apply accepts_rep_inv in Aws1 as (F1 & L1 & _).
    apply accepts_rep_inv in Aws2 as (F2 & L2 & _).
    apply accepts_rep_inv in Ayear as (Fy & Ly & Uy).
    apply accepts_alts in Aord as (ro & Ho & Aord); [|discriminate].
    apply accepts_alts in Amonth as (rm & Hm & Amonth); [|discriminate].
    exists pre, day, ord, ws1, month, ws2, year, post.
    rewrite app_nil_r in E.
    repeat split; auto; try lia.
    + change [lit (txt "st"); lit (txt "nd"); lit (txt "rd"); lit (txt "th")]
        with (map lit [txt "st"; txt "nd"; txt "rd"; txt "th"]) in Ho.
      eapply In_map_lit; eauto.
    + rewrite <- (map_map txt lit) in Hm. eapply In_map_lit; eauto.
  - intros (pre & day & ord & ws1 & month & ws2 & year & post
            & -> & Fd & Ld & Ho & F1 & L1 & Hm & F2 & L2 & Fy & Ly).
    apply search_complete.
    unfold date_regex. cbn [seq fold_right].
    apply acc_cat; [constructor; auto; lia|].
    apply acc_cat.
    { apply accepts_alts_intro with (r := lit ord).
      - change [lit (txt "st"); lit (txt "nd"); lit (txt "rd"); lit (txt "th")]
          with (map lit [txt "st"; txt "nd"; txt "rd"; txt "th"]).
        apply in_map. exact Ho.
      - apply accepts_lit_exact. reflexivity. }
    apply acc_cat; [constructor; auto|].
    apply acc_cat.
    { apply accepts_alts_intro with (r := lit month).
      - rewrite <- (map_map txt lit). apply in_map. exact Hm.
      - apply accepts_lit_exact. reflexivity. }
    apply acc_cat; [constructor; auto|].
    rewrite <- (app_nil_r year) at 1.
    apply acc_cat; [constructor; auto; lia|constructor].
Qed.

Lemma date_step_value html_str dates fp :
  date_step html_str dates fp
  = match date_value html_str (snd fp) with
    | Some v => set (fst fp) v dates
    | None => dates
    end.
Proof.
  unfold date_step, date_value.
  destruct (Re.search (snd fp) html_str IGNORECASE_DOTALL); [|reflexivity].
  destruct (Re.search date_regex _ NOFLAGS); reflexivity.
Qed.

(** The loop over the fields, read key by key. *)
Lemma date_loop_get (html_str : str) (fields : list (str * regex)) :
  forall (d0 : dict pyval) (k : str),
    List.NoDup (map fst fields) ->
    PyDict.get k (fold_left (date_step html_str) fields d0)
    = match field_of k fields with
      | Some fp =>
          match date_value html_str (snd fp) with
          | Some v => Some v
          | None => PyDict.get k d0
          end
      | None => PyDict.get k d0
      end.
Proof.
  induction fields as [|[f pat] fields IH]; intros d0 k N; simpl.
  - reflexivity.
  - inversion N as [|? ? Hf N']; subst.
    rewrite IH by assumption. rewrite date_step_value. simpl.
    unfold field_of. simpl.
    destruct (str_eqb k f) eqn:E.
    + apply str_eqb_eq in E. subst f.
      assert (Hnone : List.find (fun fp => str_eqb k (fst fp)) fields = None).
      { destruct (List.find _ fields) as [fp|] eqn:Ef; [|reflexivity].
        apply find_some in Ef as [Hin Hk]. apply str_eqb_eq in Hk.
        exfalso. apply Hf. subst k. apply in_map. exact Hin. }
      rewrite Hnone. cbn [fst snd].
      destruct (date_value html_str pat); [apply get_set_eq|reflexivity].
    + assert (Hsame : PyDict.get k match date_value html_str pat with
                            | Some v => set f v d0
                            | None => d0
                            end = PyDict.get k d0).
      { destruct (date_value html_str pat); [|reflexivity].
        apply get_set_ne. apply str_eqb_neq. exact E. }
      rewrite Hsame. reflexivity.
Qed.

Lemma date_fields_NoDup : List.NoDup (map fst date_fields).
Proof.
  vm_compute.
  repeat (constructor;
          [intros H; repeat (destruct H as [H|H]; [discriminate H|]);
           exact H|]).
  constructor.
Qed.

(** C6: a value is in the dates group only for one of the six slots, only
    as the cleaned text found by the slot's labelled pattern, and only when
    that text has the calendar-date shape; a labelled value without that
    shape leaves its slot absent. *)
Theorem dates_only_calendar_shaped (doc : document) :
  (forall field v,
     PyDict.get field (_extract_dates doc) = Some v ->
     exists pattern m,
       In (field, pattern) date_fields /\
       Re.search pattern (html_str doc) IGNORECASE_DOTALL = Some m /\
       v = VStr (_clean_text (group 1 m)) /\
       has_calendar_date (_clean_text (group 1 m))) /\
  (forall field pattern m,
     In (field, pattern) date_fields ->
     Re.search pattern (html_str doc) IGNORECASE_DOTALL = Some m ->
     ~ has_calendar_date (_clean_text (group 1 m)) ->
     PyDict.get field (_extract_dates doc) = None).
Proof.
  unfold _extract_dates. split.
  - intros field v H.
    rewrite date_loop_get in H by apply date_fields_NoDup.
    destruct (field_of field date_fields) as [[f pat]|] eqn:Ef;
      [|discriminate].
    apply find_some in Ef as [Hin Hk]. simpl in Hk.
    apply str_eqb_eq in Hk. subst f. simpl in H.
    unfold date_value in H.
    destruct (Re.search pat (html_str doc) IGNORECASE_DOTALL) as [m|] eqn:Em;
      [|discriminate].
    destruct (Re.search date_regex (_clean_text (group 1 m)) NOFLAGS) eqn:Ed;
      [|discriminate].
    injection H as <-. exists pat, m. repeat split; auto.
    apply date_regex_shape. eauto.
  - intros field pattern m Hin Hm Hshape.
    rewrite date_loop_get by apply date_fields_NoDup.
    destruct (field_of field date_fields) as [[f pat]|] eqn:Ef;
      [|reflexivity].
    apply find_some in Ef as [Hin' Hk]. simpl in Hk.
    apply str_eqb_eq in Hk. subst f. simpl.
    assert (pat = pattern).
    { pose proof date_fields_NoDup as N.
      clear - Hin Hin' N. induction date_fields as [|[f0 p0] l IH];
        [destruct Hin|].
      simpl in N. inversion N as [|? ? Hf N']; subst.
      destruct Hin as [Hin|Hin], Hin' as [Hin'|Hin'].
      - congruence.
      - injection Hin as -> ->. exfalso. apply Hf.
        apply (in_map fst) in Hin'. exact Hin'.
      - injection Hin' as -> ->. exfalso. apply Hf.
        apply (in_map fst) in Hin. exact Hin.
      - auto. }
    subst pat. unfold date_value. rewrite Hm.
    destruct (Re.search date_regex (_clean_text (group 1 m)) NOFLAGS) eqn:Ed;
      [|reflexivity].
    exfalso. apply Hshape. apply date_regex_shape. eauto.
Qed.

End Dates.

Section DatesWitness.
Import Re PyDict Bs4 IPODataExtractor.

Lemma no_calendar_date_in_empty : ~ has_calendar_date [].
Proof.
  intros (pre & day & ord & ws1 & month & ws2 & year & post & E & _ & L & _).
  symmetry in E. apply app_eq_nil in E as [_ E].
  apply app_eq_nil in E as [E _]. apply app_eq_nil in E as [E _].
  subst day. simpl in L. lia.
Qed.

(** On the page whose listing date is still the placeholder, the listing
    slot is absent. *)
Lemma dates_only_calendar_shaped_witness :
  PyDict.get (txt "listing_date") (_extract_dates pending_listing_doc) = None.
Proof.
  destruct (dates_only_calendar_shaped pending_listing_doc) as [_ H].
  set (pattern := seq (lit (txt "Listing date is") :: then_bold_value)).
  destruct (Re.search pattern (html_str pending_listing_doc)
                      IGNORECASE_DOTALL) as [m|] eqn:E.
  - apply (H _ pattern m).
    + unfold date_fields. do 5 right. left. reflexivity.
    + exact E.
    + vm_compute in E. injection E as <-.
      match goal with
      | |- ~ has_calendar_date ?t =>
          replace t with (@nil char) by (vm_compute; reflexivity)
      end.
      exact no_calendar_date_in_empty.
  - vm_compute in E. discriminate.
Defined.

End DatesWitness.

(** ** The pricing group: ordered fallback chains *)

Section Pricing.
Import Re PyDict Bs4 IPODataExtractor.

(** The loop returns the match of the earliest pattern that matches,
    whatever the later patterns do. *)
Lemma first_match_earliest (patterns : list regex) (s : str) (fl : flags) :
  forall i p m,
    nth_error patterns i = Some p ->
    Re.search p s fl = Some m ->
    (forall j pj, j < i -> nth_error patterns j = Some pj ->
                  Re.search pj s fl = None) ->
    first_match patterns s fl = Some m.
Proof.
  induction patterns as [|p0 patterns IH]; intros i p m Hi Hm Hearlier.
  - destruct i; discriminate.
  - destruct i as [|i]; simpl in *.
    + injection Hi as ->. rewrite Hm. reflexivity.
    + rewrite (Hearlier 0 p0) by (simpl; auto; lia).
      apply (IH i p m); auto.
      intros j pj Hj Hpj. apply (Hearlier (S j) pj); [lia|exact Hpj].
Qed.

Lemma set_float_spec (key : string) (m : option match_obj)
    (d d' : dict pyval) :
  set_float key m d = Ok d' ->
  (forall mm, m = Some mm ->
     exists q, PyNum.float (replace_char 44%N [] (group_str 1 mm)) = Ok q /\
               PyDict.get (txt key) d' = Some (VFloat q)) /\
  (forall k, k <> txt key -> PyDict.get k d' = PyDict.get k d).
Proof.
  unfold set_float, float_group1. destruct m as [mm|].
  - destruct (PyNum.float (replace_char 44%N [] (group_str 1 mm))) as [q|e]
      eqn:E; simpl; [|discriminate].
    intros [= <-]. split.
    + intros ? [= <-]. exists q. split; [exact E|apply get_set_eq].
    + intros k Hk. apply get_set_ne. exact Hk.
  - intros [= <-]. split; [discriminate|reflexivity].
Qed.

Lemma pricing_chain_value (doc : document) (pricing : dict pyval) :
  _extract_pricing doc = Ok pricing ->
  forall chain key, In (chain, key) pricing_chains ->
  forall m, first_match chain (html_str doc) IGNORECASE = Some m ->
    exists q, PyNum.float (replace_char 44%N [] (group_str 1 m)) = Ok q /\
              PyDict.get (txt key) pricing = Some (VFloat q).
Proof.
  unfold _extract_pricing. intros H.
  destruct (set_float "ipo_size_cr" _ []) as [p1|] eqn:E1; [|discriminate].
  cbn [rbind] in H.
  destruct (set_float "issue_price_rs" _ p1) as [p2|] eqn:E2; [|discriminate].
  cbn [rbind] in H.
  destruct (set_float "price_band_upper_rs" _ p2) as [p3|] eqn:E3;
    [|discriminate].
  cbn [rbind] in H.
  destruct (set_float "face_value_rs" _ p3) as [p4|] eqn:E4; [|discriminate].
  cbn [rbind] in H.
  apply set_float_spec in E1 as [V1 _].
  apply set_float_spec in E2 as [V2 K2].
  apply set_float_spec in E3 as [_ K3].
  apply set_float_spec in E4 as [_ K4].
  assert (K5 : forall k, k <> txt "lot_size" ->
                 PyDict.get k pricing = PyDict.get k p4).
  { destruct (Re.search lot_pattern (html_str doc) IGNORECASE) as [ml|].
    - destruct (PyNum.int (group_str 1 ml)) as [z|]; [|discriminate].
      cbn [rbind] in H. injection H as <-.
      intros k Hk. apply get_set_ne. exact Hk.
    - cbn [rbind] in H. injection H as <-. reflexivity. }
  intros chain key [[= <- <-]|[[= <- <-]|[]]] m Hm.
  - destruct (V1 m Hm) as (q & Hq & G). exists q. split; [exact Hq|].
    rewrite K5, K4, K3, K2 by (vm_compute; discriminate). exact G.
  - destruct (V2 m Hm) as (q & Hq & G). exists q. split; [exact Hq|].
    rewrite K5, K4, K3 by (vm_compute; discriminate). exact G.
Qed.

(** C7: in the issue-size and issue-price chains of the pricing group, the
    field is the number captured by the earliest pattern of the chain that
    matches the page; whether later patterns match too, and what they
    capture, plays no part. *)
Theorem fallback_earliest_pattern_wins (doc : document)
    (pricing : dict pyval) :
  _extract_pricing doc = Ok pricing ->
  forall chain key, In (chain, key) pricing_chains ->
  forall i p m,
    nth_error chain i = Some p ->
    Re.search p (html_str doc) IGNORECASE = Some m ->
    (forall j pj, j < i -> nth_error chain j = Some pj ->
                  Re.search pj (html_str doc) IGNORECASE = None) ->
    exists q, PyNum.float (replace_char 44%N [] (group_str 1 m)) = Ok q /\
              PyDict.get (txt key) pricing = Some (VFloat q).
Proof.
  intros H chain key Hin i p m Hi Hm Hearlier.
  apply (pricing_chain_value doc pricing H chain key Hin).
  apply (first_match_earliest chain _ _ i p m Hi Hm Hearlier).
Qed.

(** When the number captured by the earliest matching issue-size pattern
    does not convert, the group ends by the exception of [float]; no later
    pattern is tried. *)
Lemma size_chain_no_retry (doc : document) (m : match_obj) (e : exn) :
  first_match size_patterns (html_str doc) IGNORECASE = Some m ->
  PyNum.float (replace_char 44%N [] (group_str 1 m)) = Raise e ->
  _extract_pricing doc = Raise e.
Proof.
  intros Hm He. unfold _extract_pricing. rewrite Hm.
  unfold set_float, float_group1. rewrite He. reflexivity.
Qed.

(** On the page where the first two issue-size patterns match, with 895.00
    for the first and 100 for the second, the issue size is 895.00. *)
Lemma fallback_earliest_pattern_wins_witness :
  is_Some (Re.search (nth 0 size_patterns Eps) (html_str two_sizes_doc)
                     IGNORECASE) /\
  is_Some (Re.search (nth 1 size_patterns Eps) (html_str two_sizes_doc)
                     IGNORECASE) /\
  exists pricing, _extract_pricing two_sizes_doc = Ok pricing /\
    PyDict.get (txt "ipo_size_cr") pricing = Some (VFloat 895.00).
Proof.
  split; [vm_compute; eauto|]. split; [vm_compute; eauto|].
  destruct (_extract_pricing two_sizes_doc) as [pricing|e] eqn:E;
    [|vm_compute in E; discriminate].
  exists pricing. split; [reflexivity|].
  destruct (Re.search (nth 0 size_patterns Eps) (html_str two_sizes_doc)
                      IGNORECASE) as [m|] eqn:Em;
    [|vm_compute in Em; discriminate].
  destruct (fallback_earliest_pattern_wins two_sizes_doc pricing E
              size_patterns "ipo_size_cr"%string (or_introl eq_refl)
              0 (nth 0 size_patterns Eps) m eq_refl Em) as (q & Hq & G).
  - intros j pj Hj. lia.
  - vm_compute in Em. injection Em as <-.
    vm_compute in Hq. injection Hq as <-. exact G.
Defined.

End Pricing.

(** ** The subscription table *)

Section SubscriptionTable.
Import PyDict Bs4 IPODataExtractor.

Lemma set_fresh {V} (k : str) (v : V) (d : dict V) :
  ~ In k (keys d) -> set k v d = d ++ [(k, v)].
Proof.
  induction d as [|[k0 v0] d IH]; simpl; intros H; [reflexivity|].
  destruct (str_eqb k k0) eqn:E.
  - apply str_eqb_eq in E. subst. tauto.
  - rewrite IH by tauto. reflexivity.
Qed.

Lemma fold_set_fresh {V} (pairs : list (str * V)) :
  forall acc,
    List.NoDup (keys acc ++ map fst pairs) ->
    fold_left (fun d kv => set (fst kv) (snd kv) d) pairs acc = acc ++ pairs.
Proof.
  induction pairs as [|[k v] pairs IH]; intros acc N; simpl.
  - rewrite app_nil_r. reflexivity.
  - simpl in N.
    assert (Hk : ~ In k (keys acc)).
    { apply NoDup_remove_2 in N. intros Hin. apply N.
      apply in_or_app. auto. }
    rewrite set_fresh by exact Hk.
    rewrite IH.
    + rewrite <- app_assoc. reflexivity.
    + unfold keys. rewrite map_app. simpl. rewrite <- app_assoc. exact N.
Qed.

(** With distinct keys, [dict(pairs)] holds the pairs as they come. *)
Lemma of_pairs_NoDup {V} (pairs : list (str * V)) :
  List.NoDup (map fst pairs) -> of_pairs pairs = pairs.
Proof.
  intros N. unfold of_pairs. rewrite fold_set_fresh; [reflexivity|exact N].
Qed.

Lemma zip_keys_NoDup {B} (headers : list str) (cells : list B) :
  List.NoDup headers -> List.NoDup (map fst (zip headers cells)).
Proof.
  unfold zip. revert cells.
  induction headers as [|h headers IH]; intros cells N; simpl.
  - constructor.
  - destruct cells as [|c cells]; simpl; [constructor|].
    inversion N as [|? ? Hh N']; subst. constructor.
    + intros Hin. apply Hh. apply in_map_iff in Hin as ([h' c'] & <- & Hin).
      apply in_combine_l in Hin. exact Hin.
    + apply IH. exact N'.
Qed.

Lemma table_rows_no_headers (trs : list node) : table_rows [] trs = [].
Proof.
  induction trs as [|tr trs IH]; simpl; [reflexivity|].
  destruct (cell_texts "td" tr); exact IH.
Qed.

Lemma table_rows_In (headers : list str) (trs : list node) row :
  In row (table_rows headers trs) ->
  exists tr, In tr trs /\ headers <> [] /\ cell_texts "td" tr <> [] /\
             row = of_pairs (zip headers (cell_texts "td" tr)).
Proof.
  induction trs as [|tr trs IH]; simpl; [intros []|].
  destruct (cell_texts "td" tr) as [|c cells] eqn:Ec.
  - intros H. destruct (IH H) as (tr' & ? & ? & ? & ?). exists tr'. auto.
  - destruct headers as [|h headers].
    + intros H. destruct (IH H) as (tr' & ? & ? & ? & ?). exists tr'. auto.
    + intros [<-|H].
      * exists tr. rewrite Ec. repeat split; auto; discriminate.
      * destruct (IH H) as (tr' & ? & ? & ? & ?). exists tr'. auto.
Qed.

(** The rows, one for each [tr] that has cells, in the order of the
    table. *)
Lemma table_rows_map (headers : list str) (trs : list node) :
  headers <> [] ->
  table_rows headers trs
  = map (fun cells => of_pairs (zip headers cells))
        (List.filter (fun cells => match cells with [] => false | _ => true end)
                     (map (cell_texts "td") trs)).
Proof.
  intros Hh. induction trs as [|tr trs IH]; simpl; [reflexivity|].
  destruct (cell_texts "td" tr) as [|c cells]; simpl; [exact IH|].
  destruct headers as [|h headers]; [congruence|].
  rewrite <- IH. reflexivity.
Qed.

(** C8: without header cells or without a body the parsed rows are empty;
    otherwise every row comes from a [tr] of the body that has cells and is
    the dictionary of the header labels zipped with that row's cells, which
    for distinct labels is the list of (label, cell) pairs in column
    order. *)
Theorem subscription_table_rows (table : node) :
  (table_headers table = [] \/ find (txt "tbody") [] table = None ->
   _parse_subscription_table table = []) /\
  (forall row,
     In row (_parse_subscription_table table) ->
     exists tbody tr,
       find (txt "tbody") [] table = Some tbody /\
       In tr (find_all (txt "tr") [] tbody) /\
       table_headers table <> [] /\
       cell_texts "td" tr <> [] /\
       row = of_pairs (zip (table_headers table) (cell_texts "td" tr)) /\
       (List.NoDup (table_headers table) ->
        row = zip (table_headers table) (cell_texts "td" tr))).
Proof.
  unfold _parse_subscription_table. fold (table_headers table). split.
  - intros [H | H].
    + rewrite H. destruct (find (txt "tbody") [] table); [|reflexivity].
      apply table_rows_no_headers.
    + rewrite H. reflexivity.
  - intros row H.
    destruct (find (txt "tbody") [] table) as [tbody|]; [|destruct H].
    apply table_rows_In in H as (tr & Hin & Hh & Hc & ->).
    exists tbody, tr. repeat split; auto.
    intros N. apply of_pairs_NoDup, zip_keys_NoDup, N.
Qed.

(** The table with the labels Category and Times and one row gives that
    row under those labels; the same row without a [thead] gives nothing. *)
Lemma subscription_table_rows_witness :
  _parse_subscription_table two_column_table
  = [ [(txt "Category", txt "QIB"); (txt "Times", txt "2.5")] ] /\
  _parse_subscription_table
    (Tag (txt "table") [] [Tag (txt "tbody") []
       [Tag (txt "tr") [] [Tag (txt "td") [] [NavigableString (txt "QIB")]]]])
  = [].
Proof.
  split.
  - destruct (subscription_table_rows two_column_table) as [_ H].
    destruct (_parse_subscription_table two_column_table) as [|row rows] eqn:E;
      [vm_compute in E; discriminate|].
    destruct (H row (or_introl eq_refl))
      as (tbody & tr & Hb & Htr & _ & _ & _ & Hrow).
    assert (rows = []).
    { vm_compute in E. injection E as _ E. symmetry. exact E. }
    subst rows.
    f_equal. rewrite Hrow.
    + vm_compute in Hb. injection Hb as <-.
      vm_compute in Htr. destruct Htr as [<-|[]].
      vm_compute. reflexivity.
    + vm_compute.
      repeat (constructor;
              [intros G; repeat (destruct G as [G|G]; [discriminate G|]);
               exact G|]).
      constructor.
  - apply (proj1 (subscription_table_rows _)). left. reflexivity.
Defined.

End SubscriptionTable.

(** ** Collection build *)

Section CollectionBuild.
Import PyDict Bs4 IPOIndexBuilder.

Lemma text_item_id (c : company) :
  has_text_id c -> text_item "id" c = Ok (id_of c).
Proof.
  intros [s H]. unfold text_item, id_of. rewrite H. reflexivity.
Qed.

Lemma find_app_last {A} (p : A -> bool) (l : list A) (x : A) :
  List.find p (l ++ [x])
  = match List.find p l with
    | Some y => Some y
    | None => if p x then Some x else None
    end.
Proof.
  induction l as [|y l IH]; simpl; [reflexivity|].
  destruct (p y); [reflexivity|exact IH].
Qed.

Lemma unique_loop_spec (all_companies : list company) :
  Forall has_text_id all_companies ->
  forall acc, List.NoDup (keys acc) ->
  exists d,
    unique_loop all_companies acc = Ok d /\ List.NoDup (keys d) /\
    forall i, PyDict.get i d
              = match last_with_id i all_companies with
                | Some c => Some c
                | None => PyDict.get i acc
                end.
Proof.
  induction 1 as [|c all_companies Hc Hall IH]; intros acc N.
  - exists acc. simpl. auto.
  - simpl. rewrite (text_item_id c Hc). simpl.
    destruct (IH (set (id_of c) c acc)) as (d & E & Nd & G).
    { apply keys_set_NoDup. exact N. }
    exists d. repeat split; auto.
    intros i. rewrite G. unfold last_with_id. simpl.
    rewrite find_app_last.
    destruct (List.find _ (rev all_companies)); [reflexivity|].
    rewrite get_set, str_eqb_sym.
    destruct (str_eqb (id_of c) i); reflexivity.
Qed.

Lemma last_with_id_In (i : str) (all_companies : list company) c :
  last_with_id i all_companies = Some c -> In c all_companies /\ id_of c = i.
Proof.
  unfold last_with_id. intros H. apply find_some in H as [Hin Hp].
  apply in_rev in Hin. apply str_eqb_eq in Hp. auto.
Qed.

Lemma last_with_id_Some (all_companies : list company) c :
  In c all_companies -> is_Some (last_with_id (id_of c) all_companies).
Proof.
  unfold last_with_id. intros Hin.
  destruct (List.find _ (rev all_companies)) eqn:E; [eauto|].
  exfalso. apply in_rev in Hin.
  pose proof (find_none _ _ E _ Hin) as H. simpl in H.
  rewrite str_eqb_refl in H. discriminate.
Qed.

(** What collection build returns: each id once, the ids of the sequence,
    and for each id the entry that came last. *)
Lemma unique_by_id_spec (all_companies : list company) :
  Forall has_text_id all_companies ->
  exists unique,
    unique_by_id all_companies = Ok unique /\
    List.NoDup (map id_of unique) /\
    (forall i, In i (map id_of unique) <-> In i (map id_of all_companies)) /\
    (forall c, In c unique <->
               last_with_id (id_of c) all_companies = Some c).
Proof.
  intros Hall.
  destruct (unique_loop_spec all_companies Hall []) as (d & E & Nd & G);
    [constructor|].
  unfold unique_by_id. rewrite E. simpl. exists (values d).
  assert (G' : forall i, PyDict.get i d = last_with_id i all_companies).
  { intros i. rewrite G. destruct (last_with_id i all_companies); reflexivity. }
  assert (Hkey : forall k c, In (k, c) d -> id_of c = k).
  { intros k c Hin. apply In_get in Hin; [|exact Nd].
    rewrite G' in Hin. apply last_with_id_In in Hin as [_ ?]. assumption. }
  assert (Hids : map id_of (values d) = keys d).
  { unfold values, keys. rewrite map_map. apply map_ext_in.
    intros [k c] Hin. simpl. apply (Hkey k c Hin). }
  split; [reflexivity|]. split; [rewrite Hids; exact Nd|]. split.
  - intros i. rewrite Hids. split.
    + intros Hin. destruct (PyDict.get i d) as [c|] eqn:Ei.
      * rewrite G' in Ei. apply last_with_id_In in Ei as [Hc <-].
        apply in_map. exact Hc.
      * apply get_None_keys in Ei. contradiction.
    + intros Hin. apply in_map_iff in Hin as (c & <- & Hc).
      destruct (last_with_id_Some all_companies c Hc) as [c' Hc'].
      rewrite <- G' in Hc'. apply get_In in Hc'.
      apply (in_map fst) in Hc'. exact Hc'.
  - intros c. split.
    + intros Hin. apply in_map_iff in Hin as ([k c'] & Ec & Hin).
      simpl in Ec. subst c'. rewrite (Hkey k c Hin).
      rewrite <- G'. apply In_get; assumption.
    + intros H. rewrite <- G' in H. apply get_In in H.
      apply (in_map snd) in H. exact H.
Qed.

(** C9: collection build over a sequence of companies (each with its id)
    returns a collection with each id once, the ids being those of the
    sequence, and the entry kept for an id is the one that came last in the
    sequence. *)
Theorem collection_build_last_write_wins (all_companies : list company) :
  Forall has_text_id all_companies ->
  exists unique,
    unique_by_id all_companies = Ok unique /\
    List.NoDup (map id_of unique) /\
    (forall i, In i (map id_of unique) <-> In i (map id_of all_companies)) /\
    (forall c, In c unique <->
               last_with_id (id_of c) all_companies = Some c).
Proof. exact (unique_by_id_spec all_companies). Qed.

(** Two entries for the id 7, the later one under another name, around
    one entry for the id 9: the later entry for 7 is kept, in the place of
    the first. *)
Lemma collection_build_last_write_wins_witness :
  unique_by_id [listed "Old Name" "7"; listed "Other" "9";
                listed "New Name" "7"]
  = Ok [listed "New Name" "7"; listed "Other" "9"].
Proof.
  destruct (collection_build_last_write_wins
              [listed "Old Name" "7"; listed "Other" "9";
               listed "New Name" "7"]) as (u & E & _).
  - repeat constructor; eexists; reflexivity.
  - rewrite E. f_equal. vm_compute in E. injection E as <-. reflexivity.
Defined.

(** Every record made from a link has a text id, so [build_index] builds
    its collection without an exception, from the companies of the three
    listing pages in turn. *)
Lemma extract_company_has_id (link : node) c :
  extract_company_from_link link = Some c -> has_text_id c.
Proof.
  unfold extract_company_from_link.
  destruct (text_attr "href" link) as [href|]; [|discriminate].
  destruct (Re.search link_pattern href Re.NOFLAGS) as [m|]; [|discriminate].
  destruct (if is_empty _ then _ else _) as [name|]; [|discriminate].
  destruct (negb (is_empty name) && _ && _); [|discriminate].
  intros [= <-]. eexists. reflexivity.
Qed.

Lemma scrape_links_ids (category_name : str) (links : list node) :
  forall seen,
    exists cs, scrape_links category_name seen links = Ok cs /\
               Forall has_text_id cs.
Proof.
  induction links as [|link links IH]; intros seen; simpl.
  - exists []. auto.
  - destruct (extract_company_from_link link) as [c|] eqn:E; [|apply IH].
    pose proof (extract_company_has_id link c E) as Hc.
    rewrite (text_item_id c Hc). simpl.
    destruct (negb (existsb (str_eqb (id_of c)) seen)); [|apply IH].
    destruct (IH (id_of c :: seen)) as (cs & -> & Hcs). simpl.
    eexists. split; [reflexivity|]. constructor; [|exact Hcs].
    destruct Hc as [s Hs]. exists s.
    rewrite get_set_ne by (vm_compute; discriminate). exact Hs.
Qed.

Lemma scrape_all_ids (fetch_page : str -> option node)
    (categories : list (str * str)) :
  exists cs, scrape_all fetch_page categories = Ok cs /\
             Forall has_text_id cs.
Proof.
  induction categories as [|[name path] categories (rest & E & Hrest)];
    simpl.
  - exists []. auto.
  - assert (S : exists cs, scrape_category fetch_page name path = Ok cs /\
                           Forall has_text_id cs).
    { unfold scrape_category. destruct (fetch_page _).
      - apply scrape_links_ids.
      - exists []. auto. }
    destruct S as (cs & -> & Hcs). rewrite E. simpl.
    eexists. split; [reflexivity|]. apply Forall_app. auto.
Qed.

Lemma build_index_unique (fetch_page : str -> option node) :
  exists all_companies unique,
    scrape_all fetch_page CATEGORIES = Ok all_companies /\
    build_index fetch_page = Ok unique /\
    List.NoDup (map id_of unique) /\
    (forall c, In c unique <->
               last_with_id (id_of c) all_companies = Some c).
Proof.
  destruct (scrape_all_ids fetch_page CATEGORIES) as (all & E & Hall).
  destruct (unique_by_id_spec all Hall) as (u & Eu & N & _ & L).
  exists all, u. unfold build_index. rewrite E. simpl. auto.
Qed.

End CollectionBuild.

(** ** The similarity ratio: the nesting bound is enough *)

Section DifflibFuel.
Import Difflib.

Lemma row_inv (alo ahi i blo bhi : nat) (j2len : list (nat * nat))
    (js : list nat) :
  alo <= i -> i < ahi -> row_bound (i - alo) j2len ->
  forall newj2len bst,
    row_bound (i + 1 - alo) newj2len -> in_arange alo ahi bst ->
    row_bound (i + 1 - alo) (fst (row i blo bhi j2len js newj2len bst)) /\
    in_arange alo ahi (snd (row i blo bhi j2len js newj2len bst)).
Proof.
  intros Hlo Hhi Hprev.
  induction js as [|j js IH]; intros newj2len bst Hnew Hbst; simpl.
  - auto.
  - destruct (j <? blo); [apply IH; assumption|].
    destruct (bhi <=? j); [simpl; auto|].
    set (k := match j with O => 1 | S j1 => j2len_get j2len j1 + 1 end).
    assert (Hk : 1 <= k <= i + 1 - alo).
    { unfold k. destruct j as [|j1]; [lia|].
      specialize (Hprev j1). lia. }
    destruct bst as [[besti bestj] bestsize].
    apply IH.
    + intros j'. simpl. destruct (Nat.eqb j' j); [lia|apply Hnew].
    + destruct (bestsize <? k); [|exact Hbst].
      simpl. lia.
Qed.

Lemma rows_inv (a b : str) (alo ahi blo bhi : nat) (len : nat) :
  forall start j2len bst,
    alo <= start -> start + len <= ahi ->
    row_bound (start - alo) j2len -> in_arange alo ahi bst ->
    in_arange alo ahi (rows a b blo bhi (seq start len) j2len bst).
Proof.
  induction len as [|len IH]; intros start j2len bst Hlo Hhi Hrow Hbst;
    simpl; [exact Hbst|].
  destruct (row_inv alo ahi start blo bhi j2len (b2j b (at_ a start))
              Hlo ltac:(lia) Hrow [] bst) as [R B].
  { intros j. simpl. lia. }
  { exact Hbst. }
  destruct (row start blo bhi j2len (b2j b (at_ a start)) [] bst)
    as [newj2len bst'].
  simpl in R, B. apply IH; try lia; [|exact B].
  replace (S start - alo) with (start + 1 - alo) by lia. exact R.
Qed.

Lemma extend_left_inv (a b : str) (alo ahi blo : nat) (besti : nat) :
  forall bestj bestsize,
    in_arange alo ahi (besti, bestj, bestsize) ->
    in_arange alo ahi (extend_left a b alo blo besti bestj bestsize).
Proof.
  induction besti as [|i1 IH]; intros bestj bestsize H; simpl; [exact H|].
  destruct ((alo <? S i1) && (blo <? bestj)
            && char_eqb (at_ a i1) (at_ b (bestj - 1))) eqn:E; [|exact H].
  apply IH. simpl in H |- *.
  apply andb_true_iff in E as [E _]. apply andb_true_iff in E as [E _].
  apply Nat.ltb_lt in E. lia.
Qed.

Lemma extend_right_inv (a b : str) (ahi bhi besti bestj : nat) (n : nat) :
  forall bestsize,
    besti + bestsize <= ahi ->
    besti + extend_right a b ahi bhi besti bestj n bestsize <= ahi.
Proof.
  induction n as [|n IH]; intros bestsize H; simpl; [exact H|].
  destruct ((besti + bestsize <? ahi) && (bestj + bestsize <? bhi)
            && char_eqb (at_ a (besti + bestsize)) (at_ b (bestj + bestsize)))
    eqn:E; [|exact H].
  apply IH.
  apply andb_true_iff in E as [E _]. apply andb_true_iff in E as [E _].
  apply Nat.ltb_lt in E. lia.
Qed.

Lemma find_longest_match_inv (a b : str) (alo ahi blo bhi : nat) :
  alo <= ahi ->
  in_arange alo ahi (find_longest_match a b alo ahi blo bhi).
Proof.
  intros H. unfold find_longest_match.
  pose proof (rows_inv a b alo ahi blo bhi (ahi - alo) alo [] (alo, blo, 0))
    as R.
  destruct (rows a b blo bhi (seq alo (ahi - alo)) [] (alo, blo, 0))
    as [[besti bestj] bestsize].
  assert (R' : in_arange alo ahi (besti, bestj, bestsize)).
  { apply R; try lia.
    - intros j. simpl. lia.
    - simpl. lia. }
  pose proof (extend_left_inv a b alo ahi blo besti bestj bestsize R') as L.
  destruct (extend_left a b alo blo besti bestj bestsize)
    as [[besti' bestj'] bestsize'].
  simpl in L |- *. split; [lia|].
  apply extend_right_inv. lia.
Qed.

(** Any fuel that covers the range of [a] gives the same total. *)
Lemma matched_fuel (a b : str) (fuel1 : nat) :
  forall fuel2 alo ahi blo bhi,
    alo <= ahi -> ahi - alo <= fuel1 -> ahi - alo <= fuel2 ->
    matched fuel1 a b alo ahi blo bhi = matched fuel2 a b alo ahi blo bhi.
Proof.
  induction fuel1 as [|fuel1 IH]; intros fuel2 alo ahi blo bhi H H1 H2.
  - destruct fuel2 as [|fuel2]; [reflexivity|]. simpl.
    pose proof (find_longest_match_inv a b alo ahi blo bhi H) as B.
    destruct (find_longest_match a b alo ahi blo bhi) as [[i j] k].
    simpl in B. assert (k = 0) by lia. subst k. reflexivity.
  - pose proof (find_longest_match_inv a b alo ahi blo bhi H) as B.
    destruct fuel2 as [|fuel2]; simpl;
      destruct (find_longest_match a b alo ahi blo bhi) as [[i j] k];
      simpl in B.
    + assert (k = 0) by lia. subst k. reflexivity.
    + destruct (Nat.eqb k 0) eqn:Ek; [reflexivity|].
      apply Nat.eqb_neq in Ek.
      rewrite (IH fuel2 alo i blo j) by lia.
      rewrite (IH fuel2 (i + k) ahi (j + k) bhi) by lia.
      reflexivity.
Qed.

(** [matches] is the total of the blocks whatever larger bound is given. *)
Lemma matches_any_fuel (a b : str) (fuel : nat) :
  length a <= fuel ->
  matched fuel a b 0 (length a) 0 (length b) = matches a b.
Proof.
  intros H. unfold matches. apply matched_fuel; lia.
Qed.

End DifflibFuel.

(** ** Ranking *)

Section Ranking.
Import PyDict IPOSearchEngine.
Local Open Scope Q_scope.

Lemma Qltb_lt (a b : Q) : Qltb a b = true <-> a < b.
Proof.
  unfold Qltb. rewrite negb_true_iff. split.
  - intros H. apply Qnot_le_lt. intros L.
    apply Qle_bool_iff in L. congruence.
  - intros H. destruct (Qle_bool b a) eqn:E; [|reflexivity].
    apply Qle_bool_iff in E. exfalso. exact (Qlt_not_le _ _ H E).
Qed.

Lemma Qltb_ge (a b : Q) : Qltb a b = false <-> b <= a.
Proof.
  unfold Qltb. rewrite negb_false_iff. apply Qle_bool_iff.
Qed.

(** [max(score, 0.6)] is at least 0.6 and at least the score. *)
Lemma py_max_ge (a b : Q) : b <= py_max a b /\ a <= py_max a b.
Proof.
  unfold py_max. destruct (Qltb a b) eqn:E.
  - apply Qltb_lt in E. split; [apply Qle_refl|apply Qlt_le_weak, E].
  - apply Qltb_ge in E. split; [exact E|apply Qle_refl].
Qed.

Context {A : Type}.

Lemma insert_desc_perm (x : Q * A) (l : list (Q * A)) :
  Permutation (insert_desc x l) (x :: l).
Proof.
  induction l as [|y l IH]; simpl; [reflexivity|].
  destruct (Qltb (fst x) (fst y)); [|reflexivity].
  rewrite IH. apply perm_swap.
Qed.

Lemma sort_desc_perm (l : list (Q * A)) : Permutation (sort_desc l) l.
Proof.
  induction l as [|x l IH]; simpl; [reflexivity|].
  rewrite insert_desc_perm, IH. reflexivity.
Qed.

Lemma insert_desc_sorted (x : Q * A) (l : list (Q * A)) :
  StronglySorted key_ge l -> StronglySorted key_ge (insert_desc x l).
Proof.
  induction l as [|y l IH]; simpl; intros S.
  - constructor; constructor.
  - inversion S as [|? ? S' F]; subst.
    destruct (Qltb (fst x) (fst y)) eqn:E.
    + constructor; [apply IH, S'|].
      apply Qltb_lt in E.
      rewrite List.Forall_forall. intros z Hz.
      apply (Permutation_in _ (insert_desc_perm x l)) in Hz.
      destruct Hz as [<-|Hz].
      * apply Qlt_le_weak, E.
      * rewrite List.Forall_forall in F. apply F, Hz.
    + apply Qltb_ge in E. constructor; [exact S|].
      constructor; [exact E|].
      rewrite List.Forall_forall in F |- *. intros z Hz.
      unfold key_ge in *. eapply Qle_trans; [apply F, Hz|exact E].
Qed.

Lemma sort_desc_sorted (l : list (Q * A)) : StronglySorted key_ge (sort_desc l).
Proof.
  induction l as [|x l IH]; simpl; [constructor|].
  apply insert_desc_sorted, IH.
Qed.

Lemma insert_desc_stable (s : Q) (x : Q * A) (l : list (Q * A)) :
  List.filter (same_key s) (insert_desc x l)
  = List.filter (same_key s) (x :: l).
Proof.
  induction l as [|y l IH]; [reflexivity|].
  cbn [insert_desc]. destruct (Qltb (fst x) (fst y)) eqn:E; [|reflexivity].
  cbn [List.filter] in *. rewrite IH.
  destruct (same_key s x) eqn:Ex, (same_key s y) eqn:Ey; try reflexivity.
  exfalso. unfold same_key in *.
  apply Qeq_bool_iff in Ex, Ey. apply Qltb_lt in E.
  rewrite Ex, Ey in E. exact (Qlt_irrefl _ E).
Qed.

Lemma sort_desc_stable (s : Q) (l : list (Q * A)) :
  List.filter (same_key s) (sort_desc l) = List.filter (same_key s) l.
Proof.
  induction l as [|x l IH]; [reflexivity|].
  cbn [sort_desc]. rewrite insert_desc_stable.
  cbn [List.filter]. rewrite IH. reflexivity.
Qed.

(** The sort of [search] ranks its input. *)
Lemma sort_desc_ranks (l : list (Q * A)) : stable_desc (sort_desc l) l.
Proof.
  split; [apply sort_desc_perm|].
  split; [apply sort_desc_sorted|]. intros s. apply sort_desc_stable.
Qed.

End Ranking.

(** ** Search: what is returned *)

Section SearchResults.
Import PyDict IPOSearchEngine.
Local Open Scope Q_scope.

Lemma name_of_text (c : company) :
  has_text_name c -> name_of c = Ok (name_text c).
Proof.
  intros [s H]. unfold name_of, name_text. rewrite H. reflexivity.
Qed.

Lemma scan_qualifying (query : str) (min_score : Q)
    (companies : list company) :
  Forall has_text_name companies ->
  scan query min_score companies
  = Ok (map snd (qualifying query min_score companies)).
Proof.
  induction 1 as [|c companies Hc Hall IH]; [reflexivity|].
  cbn [scan]. rewrite (name_of_text c Hc). cbn [rbind].
  unfold qualifying in *. cbn [map List.filter]. unfold scored at 1.
  cbn [fst]. rewrite IH.
  destruct (Qle_bool min_score (match_score query (name_text c)));
    reflexivity.
Qed.

Lemma sort_key_scored (query : str) (c : company) :
  sort_key (snd (scored query c)) = Ok (fst (scored query c)).
Proof.
  unfold scored, sort_key. cbn [fst snd]. rewrite get_set_eq. reflexivity.
Qed.

Lemma keyed_pairs (l : list (Q * company)) :
  Forall (fun p => sort_key (snd p) = Ok (fst p)) l ->
  keyed (map snd l) = Ok l.
Proof.
  induction 1 as [|[k x] l Hp Hl IH]; [reflexivity|].
  cbn [map keyed snd]. cbn [fst snd] in Hp. rewrite Hp, IH. reflexivity.
Qed.

Lemma keyed_qualifying (query : str) (min_score : Q)
    (companies : list company) :
  keyed (map snd (qualifying query min_score companies))
  = Ok (qualifying query min_score companies).
Proof.
  apply keyed_pairs. unfold qualifying.
  apply List.Forall_forall. intros p Hp.
  apply filter_In in Hp as [Hp _].
  apply in_map_iff in Hp as (c & <- & _). apply sort_key_scored.
Qed.

(** [search] on a non-empty query: the ranked qualifying companies, cut by
    the slice. *)
Lemma search_ranked (companies : list company) (query : str) (limit : Z)
    (min_score : Q) :
  query <> [] ->
  Forall has_text_name companies ->
  search companies query limit min_score
  = Ok (slice_to limit
          (map snd (sort_desc (qualifying query min_score companies)))).
Proof.
  intros Hq Hall. unfold search.
  destruct query as [|q0 query]; [congruence|]. cbn [is_empty orb].
  destruct companies as [|c companies].
  { unfold slice_to. simpl.
    destruct (0 <=? limit)%Z; [destruct (Z.to_nat limit)|]; reflexivity. }
  rewrite scan_qualifying by exact Hall. cbn [rbind].
  rewrite keyed_qualifying. reflexivity.
Qed.

(** C1, counterexample: with the empty query [search] returns nothing,
    while the one company of the collection scores 0.6, above the default
    minimum 0.3. *)
Lemma search_claim_fails_on_empty_query :
  ~ search_claim [[(txt "name", VStr (txt "A"))]] []
                 default_limit default_min_score.
Proof.
  intros (ranked & (P & _) & H).
  assert (L : length ranked = 1%nat).
  { rewrite (Permutation_length P). vm_compute. reflexivity. }
  destruct ranked as [|p [|? ?]]; try discriminate L.
  vm_compute in H. discriminate H.
Qed.

(** C1 (amended): for a non-empty query and a limit that is not negative,
    on a collection whose records have a text name, the result of [search]
    is the first [limit] entries of the stable descending arrangement of
    the companies whose score is at least [min_score]: filtered, then
    sorted, then truncated. *)
Theorem search_filters_ranks_truncates (companies : list company)
    (query : str) (limit : Z) (min_score : Q) :
  query <> [] ->
  (0 <= limit)%Z ->
  Forall has_text_name companies ->
  search_claim companies query limit min_score.
Proof.
  intros Hq Hl Hall.
  exists (sort_desc (qualifying query min_score companies)).
  split; [apply sort_desc_ranks|].
  rewrite search_ranked by assumption.
  unfold slice_to. apply Z.leb_le in Hl. rewrite Hl. reflexivity.
Qed.

(** Four companies, two of them with the same score for the query "abc",
    and the limit 2. *)
Lemma search_filters_ranks_truncates_witness :
  search_claim [named "abd"; named "xyz"; named "abe"; named "abc"]
               (txt "abc") 2 default_min_score.
Proof.
  apply search_filters_ranks_truncates.
  - discriminate.
  - lia.
  - repeat constructor; eexists; reflexivity.
Defined.

(** There "abc" scores 6/6, "abd" and "abe" score 4/6 each and keep their
    order, "xyz" scores 0 and is left out; the limit 2 cuts after "abd". *)
Lemma search_ranking_example :
  search [named "abd"; named "xyz"; named "abe"; named "abc"] (txt "abc")
         2 default_min_score
  = Ok [ set (txt "match_score") (VFloat (6 # 6)) (named "abc");
         set (txt "match_score") (VFloat (4 # 6)) (named "abd") ] /\
  search [named "abd"; named "xyz"; named "abe"; named "abc"] (txt "abc")
         default_limit default_min_score
  = Ok [ set (txt "match_score") (VFloat (6 # 6)) (named "abc");
         set (txt "match_score") (VFloat (4 # 6)) (named "abd");
         set (txt "match_score") (VFloat (4 # 6)) (named "abe") ].
Proof. split; vm_compute; reflexivity. Qed.

(** A negative limit cuts from the end instead: the slice drops the last
    entries of the ranking. *)
Lemma search_negative_limit :
  search [named "abd"; named "xyz"; named "abe"; named "abc"] (txt "abc")
         (-1) default_min_score
  = Ok [ set (txt "match_score") (VFloat (6 # 6)) (named "abc");
         set (txt "match_score") (VFloat (4 # 6)) (named "abd") ].
Proof. vm_compute. reflexivity. Qed.

(** C2: when the lower-cased query is a substring of the lower-cased name
    the score is at least 0.6; and for the collection of "Sudeep Pharma"
    and "Suyog Pharma" the query "Sudeep" ranks "Sudeep Pharma" first, with
    score 12/19, which is at least 0.6, before "Suyog Pharma" with score
    6/18. *)
Theorem substring_score_floor :
  (forall query name,
     contains (lower query) (lower name) = true ->
     0.6 <= match_score query name) /\
  search [named "Sudeep Pharma"; named "Suyog Pharma"] (txt "Sudeep")
         default_limit default_min_score
  = Ok [ set (txt "match_score") (VFloat (12 # 19)) (named "Sudeep Pharma");
         set (txt "match_score") (VFloat (6 # 18)) (named "Suyog Pharma") ] /\
  0.6 <= 12 # 19.
Proof.
  split; [|split].
  - intros query name H. unfold match_score. rewrite H.
    apply py_max_ge.
  - vm_compute. reflexivity.
  - unfold Qle. simpl. lia.
Qed.

(** "Sudeep" is a substring of "Sudeep Pharma" once both are lowered. *)
Lemma substring_score_floor_witness :
  0.6 <= match_score (txt "Sudeep") (txt "Sudeep Pharma").
Proof.
  apply (proj1 substring_score_floor). vm_compute. reflexivity.
Defined.

End SearchResults.

(** ** Search: what happens to the stored records *)

Section SearchFrame.
Import PyDict IPOSearchEngine.

Variables (query : str) (min_score : Q).

(** The loop of [search], one turn unfolded. *)
Lemma scan_h_cons (c : loc) (cs : list loc) (h : heap) :
  scan_h query min_score (c :: cs) h
  = match h !! c with
    | None => (Raise KeyError, h)
    | Some d =>
        match name_of d with
        | Raise e => (Raise e, h)
        | Ok name =>
            let score := match_score query name in
            if Qle_bool min_score score then
              match scan_h query min_score cs
                      (h ++ [set (txt "match_score") (VFloat score) d]) with
              | (Ok results, h') => (Ok (length h :: results), h')
              | (Raise e, h') => (Raise e, h')
              end
            else scan_h query min_score cs h
        end
    end.
Proof.
  cbn [scan_h]. unfold bind, deref, lift, copy, setitem, ret.
  destruct (h !! c) as [d|] eqn:Ed; [|reflexivity]. cbv beta iota.
  destruct (name_of d) as [name|e]; [|reflexivity]. cbv beta iota zeta.
  destruct (Qle_bool min_score (match_score query name)); [|reflexivity].
  rewrite Ed. cbv beta iota.
  match goal with
  | |- context [match ?t with Some _ => _ | None => _ end] =>
      assert (L : t = Some d)
        by (rewrite lookup_app_r by lia; rewrite Nat.sub_diag; reflexivity);
      rewrite L
  end.
  cbv beta iota.
  match goal with
  | |- context [scan_h query min_score cs (<[?i := ?x]> ?l)] =>
      assert (I : <[i := x]> l = h ++ [x])
        by (rewrite insert_app_r_alt by lia; rewrite Nat.sub_diag;
            reflexivity);
      rewrite I
  end.
  destruct (scan_h query min_score cs _) as [[results|e] h']; reflexivity.
Qed.

Lemma keyed_h_cons (x : loc) (l : list loc) (h : heap) :
  keyed_h (x :: l) h
  = match h !! x with
    | None => (Raise KeyError, h)
    | Some d =>
        match sort_key d with
        | Raise e => (Raise e, h)
        | Ok k =>
            match keyed_h l h with
            | (Ok rest, h') => (Ok ((k, x) :: rest), h')
            | (Raise e, h') => (Raise e, h')
            end
        end
    end.
Proof.
  cbn [keyed_h]. unfold bind, deref, lift, ret.
  destruct (h !! x) as [d|]; [|reflexivity]. cbv beta iota.
  destruct (sort_key d) as [k|e]; [|reflexivity]. cbv beta iota.
  destruct (keyed_h l h) as [[rest|e] h']; reflexivity.
Qed.

Lemma search_h_eq (companies : list loc) (limit : Z) (h : heap) :
  search_h companies query limit min_score h
  = if is_empty query || match companies with [] => true | _ => false end
    then (Ok [], h)
    else
      match scan_h query min_score companies h with
      | (Ok results, h1) =>
          match keyed_h results h1 with
          | (Ok ks, h2) => (Ok (slice_to limit (map snd (sort_desc ks))), h2)
          | (Raise e, h2) => (Raise e, h2)
          end
      | (Raise e, h1) => (Raise e, h1)
      end.
Proof.
  unfold search_h.
  destruct (is_empty query || _); [reflexivity|].
  unfold bind, ret.
  destruct (scan_h query min_score companies h) as [[results|e] h1];
    [|reflexivity].
  destruct (keyed_h results h1) as [[ks|e] h2]; reflexivity.
Qed.

(** The loop only adds objects, and the references it returns are to
    objects it added. *)
Lemma scan_h_frame (companies : list loc) :
  forall h, exists ext,
    snd (scan_h query min_score companies h) = h ++ ext /\
    forall results, fst (scan_h query min_score companies h) = Ok results ->
      Forall (fun r => length h <= r < length h + length ext) results.
Proof.
  induction companies as [|c cs IH]; intros h.
  - exists []. simpl. rewrite app_nil_r. split; [reflexivity|].
    intros ? [= <-]. constructor.
  - rewrite scan_h_cons.
    destruct (h !! c) as [d|];
      [|exists []; simpl; rewrite app_nil_r; split; [reflexivity|discriminate]].
    destruct (name_of d) as [name|e];
      [|exists []; simpl; rewrite app_nil_r; split; [reflexivity|discriminate]].
    cbv zeta.
    destruct (Qle_bool min_score (match_score query name)); [|apply IH].
    set (d' := set (txt "match_score") (VFloat (match_score query name)) d).
    destruct (IH (h ++ [d'])) as (ext & E & F).
    destruct (scan_h query min_score cs (h ++ [d'])) as [[results|e] h'];
      simpl in E, F |- *; subst h'.
    + exists (d' :: ext). split; [rewrite <- app_assoc; reflexivity|].
      intros ? [= <-]. constructor; [simpl; lia|].
      specialize (F results eq_refl).
      eapply Forall_impl; [exact F|].
      intros r. cbv beta. rewrite length_app. simpl. lia.
    + exists (d' :: ext). split; [rewrite <- app_assoc; reflexivity|].
      discriminate.
Qed.

Lemma keyed_h_frame (l : list loc) (h : heap) :
  snd (keyed_h l h) = h /\
  forall ks, fst (keyed_h l h) = Ok ks -> map snd ks = l.
Proof.
  induction l as [|x l [IH1 IH2]].
  - split; [reflexivity|]. intros ? [= <-]. reflexivity.
  - rewrite keyed_h_cons.
    destruct (h !! x) as [d|]; [|split; [reflexivity|discriminate]].
    destruct (sort_key d) as [k|e]; [|split; [reflexivity|discriminate]].
    destruct (keyed_h l h) as [[rest|e] h']; simpl in *.
    + split; [exact IH1|]. intros ? [= <-]. simpl.
      rewrite (IH2 rest eq_refl). reflexivity.
    + split; [exact IH1|discriminate].
Qed.

Lemma In_firstn {A} (n : nat) (l : list A) (x : A) :
  In x (firstn n l) -> In x l.
Proof.
  revert l. induction n as [|n IH]; intros [|y l]; simpl; try tauto.
  intros [H|H]; [auto|right; apply IH, H].
Qed.

Lemma slice_to_In {A} (limit : Z) (l : list A) (x : A) :
  In x (slice_to limit l) -> In x l.
Proof.
  unfold slice_to. destruct (0 <=? limit)%Z; apply In_firstn.
Qed.

(** [search] only adds objects to the heap, and the references it returns
    are to objects it added. *)
Lemma search_h_frame (companies : list loc) (limit : Z) (h : heap) :
  exists ext,
    snd (search_h companies query limit min_score h) = h ++ ext /\
    forall results,
      fst (search_h companies query limit min_score h) = Ok results ->
      Forall (fun r => length h <= r < length h + length ext) results.
Proof.
  rewrite search_h_eq.
  destruct (is_empty query || _).
  { exists []. simpl. rewrite app_nil_r. split; [reflexivity|].
    intros ? [= <-]. constructor. }
  destruct (scan_h_frame companies h) as (ext & E & F).
  destruct (scan_h query min_score companies h) as [[results|e] h1];
    simpl in E, F; subst h1;
    [|exists ext; split; [reflexivity|discriminate]].
  destruct (keyed_h_frame results (h ++ ext)) as [K1 K2].
  destruct (keyed_h results (h ++ ext)) as [[ks|e] h2];
    simpl in K1, K2 |- *; subst h2;
    [|exists ext; split; [reflexivity|discriminate]].
  exists ext. split; [reflexivity|].
  intros ? [= <-]. specialize (F results eq_refl).
  rewrite List.Forall_forall in F |- *. intros r Hr. apply F.
  apply slice_to_In in Hr.
  rewrite <- (K2 ks eq_refl).
  eapply Permutation_in; [|exact Hr].
  apply Permutation_map, sort_desc_perm.
Qed.

End SearchFrame.

(** ** Search on the objects against search on the values *)

Section SearchRefinement.
Import PyDict IPOSearchEngine.

Variables (query : str) (min_score : Q).

Lemma points_app (h ext : list company) l d :
  points h l d -> points (h ++ ext) l d.
Proof. unfold points. apply lookup_app_l_Some. Qed.

Lemma deref_all_points (h : list company) (ls : list nat) :
  forall ds, deref_all h ls = Some ds <-> Forall2 (points h) ls ds.
Proof.
  induction ls as [|l ls IH]; intros ds; simpl.
  - split.
    + intros [= <-]. constructor.
    + intros H. inversion H. reflexivity.
  - split.
    + destruct (h !! l) as [d|] eqn:E; [|discriminate].
      destruct (deref_all h ls) as [ds'|]; [|discriminate].
      intros [= <-]. constructor; [exact E|]. apply IH. reflexivity.
    + intros H. inversion H as [|? d ? ds' Hd Hds]; subst.
      unfold points in Hd. rewrite Hd.
      apply IH in Hds. rewrite Hds. reflexivity.
Qed.

Lemma scan_h_pure (companies : list nat) :
  forall h cs,
    Forall2 (points h) companies cs ->
    exists ext,
      snd (scan_h query min_score companies h) = h ++ ext /\
      match scan query min_score cs with
      | Ok vals =>
          exists locs,
            fst (scan_h query min_score companies h) = Ok locs /\
            Forall2 (points (h ++ ext)) locs vals
      | Raise e => fst (scan_h query min_score companies h) = Raise e
      end.
Proof.
  induction companies as [|c companies IH]; intros h cs H;
    inversion H as [|? d ? cs' Hd Hcs]; subst.
  - exists []. simpl. rewrite app_nil_r. split; [reflexivity|].
    exists []. split; [reflexivity|constructor].
  - rewrite scan_h_cons. unfold points in Hd. rewrite Hd. cbn [scan].
    destruct (name_of d) as [name|e]; cbn [rbind];
      [|exists []; simpl; rewrite app_nil_r; auto].
    cbv zeta.
    destruct (Qle_bool min_score (match_score query name)).
    + set (d' := set (txt "match_score") (VFloat (match_score query name)) d).
      destruct (IH (h ++ [d']) cs') as (ext & E & P).
      { eapply Forall2_impl; [exact Hcs|]. intros. apply points_app. auto. }
      exists (d' :: ext).
      destruct (scan_h query min_score companies (h ++ [d']))
        as [[results|e] h']; simpl in E, P |- *; subst h';
        (split; [rewrite <- app_assoc; reflexivity|]).
      * destruct (scan query min_score cs') as [vals|e]; cbn [rbind].
        -- destruct P as (locs & [= <-] & P).
           exists (length h :: results). split; [reflexivity|].
           replace (h ++ d' :: ext) with ((h ++ [d']) ++ ext)
             by (rewrite <- app_assoc; reflexivity).
           constructor; [|exact P].
           apply points_app. unfold points.
           rewrite lookup_app_r by lia. rewrite Nat.sub_diag. reflexivity.
        -- discriminate.
      * destruct (scan query min_score cs') as [vals|e']; cbn [rbind].
        -- destruct P as (locs & P & _). discriminate.
        -- exact P.
    + apply IH. exact Hcs.
Qed.

Lemma keyed_h_pure (h : list company) (locs : list nat) :
  forall vals,
    Forall2 (points h) locs vals ->
    match keyed vals with
    | Ok ks =>
        exists ks_h, keyed_h locs h = (Ok ks_h, h) /\
                     Forall2 (keyed_points h) ks_h ks
    | Raise e => keyed_h locs h = (Raise e, h)
    end.
Proof.
  induction locs as [|l locs IH]; intros vals H;
    inversion H as [|? d ? vals' Hd Hvals]; subst.
  - simpl. exists []. split; [reflexivity|constructor].
  - rewrite keyed_h_cons. unfold points in Hd. rewrite Hd. cbn [keyed].
    destruct (sort_key d) as [k|e]; cbn [rbind]; [|reflexivity].
    specialize (IH vals' Hvals).
    destruct (keyed vals') as [ks|e]; cbn [rbind].
    + destruct IH as (ks_h & -> & P).
      exists ((k, l) :: ks_h). split; [reflexivity|].
      constructor; [|exact P]. split; [reflexivity|exact Hd].
    + rewrite IH. reflexivity.
Qed.

(** The sort looks at the keys only. *)
Lemma insert_desc_rel {A B} (R : Q * A -> Q * B -> Prop) x y l1 l2 :
  (forall a b, R a b -> fst a = fst b) ->
  R x y -> Forall2 R l1 l2 ->
  Forall2 R (insert_desc x l1) (insert_desc y l2).
Proof.
  intros HR Hxy H. induction H as [|a b l1 l2 Hab H IH]; simpl.
  - constructor; [exact Hxy|constructor].
  - rewrite (HR _ _ Hxy), (HR _ _ Hab).
    destruct (Qltb (fst y) (fst b)).
    + constructor; assumption.
    + constructor; [exact Hxy|]. constructor; assumption.
Qed.

Lemma sort_desc_rel {A B} (R : Q * A -> Q * B -> Prop) l1 l2 :
  (forall a b, R a b -> fst a = fst b) ->
  Forall2 R l1 l2 -> Forall2 R (sort_desc l1) (sort_desc l2).
Proof.
  intros HR H. induction H as [|a b l1 l2 Hab H IH]; simpl.
  - constructor.
  - apply insert_desc_rel; assumption.
Qed.

Lemma slice_to_rel {A B} (R : A -> B -> Prop) (limit : Z) l1 l2 :
  Forall2 R l1 l2 -> Forall2 R (slice_to limit l1) (slice_to limit l2).
Proof.
  intros H. unfold slice_to. rewrite (Forall2_length _ _ _ H).
  destruct (0 <=? limit)%Z; apply Forall2_take, H.
Qed.

(** [search] on the objects computes, behind the references it returns,
    the records that [search] on the values returns, and raises when that
    one raises. *)
Lemma search_h_pure (companies : list nat) (limit : Z) (h : list company)
    (cs : list company) :
  Forall2 (points h) companies cs ->
  exists ext,
    snd (search_h companies query limit min_score h) = h ++ ext /\
    match search cs query limit min_score with
    | Ok vals =>
        exists locs,
          fst (search_h companies query limit min_score h) = Ok locs /\
          Forall2 (points (h ++ ext)) locs vals
    | Raise e => fst (search_h companies query limit min_score h) = Raise e
    end.
Proof.
  intros H. rewrite search_h_eq. unfold search.
  assert (Hempty : match companies with [] => true | _ => false end
                   = match cs with [] => true | _ => false end).
  { destruct H; reflexivity. }
  rewrite Hempty.
  destruct (is_empty query || _).
  { exists []. simpl. rewrite app_nil_r. split; [reflexivity|].
    exists []. split; [reflexivity|constructor]. }
  destruct (scan_h_pure companies h cs H) as (ext & E & P).
  exists ext.
  destruct (scan_h query min_score companies h) as [[results|e] h1];
    simpl in E, P; subst h1.
  - destruct (scan query min_score cs) as [vals|e]; cbn [rbind];
      [|discriminate P].
    destruct P as (locs & [= <-] & P).
    pose proof (keyed_h_pure (h ++ ext) results vals P) as K.
    destruct (keyed vals) as [ks|e]; cbn [rbind].
    + destruct K as (ks_h & -> & K). simpl. split; [reflexivity|].
      eexists. split; [reflexivity|].
      apply slice_to_rel.
      apply (sort_desc_rel (keyed_points (h ++ ext))) in K;
        [|intros a b [? _]; assumption].
      clear - K. induction K as [|a b l1 l2 [_ Hab] K IH]; simpl;
        constructor; assumption.
    + rewrite K. simpl. split; reflexivity.
  - destruct (scan query min_score cs) as [vals|e']; cbn [rbind].
    + destruct P as (locs & P & _). discriminate.
    + simpl. split; [reflexivity|exact P].
Qed.

End SearchRefinement.

Section SearchLeavesIndex.
Import PyDict IPOSearchEngine.

Lemma valid_points (h : list company) (companies : list nat) :
  Forall (fun l => l < length h) companies ->
  exists cs, Forall2 (points h) companies cs.
Proof.
  induction 1 as [|l companies Hl _ (cs & IH)].
  - exists []. constructor.
  - destruct (lookup_lt_is_Some_2 h l Hl) as [d Hd].
    exists (d :: cs). constructor; assumption.
Qed.

(** Every record that [search] returns is a stored record with the
    [match_score] key set: the copy and its score. *)
Lemma scan_In (query : str) (min_score : Q) (cs : list company) :
  forall rs, scan query min_score cs = Ok rs ->
  forall r, In r rs ->
    exists c s, In c cs /\ r = set (txt "match_score") (VFloat s) c.
Proof.
  induction cs as [|c cs IH]; intros rs H r Hr; simpl in H.
  - injection H as <-. destruct Hr.
  - destruct (name_of c) as [name|e]; [|discriminate]. cbn [rbind] in H.
    destruct (Qle_bool min_score (match_score query name)).
    + destruct (scan query min_score cs) as [rs'|e]; [|discriminate].
      cbn [rbind] in H. injection H as <-.
      destruct Hr as [<-|Hr].
      * exists c, (match_score query name). split; [left|]; reflexivity.
      * destruct (IH rs' eq_refl r Hr) as (c' & s' & Hc & E).
        exists c', s'. split; [right|]; assumption.
    + destruct (IH rs H r Hr) as (c' & s' & Hc & E).
      exists c', s'. split; [right|]; assumption.
Qed.

Lemma keyed_snd (l : list company) :
  forall ks, keyed l = Ok ks -> map snd ks = l.
Proof.
  induction l as [|x l IH]; intros ks H; simpl in H.
  - injection H as <-. reflexivity.
  - destruct (sort_key x) as [k|e]; [|discriminate]. cbn [rbind] in H.
    destruct (keyed l) as [rest|e]; [|discriminate]. cbn [rbind] in H.
    injection H as <-. simpl. rewrite (IH rest eq_refl). reflexivity.
Qed.

Lemma search_In (cs : list company) (query : str) (limit : Z)
    (min_score : Q) (records : list company) :
  search cs query limit min_score = Ok records ->
  forall r, In r records ->
    exists c s, In c cs /\ r = set (txt "match_score") (VFloat s) c.
Proof.
  unfold search. intros H r Hr.
  destruct (is_empty query || _).
  { injection H as <-. destruct Hr. }
  destruct (scan query min_score cs) as [rs|e] eqn:Es; [|discriminate].
  cbn [rbind] in H.
  destruct (keyed rs) as [ks|e] eqn:Ek; [|discriminate].
  cbn [rbind] in H. injection H as <-.
  apply slice_to_In in Hr.
  apply (scan_In query min_score cs rs Es).
  rewrite <- (keyed_snd rs ks Ek).
  eapply Permutation_in; [|exact Hr].
  apply Permutation_map, sort_desc_perm.
Qed.

(** C10: [search] changes no object that existed before the call, so the
    stored records are what they were and none of them gains the
    [match_score] key; every returned reference is to an object made by the
    call, so assigning to a returned record leaves the stored records as
    they were; the returned records are those that [search] on the values
    of the stored records gives, each a stored record with its score under
    [match_score]; and a second identical search, on any heap
    in which the objects of before the call are unchanged, returns records
    equal to those of the first. *)
Theorem search_leaves_index_unchanged (h : list company)
    (companies : list nat) (query : str) (limit : Z) (min_score : Q) :
  Forall (fun l => l < length h) companies ->
  let out := search_h companies query limit min_score h in
  (forall l, l < length h -> snd out !! l = h !! l) /\
  (forall results, fst out = Ok results ->
     Forall (fun r => length h <= r < length (snd out)) results /\
     (forall r d l, In r results -> l < length h ->
                    (<[r := d]> (snd out)) !! l = h !! l) /\
     exists stored records,
       deref_all h companies = Some stored /\
       search stored query limit min_score = Ok records /\
       deref_all (snd out) results = Some records /\
       (forall r, In r records ->
          exists c s, In c stored /\
                      r = set (txt "match_score") (VFloat s) c) /\
       forall h2, (forall l, l < length h -> h2 !! l = h !! l) ->
         let out2 := search_h companies query limit min_score h2 in
         exists results2,
           fst out2 = Ok results2 /\
           deref_all (snd out2) results2 = Some records).
Proof.
  intros Hvalid out.
  destruct (search_h_frame query min_score companies limit h)
    as (ext & E & F).
  fold out in E, F.
  assert (Old : forall l, l < length h -> snd out !! l = h !! l).
  { intros l Hl. rewrite E. apply lookup_app_l. exact Hl. }
  split; [exact Old|].
  intros results Hres. specialize (F results Hres).
  split; [|split].
  - rewrite E, length_app. exact F.
  - intros r d l Hr Hl.
    rewrite List.Forall_forall in F. specialize (F r Hr).
    rewrite list_lookup_insert_ne by lia. apply Old, Hl.
  - destruct (valid_points h companies Hvalid) as (cs & P).
    destruct (search_h_pure query min_score companies limit h cs P)
      as (ext1 & E1 & S1).
    fold out in E1, S1.
    destruct (search cs query limit min_score) as [vals|e] eqn:Es;
      [|rewrite Hres in S1; discriminate].
    destruct S1 as (locs1 & H1 & V1).
    rewrite Hres in H1. injection H1 as <-.
    exists cs, vals. split; [apply deref_all_points, P|].
    split; [exact Es|].
    split; [apply deref_all_points; rewrite E1; exact V1|].
    split; [exact (search_In cs query limit min_score vals Es)|].
    intros h2 Hsame out2.
    assert (P2 : Forall2 (points h2) companies cs).
    { eapply Forall2_impl; [exact P|]. intros l d Hd. unfold points in *.
      rewrite Hsame; [exact Hd|]. apply lookup_lt_Some in Hd. exact Hd. }
    destruct (search_h_pure query min_score companies limit h2 cs P2)
      as (ext2 & E2 & S2).
    fold out2 in E2, S2. rewrite Es in S2.
    destruct S2 as (locs2 & H2 & V2).
    exists locs2. split; [exact H2|].
    apply deref_all_points. rewrite E2. exact V2.
Qed.

(** The index of the two pharma companies, searched for "Sudeep": the
    first stored record is still the record without a score. *)
Lemma search_leaves_index_unchanged_witness :
  snd (search_h [0; 1] (txt "Sudeep") default_limit default_min_score
         [named "Sudeep Pharma"; named "Suyog Pharma"]) !! 0
  = Some (named "Sudeep Pharma").
Proof.
  destruct (search_leaves_index_unchanged
              [named "Sudeep Pharma"; named "Suyog Pharma"] [0; 1]
              (txt "Sudeep") default_limit default_min_score) as [H _].
  - repeat constructor.
  - rewrite (H 0) by (simpl; lia). reflexivity.
Defined.

(** The same search, run: the two results are new objects at 2 and 3, the
    copies with their scores. *)
Lemma search_h_example :
  search_h [0; 1] (txt "Sudeep") default_limit default_min_score
           [named "Sudeep Pharma"; named "Suyog Pharma"]
  = (Ok [2; 3],
     [ named "Sudeep Pharma"; named "Suyog Pharma";
       set (txt "match_score") (VFloat (12 # 19)) (named "Sudeep Pharma");
       set (txt "match_score") (VFloat (6 # 18)) (named "Suyog Pharma") ]).
Proof. vm_compute. reflexivity. Qed.

End SearchLeavesIndex.

(** ** [extract_all] *)

Section ExtractAll.
Import PyDict Bs4 IPODataExtractor.

(** C3 (the code departs from the claim): the nine groups are computed one
    after the other with nothing that catches an exception, and the
    conversions by [float] can raise.  On this page the dates group alone
    finds the open date, the financial group raises [ValueError] on the
    text "1.2.3", and [extract_all] ends by that exception with no group
    returned. *)
Theorem extract_all_raises_on_two_dots :
  _extract_dates two_dots_doc
  = [(txt "ipo_open_date", VStr (txt "21st November 2025"))] /\
  _extract_financial_info two_dots_doc = Raise ValueError /\
  extract_all two_dots_doc = Raise ValueError.
Proof. repeat split; vm_compute; reflexivity. Qed.

(** The same in the pricing group: an amount made of a separator alone
    passes the pattern and reaches [float] as the empty text. *)
Lemma extract_pricing_raises_on_comma :
  _extract_pricing
    {| soup := Tag (txt "[document]") [] [];
       html_str := txt "ipo size of " ++ rupee ++ txt " , Cr." |}
  = Raise ValueError.
Proof. vm_compute. reflexivity. Qed.

(** When [extract_all] returns, it returns the nine groups, in this
    order. *)
Lemma extract_all_groups (doc : document) (record : dict pyval) :
  extract_all doc = Ok record ->
  keys record
  = map txt [ "basic_info"; "dates"; "pricing"; "financial_info";
              "stakeholders"; "company_info"; "subscription";
              "issue_composition"; "documents" ]%string.
Proof.
  unfold extract_all. intros H.
  destruct (_extract_pricing doc); [|discriminate].
  destruct (_extract_financial_info doc); [|discriminate].
  destruct (_extract_subscription doc); [|discriminate].
  destruct (_extract_issue_composition doc); [|discriminate].
  cbn [rbind] in H. injection H as <-. reflexivity.
Qed.

(** Without such a text the nine groups are returned: on a page where no
    pattern matches, each group is empty. *)
Lemma extract_all_empty_page :
  extract_all {| soup := Tag (txt "[document]") [] []; html_str := [] |}
  = Ok [ (txt "basic_info", VDict []); (txt "dates", VDict []);
         (txt "pricing", VDict []); (txt "financial_info", VDict []);
         (txt "stakeholders", VDict []); (txt "company_info", VDict []);
         (txt "subscription", VDict []); (txt "issue_composition", VDict []);
         (txt "documents", VDict []) ].
Proof. vm_compute. reflexivity. Qed.

End ExtractAll.

(** ** The groups of a match *)

Section GroupFacts.
Import Re.
Variable fl : flags.


(** The matcher with its groups: when [go] succeeds, the pattern accepts a
    prefix of what was left, and the continuation succeeded after it with
    the groups of that way through the pattern. *)
Lemma go_captures {R} (r : regex) :
  forall pos rest caps (k : nat -> str -> captures -> option R) x,
    go fl r pos rest caps k = Some x ->
    exists w rest' caps',
      rest = w ++ rest' /\ accepts_caps fl r pos w rest' caps caps' /\
      k (pos + length w) rest' caps' = Some x.
Proof.
  induction r as [|a|r1 IH1 r2 IH2|r1 IH1 r2 IH2|g lo hi a|g r IH|n r IH| |];
    intros pos rest caps k x H; simpl in H.
  - exists [], rest, caps. simpl. rewrite Nat.add_0_r.
    repeat split; auto. constructor.
  - destruct rest as [|c rest]; [discriminate|].
    destruct (atom_matches fl a c) eqn:E; [|discriminate].
    exists [c], rest, caps. simpl.
    replace (pos + 1) with (S pos) by lia.
    repeat split; auto. constructor. exact E.
  - apply IH1 in H as (w1 & rest1 & caps1 & E1 & A1 & H).
    apply IH2 in H as (w2 & rest2 & caps2 & E2 & A2 & H).
    exists (w1 ++ w2), rest2, caps2. subst.
    rewrite <- app_assoc, length_app, Nat.add_assoc.
    repeat split; auto. econstructor; eauto.
  - destruct (go fl r1 pos rest caps k) eqn:E.
    + injection H as <-.
      apply IH1 in E as (w & rest' & caps' & ? & ? & ?).
      exists w, rest', caps'. repeat split; auto. apply ac_alt_l; auto.
    + apply IH2 in H as (w & rest' & caps' & ? & ? & ?).
      exists w, rest', caps'. repeat split; auto. apply ac_alt_r; auto.
  - apply rep_sound in H as (w & rest' & E & F & L & U & K).
    exists w, rest', caps. repeat split; auto. constructor; auto.
  - assert (None_case : forall y, k pos rest caps = Some y ->
      exists w rest' caps',
        rest = w ++ rest' /\ accepts_caps fl (Opt g r) pos w rest' caps caps' /\
        k (pos + length w) rest' caps' = Some y).
    { intros y Hk. exists [], rest, caps. simpl. rewrite Nat.add_0_r.
      repeat split; auto. apply ac_opt_none. }
    assert (Some_case : forall y, go fl r pos rest caps k = Some y ->
      exists w rest' caps',
        rest = w ++ rest' /\ accepts_caps fl (Opt g r) pos w rest' caps caps' /\
        k (pos + length w) rest' caps' = Some y).
    { intros y Hg. apply IH in Hg as (w & rest' & caps' & ? & ? & ?).
      exists w, rest', caps'. repeat split; auto. apply ac_opt_some; auto. }
    destruct g.
    + destruct (go fl r pos rest caps k) eqn:E.
      * injection H as <-. auto.
      * auto.
    + destruct (k pos rest caps) eqn:E.
      * injection H as <-. auto.
      * auto.
  - apply IH in H as (w & rest' & caps' & ? & ? & ?).
    exists w, rest', ((n, (pos, pos + length w)) :: caps').
    repeat split; auto. constructor; auto.
  - destruct (Nat.eqb pos 0) eqn:E; [|discriminate].
    apply Nat.eqb_eq in E. subst.
    exists [], rest, caps. repeat split; auto. constructor.
  - assert (E : rest = [] \/ rest = [10%N]).
    { destruct rest as [|c [|? ?]]; auto; try discriminate.
      destruct (char_eqb c 10%N) eqn:Ec; [|discriminate].
      apply char_eqb_eq in Ec. subst. auto. }
    assert (Hk : k pos rest caps = Some x).
    { destruct E as [-> | ->]; auto. }
    exists [], rest, caps. simpl. rewrite Nat.add_0_r.
    repeat split; auto. constructor. exact E.
Qed.

(** Forgetting the groups. *)
Lemma accepts_caps_accepts r pos w rest caps caps' :
  accepts_caps fl r pos w rest caps caps' -> accepts fl r pos w rest.
Proof.
  induction 1; econstructor; eauto; fail.
Qed.

(** A pattern without groups leaves the groups as they are. *)
Lemma accepts_caps_no_groups r pos w rest caps caps' :
  accepts_caps fl r pos w rest caps caps' -> groups_of r = [] -> caps' = caps.
Proof.
  induction 1; simpl; intros G; auto; try discriminate.
  - apply app_eq_nil in G as [G1 G2]. rewrite IHaccepts_caps2 by assumption.
    auto.
  - apply app_eq_nil in G as [G1 G2]. auto.
  - apply app_eq_nil in G as [G1 G2]. auto.
Qed.


Lemma match_at_captures (r : regex) (s : str) (pos : nat) (rest : str) m :
  match_at fl r s pos rest = Some m ->
  exists w rest',
    rest = w ++ rest' /\ accepts_caps fl r pos w rest' [] (m_caps m) /\
    m_string m = s /\ m_start m = pos /\ m_end m = pos + length w.
Proof.
  unfold match_at. intros H.
  apply go_captures in H as (w & rest' & caps' & E & A & H).
  injection H as <-. exists w, rest'. simpl. auto.
Qed.

Lemma search_from_captures (r : regex) (s : str) (rest : str) :
  forall pos m,
    search_from fl r s pos rest = Some m ->
    exists skipped w rest',
      rest = skipped ++ w ++ rest' /\
      accepts_caps fl r (pos + length skipped) w rest' [] (m_caps m) /\
      m_string m = s /\ m_start m = pos + length skipped /\
      m_end m = pos + length skipped + length w.
Proof.
  induction rest as [|c rest IH]; intros pos m H; simpl in H.
  - destruct (match_at fl r s pos []) eqn:E; [|discriminate].
    injection H as <-.
    apply match_at_captures in E as (w & rest' & E & A & ? & ? & ?).
    exists [], w, rest'. simpl. rewrite Nat.add_0_r. auto.
  - destruct (match_at fl r s pos (c :: rest)) eqn:E.
    + injection H as <-.
      apply match_at_captures in E as (w & rest' & E & A & ? & ? & ?).
      exists [], w, rest'. simpl. rewrite Nat.add_0_r. auto.
    + destruct (IH _ _ H) as (sk & w & rest' & E1 & A & ? & ? & ?).
      exists (c :: sk), w, rest'. simpl.
      replace (pos + S (length sk)) with (S pos + length sk) by lia.
      subst rest. auto.
Qed.

(** [re.search] with its groups. *)
Lemma search_captures (r : regex) (s : str) m :
  Re.search r s fl = Some m ->
  exists pre w post,
    s = pre ++ w ++ post /\
    accepts_caps fl r (length pre) w post [] (m_caps m) /\
    m_string m = s /\ m_start m = length pre /\
    m_end m = length pre + length w.
Proof.
  unfold Re.search. intros H.
  apply search_from_captures in H.
  destruct H as (sk & w & rest' & ? & ? & ? & ? & ?).
  exists sk, w, rest'. auto.
Qed.

Lemma slice_middle (pre w post : str) :
  slice (length pre) (length pre + length w) (pre ++ w ++ post) = w.
Proof.
  unfold slice.
  replace (length pre + length w - length pre) with (length w) by lia.
  change (take (length w) (drop (length pre) (pre ++ w ++ post)) = w).
  rewrite drop_app_length. apply take_app_length.
Qed.



End GroupFacts.

Section GroupInversion.
Import Re.
Variable fl : flags.

Lemma accepts_caps_cat_inv r1 r2 pos w rest caps caps2 :
  accepts_caps fl (Cat r1 r2) pos w rest caps caps2 ->
  exists w1 w2 caps1,
    w = w1 ++ w2 /\ accepts_caps fl r1 pos w1 (w2 ++ rest) caps caps1 /\
    accepts_caps fl r2 (pos + length w1) w2 rest caps1 caps2.
Proof. intros H. inversion H; subst. eauto 7. Qed.

Lemma accepts_caps_eps_inv pos w rest caps caps' :
  accepts_caps fl Eps pos w rest caps caps' -> w = [] /\ caps' = caps.
Proof. intros H. inversion H; subst. auto. Qed.

Lemma accepts_caps_grp_inv n r pos w rest caps caps2 :
  accepts_caps fl (Grp n r) pos w rest caps caps2 ->
  exists caps1,
    caps2 = (n, (pos, pos + length w)) :: caps1 /\
    accepts_caps fl r pos w rest caps caps1.
Proof. intros H. inversion H; subst. eauto. Qed.

Lemma accepts_caps_rep_inv g lo hi a pos w rest caps caps' :
  accepts_caps fl (Rep g lo hi a) pos w rest caps caps' ->
  caps' = caps /\ forallb (atom_matches fl a) w = true /\ lo <= length w /\
  within hi (length w).
Proof. intros H. inversion H; subst. auto. Qed.

Lemma groups_of_lit (s : str) : groups_of (lit s) = [].
Proof. induction s; simpl; auto. Qed.

Lemma accepts_caps_lit_inv (s : str) pos w rest caps caps' :
  accepts_caps fl (lit s) pos w rest caps caps' ->
  caps' = caps /\ accepts fl (lit s) pos w rest.
Proof.
  intros H. split.
  - eapply accepts_caps_no_groups; eauto. apply groups_of_lit.
  - eapply accepts_caps_accepts; eauto.
Qed.

End GroupInversion.

Lemma slice_at (pre w post s : str) (a b : nat) :
  s = pre ++ w ++ post -> a = length pre -> b = a + length w ->
  slice a b s = w.
Proof. intros -> -> ->. apply slice_middle. Qed.

Section LinkFacts.
Import Re PyDict Bs4 IPOIndexBuilder.

Lemma forallb_not_In {A} (f : A -> bool) (x : A) (w : list A) :
  f x = false -> forallb f w = true -> ~ In x w.
Proof.
  intros Hx H Hin. rewrite forallb_forall in H. apply H in Hin. congruence.
Qed.

(** What the pattern of the links gives: the groups are the slug and the
    id, in the shape "/ipo/<slug>/<id>" inside the reference. *)
Lemma link_pattern_groups (href : str) m :
  Re.search link_pattern href NOFLAGS = Some m ->
  exists pre post,
    href = pre ++ (txt "/ipo/" ++ group_str 1 m ++ txt "/" ++ group_str 2 m)
               ++ post /\
    group_str 1 m <> [] /\ ~ In 47%N (group_str 1 m) /\
    group_str 2 m <> [] /\ forallb isdigit (group_str 2 m) = true.
Proof.
  intros H.
  apply search_captures in H as (pre & w & post & Hs & A & Hstr & _).
  unfold link_pattern, seq in A. cbn [fold_right] in A.
  apply accepts_caps_cat_inv in A as (w0 & wa & caps0 & -> & A0 & A).
  apply accepts_caps_lit_inv in A0 as [-> A0].
  apply accepts_lit_exact in A0. subst w0.
  apply accepts_caps_cat_inv in A as (w1 & wb & caps1 & -> & A1 & A).
  apply accepts_caps_grp_inv in A1 as (caps1' & -> & A1).
  apply accepts_caps_rep_inv in A1 as (-> & F1 & L1 & _).
  apply accepts_caps_cat_inv in A as (ws & wc & caps2 & -> & As & A).
  apply accepts_caps_lit_inv in As as [-> As].
  apply accepts_lit_exact in As. subst ws.
  apply accepts_caps_cat_inv in A as (w2 & wd & caps3 & -> & A2 & A).
  apply accepts_caps_grp_inv in A2 as (caps2' & -> & A2).
  apply accepts_caps_rep_inv in A2 as (-> & F2 & L2 & _).
  apply accepts_caps_eps_inv in A as [-> A].
  assert (G1 : group_str 1 m = w1).
  { unfold group_str, group. rewrite A. simpl cap_lookup. cbn [fmap option_fmap option_map default fst snd].
    rewrite Hstr.
    apply (slice_at (pre ++ txt "/ipo/") w1 (txt "/" ++ w2 ++ post)).
    - rewrite Hs. repeat rewrite <- app_assoc. simpl. rewrite ?app_nil_r.
      reflexivity.
    - rewrite length_app. reflexivity.
    - reflexivity. }
  assert (G2 : group_str 2 m = w2).
  { unfold group_str, group. rewrite A. simpl cap_lookup. cbn [fmap option_fmap option_map default fst snd].
    rewrite Hstr.
    apply (slice_at (pre ++ txt "/ipo/" ++ w1 ++ txt "/") w2 post).
    - rewrite Hs. repeat rewrite <- app_assoc. simpl. rewrite ?app_nil_r.
      reflexivity.
    - rewrite !length_app. simpl. lia.
    - reflexivity. }
  rewrite G1, G2. exists pre, post.
  split; [rewrite Hs, app_nil_r; reflexivity|].
  split; [destruct w1; [simpl in L1; lia|discriminate]|].
  split.
  { eapply forallb_not_In; [|exact F1]. reflexivity. }
  split; [destruct w2; [simpl in L2; lia|discriminate]|].
  exact F2.
Qed.

End LinkFacts.

Section IndexFacts.
Import Re PyDict Bs4 IPOIndexBuilder.

Lemma extract_company_from_link_sound_record (link_tag : node) (c : company) :
  extract_company_from_link link_tag = Some c ->
  exists href,
    text_attr "href" link_tag = Some href /\ link_record href c.
Proof.
  unfold extract_company_from_link.
  destruct (text_attr "href" link_tag) as [href|]; [|discriminate].
  destruct (Re.search link_pattern href NOFLAGS) as [m|] eqn:Em;
    [|discriminate].
  destruct (link_pattern_groups href m Em) as (pre & post & Hs & S1 & S2 & I1 & I2).
  destruct (if is_empty _ then _ else _) as [name|]; [|discriminate].
  destruct (negb (is_empty name) && negb (is_empty (group_str 1 m))
            && negb (is_empty (group_str 2 m))) eqn:E; [|discriminate].
  apply andb_true_iff in E as [E _]. apply andb_true_iff in E as [En _].
  intros [= <-]. exists href. split; [reflexivity|].
  exists pre, post, name, (group_str 1 m), (group_str 2 m).
  repeat split; auto.
  destruct name; [discriminate En|discriminate].
Qed.




Lemma existsb_str_In (x : str) (l : list str) :
  existsb (str_eqb x) l = true <-> In x l.
Proof.
  rewrite existsb_exists. split.
  - intros (y & Hy & E). apply str_eqb_eq in E. subst. exact Hy.
  - intros H. exists x. split; [exact H|apply str_eqb_refl].
Qed.

Lemma id_of_set_category (v : pyval) (c : company) :
  id_of (set (txt "category") v c) = id_of c.
Proof.
  unfold id_of. rewrite get_set_ne by (vm_compute; discriminate). reflexivity.
Qed.

Lemma first_with_id_cons (i : str) (c : company) (cs : list company) :
  first_with_id i (c :: cs)
  = if str_eqb (id_of c) i then Some c else first_with_id i cs.
Proof. reflexivity. Qed.

Lemma scrape_links_spec (category_name : str) (links : list node) :
  forall seen,
    exists cs,
      scrape_links category_name seen links = Ok cs /\
      List.NoDup (map id_of cs) /\
      forall c, In c cs <->
        (~ In (id_of c) seen /\
         exists c0,
           first_with_id (id_of c) (link_companies links) = Some c0 /\
           c = set (txt "category") (VStr category_name) c0).
Proof.
  induction links as [|link links IH]; intros seen; cbn [scrape_links].
  - exists []. split; [reflexivity|]. split; [constructor|].
    intros c. simpl. split; [tauto|]. intros (_ & c0 & H & _). discriminate.
  - cbn [link_companies].
    destruct (extract_company_from_link link) as [c0|] eqn:E; [|apply IH].
    pose proof (extract_company_has_id link c0 E) as Hc0.
    rewrite (text_item_id c0 Hc0). cbn [rbind].
    destruct (existsb (str_eqb (id_of c0)) seen) eqn:Hseen; cbn [negb].
    + apply existsb_str_In in Hseen.
      destruct (IH seen) as (cs & -> & N & M).
      exists cs. split; [reflexivity|]. split; [exact N|].
      intros c. rewrite M, first_with_id_cons.
      destruct (str_eqb (id_of c0) (id_of c)) eqn:Eid; [|tauto].
      apply str_eqb_eq in Eid. rewrite <- Eid.
      split; intros [Hn _]; contradiction.
    + assert (Hn : ~ In (id_of c0) seen).
      { intros Hin. apply existsb_str_In in Hin. congruence. }
      destruct (IH (id_of c0 :: seen)) as (cs & -> & N & M). cbn [rbind].
      eexists. split; [reflexivity|]. split.
      * cbn [map]. constructor; [|exact N].
        rewrite id_of_set_category. intros Hin.
        apply in_map_iff in Hin as (c & Ec & Hc).
        apply M in Hc as [Hc _]. apply Hc. left. symmetry. exact Ec.
      * intros c. rewrite first_with_id_cons. split.
        -- intros [<- | Hc].
           ++ rewrite id_of_set_category, str_eqb_refl. eauto.
           ++ apply M in Hc as (Hns & c1 & F & ->).
              destruct (str_eqb (id_of c0) _) eqn:Eid.
              ** apply str_eqb_eq in Eid. exfalso. apply Hns. left. exact Eid.
              ** split; [|eauto]. intros Hin. apply Hns. right. exact Hin.
        -- intros (Hns & c1 & F & ->).
           destruct (str_eqb (id_of c0) _) eqn:Eid.
           ++ injection F as <-. left. reflexivity.
           ++ right. apply M. split; [|eauto].
              intros [Heq | Hin]; [|contradiction].
              rewrite Heq, str_eqb_refl in Eid. discriminate.
Qed.

(** X10: Within one listing page the first link of an id wins: the loop over the
    links never raises, it returns each id once, and the record of an id
    not seen before is the one of the first link with that id, with the
    category of the page put on it. *)
Theorem scrape_links_first_wins (category_name : str) (links : list node) :
  forall seen,
    exists cs,
      scrape_links category_name seen links = Ok cs /\
      List.NoDup (map id_of cs) /\
      forall c, In c cs <->
        (~ In (id_of c) seen /\
         exists c0,
           first_with_id (id_of c) (link_companies links) = Some c0 /\
           c = set (txt "category") (VStr category_name) c0).
Proof. exact (scrape_links_spec category_name links). Qed.


Lemma index_record_weaken (cats cats' : list str) (c : company) :
  incl cats cats' -> index_record cats c -> index_record cats' c.
Proof.
  intros Hi (name & slug & id & cat & E & ? & ? & ? & ? & Hc).
  exists name, slug, id, cat. repeat split; auto.
Qed.

Lemma scrape_links_records (category_name : str) (links : list node) :
  forall seen cs,
    scrape_links category_name seen links = Ok cs ->
    Forall (index_record [category_name]) cs.
Proof.
  intros seen cs H.
  destruct (scrape_links_spec category_name links seen)
    as (cs' & E & _ & M).
  rewrite H in E. injection E as <-.
  apply List.Forall_forall. intros c Hc.
  apply M in Hc as (_ & c0 & F & ->).
  apply find_some in F as [Hin _].
  assert (L : exists link, extract_company_from_link link = Some c0).
  { clear -Hin. induction links as [|link links IH]; simpl in Hin; [tauto|].
    destruct (extract_company_from_link link) eqn:E; [|auto].
    destruct Hin as [-> | Hin]; eauto. }
  destruct L as (link & L).
  apply extract_company_from_link_sound_record in L
    as (href & _ & pre & post & raw & slug & id & _ & ? & ? & ? & ? & _ & ->).
  exists (strip raw), slug, id, category_name.
  split; [reflexivity|]. repeat split; auto. left. reflexivity.
Qed.

Lemma scrape_all_records (fetch_page : str -> option node)
    (categories : list (str * str)) :
  forall cs,
    scrape_all fetch_page categories = Ok cs ->
    Forall (index_record (map fst categories)) cs.
Proof.
  induction categories as [|[name path] categories IH]; intros cs; simpl.
  - intros [= <-]. constructor.
  - destruct (scrape_category fetch_page name path) as [cs1|] eqn:E1;
      [|discriminate].
    destruct (scrape_all fetch_page categories) as [cs2|]; [|discriminate].
    simpl. intros [= <-]. apply Forall_app. split.
    + unfold scrape_category in E1.
      destruct (fetch_page _).
      * apply scrape_links_records in E1.
        eapply List.Forall_impl; [|exact E1]. intros c.
        apply index_record_weaken. intros x [<- | []]. left. reflexivity.
      * injection E1 as <-. constructor.
    + eapply List.Forall_impl; [|apply IH; reflexivity]. intros c.
      apply index_record_weaken. intros x Hx. right. exact Hx.
Qed.

Lemma index_record_id (cats : list str) (c : company) :
  index_record cats c -> has_text_id c.
Proof. intros (name & slug & id & cat & -> & _). exists id. reflexivity. Qed.

Lemma index_record_name (cats : list str) (c : company) :
  index_record cats c -> has_text_name c.
Proof. intros (name & slug & id & cat & -> & _). exists name. reflexivity. Qed.

Lemma build_index_schema (fetch_page : str -> option node) :
  exists unique,
    build_index fetch_page = Ok unique /\
    List.NoDup (map id_of unique) /\
    Forall (index_record (map fst CATEGORIES)) unique.
Proof.
  destruct (build_index_unique fetch_page) as (all & unique & E & B & N & L).
  exists unique. split; [exact B|]. split; [exact N|].
  apply scrape_all_records in E.
  apply List.Forall_forall. intros c Hc.
  apply L, last_with_id_In in Hc as [Hc _].
  rewrite List.Forall_forall in E. apply E, Hc.
Qed.

(** X11: Whatever the network gives, [build_index] returns a collection without
    raising; it holds each id once, and each record has the five items
    [name], [slug], [id], [url] and [category], all texts: the slug has no
    slash, the id is made of digits, the address is the site followed by
    "/ipo/<slug>/<id>", and the category is one of the three listing
    pages. *)
Theorem build_index_records (fetch_page : str -> option node) :
  exists unique,
    build_index fetch_page = Ok unique /\
    List.NoDup (map id_of unique) /\
    Forall (index_record (map fst CATEGORIES)) unique.
Proof. exact (build_index_schema fetch_page). Qed.

End IndexFacts.

(** ** Looking a company up in the collection *)

Section LookupFacts.
Import PyDict IPOIndexBuilder IPOSearchEngine.

Lemma item_is_id (i : str) (c : company) :
  has_text_id c -> item_is "id" i c = Ok (str_eqb (id_of c) i).
Proof. intros [s H]. unfold item_is, id_of. rewrite H. reflexivity. Qed.

Lemma item_is_slug (s : str) (c : company) :
  has_text_slug c -> item_is "slug" s c = Ok (str_eqb (slug_of c) s).
Proof. intros [t H]. unfold item_is, slug_of. rewrite H. reflexivity. Qed.

(** The two classes look a company up in the same way. *)
Lemma search_by_id_builder : search_by_id = get_company_by_id.
Proof. reflexivity. Qed.

Lemma search_by_slug_builder : search_by_slug = get_company_by_slug.
Proof. reflexivity. Qed.

(** On records with a text id, the lookup gives the first record with the
    id. *)
Lemma get_company_by_id_first (companies : list company) (i : str) :
  Forall has_text_id companies ->
  get_company_by_id companies i = Ok (first_with_id i companies).
Proof.
  induction 1 as [|c companies Hc Hall IH]; [reflexivity|].
  cbn [get_company_by_id]. rewrite (item_is_id i c Hc). cbn [rbind].
  rewrite first_with_id_cons.
  destruct (str_eqb (id_of c) i); [reflexivity|exact IH].
Qed.

Lemma get_company_by_slug_first (companies : list company) (s : str) :
  Forall has_text_slug companies ->
  get_company_by_slug companies s = Ok (first_with_slug s companies).
Proof.
  induction 1 as [|c companies Hc Hall IH]; [reflexivity|].
  cbn [get_company_by_slug]. rewrite (item_is_slug s c Hc). cbn [rbind].
  unfold first_with_slug. cbn [List.find].
  destruct (str_eqb (slug_of c) s); [reflexivity|exact IH].
Qed.

Lemma first_with_id_unique (companies : list company) (c : company) :
  List.NoDup (map id_of companies) -> In c companies ->
  first_with_id (id_of c) companies = Some c.
Proof.
  induction companies as [|c0 companies IH]; [intros _ []|].
  cbn [map]. intros N Hin. inversion N as [|? ? Hn N']; subst.
  rewrite first_with_id_cons.
  destruct Hin as [-> | Hin]; [rewrite str_eqb_refl; reflexivity|].
  destruct (str_eqb (id_of c0) (id_of c)) eqn:E; [|auto].
  apply str_eqb_eq in E. exfalso. apply Hn. rewrite E.
  apply in_map. exact Hin.
Qed.

Lemma first_with_id_none (companies : list company) (i : str) :
  ~ In i (map id_of companies) -> first_with_id i companies = None.
Proof.
  intros Hn. unfold first_with_id.
  destruct (List.find _ companies) as [c|] eqn:E; [|reflexivity].
  apply find_some in E as [Hin E]. apply str_eqb_eq in E.
  exfalso. apply Hn. rewrite <- E. apply in_map. exact Hin.
Qed.

Lemma index_record_slug (cats : list str) (c : company) :
  index_record cats c -> has_text_slug c.
Proof. intros (name & slug & id & cat & -> & _). exists slug. reflexivity. Qed.

(** X12: Build, then look up: in the collection that [build_index] returns,
    looking up the id of a record gives back that very record, from the
    builder and from the search engine alike; an id that is not in the
    collection gives [None]; and looking up the slug of a record gives a
    record with that slug. *)
Theorem build_index_lookup (fetch_page : str -> option Bs4.node) :
  exists unique,
    build_index fetch_page = Ok unique /\
    (forall c, In c unique ->
       get_company_by_id unique (id_of c) = Ok (Some c) /\
       search_by_id unique (id_of c) = Ok (Some c) /\
       exists c', get_company_by_slug unique (slug_of c) = Ok (Some c') /\
                  search_by_slug unique (slug_of c) = Ok (Some c') /\
                  slug_of c' = slug_of c) /\
    (forall i, ~ In i (map id_of unique) ->
       get_company_by_id unique i = Ok None /\
       search_by_id unique i = Ok None).
Proof.
  destruct (build_index_schema fetch_page) as (unique & E & N & R).
  exists unique. split; [exact E|].
  assert (Hid : Forall has_text_id unique).
  { eapply List.Forall_impl; [|exact R]. intros c. apply index_record_id. }
  assert (Hslug : Forall has_text_slug unique).
  { eapply List.Forall_impl; [|exact R]. intros c. apply index_record_slug. }
  split.
  - intros c Hc.
    change search_by_id with get_company_by_id.
    rewrite (get_company_by_id_first unique (id_of c) Hid).
    rewrite first_with_id_unique by assumption.
    split; [reflexivity|]. split; [reflexivity|].
    assert (F : exists c', first_with_slug (slug_of c) unique = Some c').
    { unfold first_with_slug.
      destruct (List.find _ unique) as [c'|] eqn:F; [eauto|].
      exfalso. pose proof (find_none _ _ F c Hc) as H. simpl in H.
      rewrite str_eqb_refl in H. discriminate. }
    destruct F as (c' & F). exists c'.
    change search_by_slug with get_company_by_slug.
    rewrite (get_company_by_slug_first unique (slug_of c) Hslug), F.
    split; [reflexivity|]. split; [reflexivity|].
    apply find_some in F as [_ F]. apply str_eqb_eq in F. exact F.
  - intros i Hi. change search_by_id with get_company_by_id.
    rewrite (get_company_by_id_first unique i Hid).
    rewrite first_with_id_none by assumption. auto.
Qed.

(** A listing page with two links to the company 123: the first link gives
    the record, the category is that of the page, and the lookup finds
    it. *)
Lemma build_index_example :
  build_index one_page
  = Ok [ set (txt "category") (VStr (txt "mainboard")) acme_company ] /\
  get_company_by_id
    [ set (txt "category") (VStr (txt "mainboard")) acme_company ] (txt "123")
  = Ok (Some (set (txt "category") (VStr (txt "mainboard")) acme_company)).
Proof. split; vm_compute; reflexivity. Qed.

(** X13: Build, then search: on the collection that [build_index] returns,
    [search] never raises, whatever the query, the limit and the minimum
    score. *)
Theorem build_index_search_total (fetch_page : str -> option Bs4.node)
    (query : str) (limit : Z) (min_score : Q) :
  exists unique results,
    build_index fetch_page = Ok unique /\
    search unique query limit min_score = Ok results.
Proof.
  destruct (build_index_schema fetch_page) as (unique & E & _ & R).
  exists unique.
  destruct query as [|q0 query].
  - exists []. split; [exact E|]. reflexivity.
  - eexists. split; [exact E|]. apply search_ranked; [discriminate|].
    eapply List.Forall_impl; [|exact R]. intros c. apply index_record_name.
Qed.

End LookupFacts.

(** ** The similarity ratio lies between 0 and 1 *)

Section DifflibRange.
Import Difflib.

Lemma row_inv_b (i blo bhi : nat) (j2len : list (nat * nat)) (js : list nat) :
  row_bound_b blo j2len ->
  forall newj2len bst,
    row_bound_b blo newj2len -> in_brange blo bhi bst ->
    row_bound_b blo (fst (row i blo bhi j2len js newj2len bst)) /\
    in_brange blo bhi (snd (row i blo bhi j2len js newj2len bst)).
Proof.
  intros Hprev.
  induction js as [|j js IH]; intros newj2len bst Hnew Hbst; simpl.
  - auto.
  - destruct (j <? blo) eqn:Elo; [apply IH; assumption|].
    destruct (bhi <=? j) eqn:Ehi; [simpl; auto|].
    apply Nat.ltb_ge in Elo. apply Nat.leb_gt in Ehi.
    set (k := match j with O => 1 | S j1 => j2len_get j2len j1 + 1 end).
    assert (Hk : 1 <= k <= j + 1 - blo).
    { unfold k. destruct j as [|j1]; [lia|].
      specialize (Hprev j1). lia. }
    destruct bst as [[besti bestj] bestsize].
    apply IH.
    + intros j'. simpl. destruct (Nat.eqb j' j) eqn:Ej; [|apply Hnew].
      apply Nat.eqb_eq in Ej. subst j'. lia.
    + destruct (bestsize <? k); [|exact Hbst].
      simpl. lia.
Qed.

Lemma rows_inv_b (a b : str) (blo bhi : nat) (is_ : list nat) :
  forall j2len bst,
    row_bound_b blo j2len -> in_brange blo bhi bst ->
    in_brange blo bhi (rows a b blo bhi is_ j2len bst).
Proof.
  induction is_ as [|i is_ IH]; intros j2len bst Hrow Hbst; simpl;
    [exact Hbst|].
  destruct (row_inv_b i blo bhi j2len (b2j b (at_ a i)) Hrow [] bst)
    as [R B].
  { intros j. simpl. lia. }
  { exact Hbst. }
  destruct (row i blo bhi j2len (b2j b (at_ a i)) [] bst) as [newj2len bst'].
  simpl in R, B. apply IH; assumption.
Qed.

Lemma extend_left_inv_b (a b : str) (alo blo bhi : nat) (besti : nat) :
  forall bestj bestsize,
    in_brange blo bhi (besti, bestj, bestsize) ->
    in_brange blo bhi (extend_left a b alo blo besti bestj bestsize).
Proof.
  induction besti as [|i1 IH]; intros bestj bestsize H; simpl; [exact H|].
  destruct ((alo <? S i1) && (blo <? bestj)
            && char_eqb (at_ a i1) (at_ b (bestj - 1))) eqn:E; [|exact H].
  apply IH. simpl in H |- *.
  apply andb_true_iff in E as [E _]. apply andb_true_iff in E as [_ E].
  apply Nat.ltb_lt in E. lia.
Qed.

Lemma extend_right_inv_b (a b : str) (ahi bhi besti bestj : nat) (n : nat) :
  forall bestsize,
    bestj + bestsize <= bhi ->
    bestj + extend_right a b ahi bhi besti bestj n bestsize <= bhi.
Proof.
  induction n as [|n IH]; intros bestsize H; simpl; [exact H|].
  destruct ((besti + bestsize <? ahi) && (bestj + bestsize <? bhi)
            && char_eqb (at_ a (besti + bestsize)) (at_ b (bestj + bestsize)))
    eqn:E; [|exact H].
  apply IH.
  apply andb_true_iff in E as [E _]. apply andb_true_iff in E as [_ E].
  apply Nat.ltb_lt in E. lia.
Qed.

Lemma find_longest_match_inv_b (a b : str) (alo ahi blo bhi : nat) :
  blo <= bhi ->
  in_brange blo bhi (find_longest_match a b alo ahi blo bhi).
Proof.
  intros H. unfold find_longest_match.
  pose proof (rows_inv_b a b blo bhi (seq alo (ahi - alo)) [] (alo, blo, 0))
    as R.
  destruct (rows a b blo bhi (seq alo (ahi - alo)) [] (alo, blo, 0))
    as [[besti bestj] bestsize].
  assert (R' : in_brange blo bhi (besti, bestj, bestsize)).
  { apply R.
    - intros j. simpl. lia.
    - simpl. lia. }
  pose proof (extend_left_inv_b a b alo blo bhi besti bestj bestsize R') as L.
  destruct (extend_left a b alo blo besti bestj bestsize)
    as [[besti' bestj'] bestsize'].
  simpl in L |- *. split; [lia|].
  apply extend_right_inv_b. lia.
Qed.

(** The blocks lie side by side in both ranges, so their total size is at
    most the length of either range. *)
Lemma matched_le (a b : str) (fuel : nat) :
  forall alo ahi blo bhi,
    alo <= ahi -> blo <= bhi ->
    matched fuel a b alo ahi blo bhi <= ahi - alo /\
    matched fuel a b alo ahi blo bhi <= bhi - blo.
Proof.
  induction fuel as [|fuel IH]; intros alo ahi blo bhi Ha Hb; simpl;
    [lia|].
  pose proof (find_longest_match_inv a b alo ahi blo bhi Ha) as A.
  pose proof (find_longest_match_inv_b a b alo ahi blo bhi Hb) as B.
  destruct (find_longest_match a b alo ahi blo bhi) as [[i j] k].
  simpl in A, B.
  destruct (Nat.eqb k 0); [lia|].
  assert (L : (if (alo <? i) && (blo <? j)
               then matched fuel a b alo i blo j else 0) <= i - alo /\
              (if (alo <? i) && (blo <? j)
               then matched fuel a b alo i blo j else 0) <= j - blo).
  { destruct ((alo <? i) && (blo <? j)); [apply IH; lia|lia]. }
  assert (Rt : (if (i + k <? ahi) && (j + k <? bhi)
                then matched fuel a b (i + k) ahi (j + k) bhi else 0)
               <= ahi - (i + k) /\
               (if (i + k <? ahi) && (j + k <? bhi)
                then matched fuel a b (i + k) ahi (j + k) bhi else 0)
               <= bhi - (j + k)).
  { destruct ((i + k <? ahi) && (j + k <? bhi)); [apply IH; lia|lia]. }
  lia.
Qed.

Lemma matches_le (a b : str) :
  matches a b <= length a /\ matches a b <= length b.
Proof.
  unfold matches.
  destruct (matched_le a b (length a) 0 (length a) 0 (length b)); lia.
Qed.

Lemma ratio_range (a b : str) : (0 <= ratio a b <= 1)%Q.
Proof.
  unfold ratio. destruct (length a + length b) as [|n] eqn:E.
  - split; unfold Qle; simpl; lia.
  - pose proof (matches_le a b) as [Ha Hb].
    split; unfold Qle; cbn [Qnum Qden inject_Z];
      rewrite <- Pos.of_nat_succ, Zpos_P_of_succ_nat; lia.
Qed.

End DifflibRange.

(** ** The order of texts and [sorted] *)

Section SortedFacts.

Lemma str_ltb_irrefl (a : str) : str_ltb a a = false.
Proof.
  induction a as [|x a IH]; simpl; [reflexivity|].
  rewrite N.ltb_irrefl, N.eqb_refl, IH. reflexivity.
Qed.

Lemma str_ltb_trans (a : str) :
  forall b c, str_ltb a b = true -> str_ltb b c = true -> str_ltb a c = true.
Proof.
  induction a as [|x a IH]; intros [|y b] [|z c]; simpl; auto;
    try discriminate.
  intros H1 H2.
  apply orb_true_iff in H1. apply orb_true_iff in H2. apply orb_true_iff.
  destruct H1 as [H1 | H1], H2 as [H2 | H2].
  - left. apply N.ltb_lt in H1, H2. apply N.ltb_lt. lia.
  - apply andb_true_iff in H2 as [E _]. apply N.eqb_eq in E. subst. auto.
  - apply andb_true_iff in H1 as [E _]. apply N.eqb_eq in E. subst. auto.
  - apply andb_true_iff in H1 as [E1 H1]. apply andb_true_iff in H2 as [E2 H2].
    apply N.eqb_eq in E1, E2. subst. right.
    rewrite N.eqb_refl. simpl. eauto.
Qed.

Lemma str_ltb_total (a : str) :
  forall b, str_ltb a b = false -> str_ltb b a = false -> a = b.
Proof.
  induction a as [|x a IH]; intros [|y b]; simpl; auto; try discriminate.
  intros H1 H2.
  apply orb_false_iff in H1 as [L1 H1]. apply orb_false_iff in H2 as [L2 H2].
  apply N.ltb_ge in L1, L2. assert (x = y) by lia. subst y.
  rewrite N.eqb_refl in H1, H2. simpl in H1, H2.
  f_equal. apply IH; assumption.
Qed.

Lemma insert_asc_perm (x : str) (l : list str) :
  Permutation (insert_asc x l) (x :: l).
Proof.
  induction l as [|y l IH]; simpl; [reflexivity|].
  destruct (str_ltb y x); [|reflexivity].
  rewrite IH. apply perm_swap.
Qed.

Lemma sorted_perm (l : list str) : Permutation (sorted l) l.
Proof.
  induction l as [|x l IH]; simpl; [reflexivity|].
  rewrite insert_asc_perm, IH. reflexivity.
Qed.

Lemma insert_asc_ascending (x : str) (l : list str) :
  ~ In x l -> ascending l -> ascending (insert_asc x l).
Proof.
  unfold ascending.
  induction l as [|y l IH]; simpl; intros Hn S.
  - constructor; constructor.
  - inversion S as [|? ? S' F]; subst.
    destruct (str_ltb y x) eqn:E.
    + constructor; [apply IH; tauto|].
      rewrite List.Forall_forall. intros z Hz.
      apply (Permutation_in _ (insert_asc_perm x l)) in Hz.
      destruct Hz as [<-|Hz]; [exact E|].
      rewrite List.Forall_forall in F. apply F, Hz.
    + assert (Hxy : str_ltb x y = true).
      { destruct (str_ltb x y) eqn:E'; [reflexivity|].
        exfalso. apply Hn. left. symmetry. apply str_ltb_total; assumption. }
      constructor; [exact S|].
      constructor; [exact Hxy|].
      rewrite List.Forall_forall in F |- *. intros z Hz.
      eapply str_ltb_trans; [exact Hxy|apply F, Hz].
Qed.

(** [sorted] of distinct texts is strictly ascending. *)
Lemma sorted_ascending (l : list str) : List.NoDup l -> ascending (sorted l).
Proof.
  induction 1 as [|x l Hn N IH]; simpl; [constructor|].
  apply insert_asc_ascending; [|exact IH].
  intros Hin. apply Hn. apply (Permutation_in _ (sorted_perm l)). exact Hin.
Qed.

(** A strictly ascending list is determined by its members: the order in
    which a set hands its members to [sorted] does not matter. *)
Lemma ascending_unique (l : list str) :
  forall l', ascending l -> ascending l' ->
             (forall x, In x l <-> In x l') -> l = l'.
Proof.
  unfold ascending.
  induction l as [|x l IH]; intros [|y l'] S S' M.
  - reflexivity.
  - exfalso. apply (M y). left. reflexivity.
  - exfalso. apply (M x). left. reflexivity.
  - inversion S as [|? ? S1 F]; inversion S' as [|? ? S1' F']; subst.
    rewrite List.Forall_forall in F, F'.
    assert (x = y).
    { destruct (proj1 (M x) (or_introl eq_refl)) as [E | Hx]; [auto|].
      destruct (proj2 (M y) (or_introl eq_refl)) as [E | Hy]; [auto|].
      pose proof (F' _ Hx) as L1. pose proof (F _ Hy) as L2.
      pose proof (str_ltb_trans _ _ _ L1 L2) as L.
      rewrite str_ltb_irrefl in L. discriminate. }
    subst y. f_equal. apply IH; auto.
    intros z. split; intros Hz.
    + destruct (proj1 (M z) (or_intror Hz)) as [E | H]; [|exact H].
      subst z. apply F in Hz. rewrite str_ltb_irrefl in Hz. discriminate.
    + destruct (proj2 (M z) (or_intror Hz)) as [E | H]; [|exact H].
      subst z. apply F' in Hz. rewrite str_ltb_irrefl in Hz. discriminate.
Qed.

End SortedFacts.

(** ** Categories *)

Section CategoryFacts.
Import PyDict IPOSearchEngine.

Lemma collect_categories_spec (companies : list company) :
  Forall category_is_text companies ->
  forall acc, List.NoDup acc ->
    exists cats,
      collect_categories companies acc = Ok cats /\ List.NoDup cats /\
      forall s, In s cats <->
                (In s acc \/
                 exists c, In c companies /\
                           PyDict.get (txt "category") c = Some (VStr s)).
Proof.
  induction 1 as [|c companies Hc Hall IH]; intros acc N.
  - exists acc. split; [reflexivity|]. split; [exact N|].
    intros s. split; [auto|]. intros [H | (c & [] & _)]. exact H.
  - cbn [collect_categories]. unfold mem, text_item.
    destruct Hc as [Hc | [t Hc]]; rewrite Hc.
    + destruct (IH acc N) as (cats & E & Nc & M).
      exists cats. split; [exact E|]. split; [exact Nc|].
      intros s. rewrite M. split.
      * intros [H | (c' & Hin & H)]; [auto|]. right. exists c'. simpl. auto.
      * intros [H | (c' & [<- | Hin] & H)]; [auto|congruence|].
        right. exists c'. auto.
    + cbn [rbind].
      assert (Na : List.NoDup (set_add t acc)).
      { unfold set_add. destruct (existsb (str_eqb t) acc) eqn:Ex; [exact N|].
        apply List.NoDup_app; auto.
        - constructor; [intros []|constructor].
        - intros x Hx [<-|[]]. apply existsb_str_In in Hx. congruence. }
      assert (Ma : forall s, In s (set_add t acc) <-> In s acc \/ s = t).
      { intros s. unfold set_add.
        destruct (existsb (str_eqb t) acc) eqn:Ex.
        - apply existsb_str_In in Ex. split; [auto|].
          intros [H | ->]; assumption.
        - rewrite in_app_iff. simpl. split.
          + intros [H | [H | []]]; auto.
          + intros [H | H]; auto. }
      destruct (IH _ Na) as (cats & E & Nc & M).
      exists cats. split; [exact E|]. split; [exact Nc|].
      intros s. rewrite M, Ma. split.
      * intros [[H | ->] | (c' & Hin & H)]; [auto| |].
        -- right. exists c. simpl. auto.
        -- right. exists c'. simpl. auto.
      * intros [H | (c' & [<- | Hin] & H)]; [auto| |].
        -- left. right. congruence.
        -- right. exists c'. auto.
Qed.

Lemma get_all_categories_listing (companies : list company) :
  Forall category_is_text companies ->
  exists cats,
    get_all_categories companies = Ok cats /\
    ascending cats /\
    (forall s, In s cats <->
               exists c, In c companies /\
                         PyDict.get (txt "category") c = Some (VStr s)) /\
    (forall cats', ascending cats' ->
                   (forall s, In s cats' <-> In s cats) -> cats' = cats).
Proof.
  intros Hall.
  destruct (collect_categories_spec companies Hall []) as (cats & E & N & M);
    [constructor|].
  unfold get_all_categories. rewrite E. cbn [rbind].
  exists (sorted cats). split; [reflexivity|].
  assert (A : ascending (sorted cats)) by (apply sorted_ascending, N).
  split; [exact A|]. split.
  - intros s. split.
    + intros Hs. apply (Permutation_in _ (sorted_perm cats)) in Hs.
      apply M in Hs as [[] | Hs]. exact Hs.
    + intros Hs.
      apply (Permutation_in _ (Permutation_sym (sorted_perm cats))).
      apply M. right. exact Hs.
  - intros cats' A' M'. apply ascending_unique; assumption.
Qed.

(** X19: [get_all_categories]: on records whose category is a text or missing,
    the categories present in the collection, each once, in strictly
    ascending order of code points; there is only one such list, so the
    order in which the set hands out its members does not show. *)
Theorem get_all_categories_exact (companies : list company) :
  Forall category_is_text companies ->
  exists cats,
    get_all_categories companies = Ok cats /\
    ascending cats /\
    (forall s, In s cats <->
               exists c, In c companies /\
                         PyDict.get (txt "category") c = Some (VStr s)) /\
    (forall cats', ascending cats' ->
                   (forall s, In s cats' <-> In s cats) -> cats' = cats).
Proof. exact (get_all_categories_listing companies). Qed.

(** Three companies in two categories. *)
Lemma get_all_categories_exact_witness :
  exists cats,
    get_all_categories [in_category "sme"; in_category "mainboard";
                        in_category "sme"] = Ok cats /\
    ascending cats /\
    (forall s, In s cats <->
               exists c, In c [in_category "sme"; in_category "mainboard";
                               in_category "sme"] /\
                         PyDict.get (txt "category") c = Some (VStr s)) /\
    (forall cats', ascending cats' ->
                   (forall s, In s cats' <-> In s cats) -> cats' = cats).
Proof.
  apply get_all_categories_exact.
  repeat (constructor; [right; eexists; reflexivity|]). constructor.
Defined.


Lemma category_lower_text (c : company) :
  category_is_text c -> category_lower c = Ok (lower (category_text c)).
Proof.
  unfold category_lower, category_text. intros [H | [s H]]; rewrite H;
    reflexivity.
Qed.

(** On records whose category is a text or missing, [search_by_category]
    keeps, in the order of the collection, the records whose category is
    the one asked for once both are put in lower case. *)
Lemma search_by_category_filter (companies : list company) (category : str) :
  Forall category_is_text companies ->
  search_by_category companies category
  = Ok (List.filter
          (fun c => str_eqb (lower (category_text c)) (lower category))
          companies).
Proof.
  induction 1 as [|c companies Hc Hall IH]; [reflexivity|].
  cbn [search_by_category List.filter].
  rewrite (category_lower_text c Hc). cbn [rbind]. rewrite IH.
  destruct (str_eqb _ _); reflexivity.
Qed.

(** X20: Listing the categories, then asking for one of them: every category
    that [get_all_categories] lists has at least one company under
    [search_by_category], and what comes back are exactly the companies
    of the collection whose category is the listed one up to case. *)
Theorem listed_category_has_companies (companies : list company) :
  Forall category_is_text companies ->
  exists cats,
    get_all_categories companies = Ok cats /\
    forall s, In s cats ->
      exists found,
        search_by_category companies s = Ok found /\
        found <> [] /\
        forall c, In c found <->
                  (In c companies /\
                   lower (category_text c) = lower s).
Proof.
  intros Hall.
  destruct (get_all_categories_listing companies Hall) as (cats & E & _ & M).
  exists cats. split; [exact E|]. intros s Hs.
  rewrite (search_by_category_filter companies s Hall).
  eexists. split; [reflexivity|].
  assert (F : forall c,
    In c (List.filter
            (fun c => str_eqb (lower (category_text c)) (lower s)) companies)
    <-> In c companies /\ lower (category_text c) = lower s).
  { intros c. rewrite filter_In. split; intros [H1 H2]; split; auto;
      apply str_eqb_eq; exact H2. }
  split; [|exact F].
  apply M in Hs as (c & Hc & G).
  intros Hnil.
  assert (Hin : In c (List.filter
            (fun c => str_eqb (lower (category_text c)) (lower s)) companies)).
  { apply F. split; [exact Hc|]. unfold category_text. rewrite G.
    reflexivity. }
  rewrite Hnil in Hin. destruct Hin.
Qed.

(** Three companies whose categories differ by case only, or not at all. *)
Lemma listed_category_has_companies_witness :
  exists cats,
    get_all_categories [in_category "SME"; in_category "mainboard";
                        in_category "sme"] = Ok cats /\
    forall s, In s cats ->
      exists found,
        search_by_category [in_category "SME"; in_category "mainboard";
                            in_category "sme"] s = Ok found /\
        found <> [] /\
        forall c, In c found <->
                  (In c [in_category "SME"; in_category "mainboard";
                         in_category "sme"] /\
                   lower (category_text c) = lower s).
Proof.
  apply listed_category_has_companies.
  repeat (constructor; [right; eexists; reflexivity|]). constructor.
Defined.

(** There the listing has "SME" and "sme" apart, capitals first, and each
    of the two finds both companies. *)
Lemma category_listing_example :
  get_all_categories [in_category "SME"; in_category "mainboard";
                      in_category "sme"]
  = Ok [txt "SME"; txt "mainboard"; txt "sme"] /\
  search_by_category [in_category "SME"; in_category "mainboard";
                      in_category "sme"] (txt "sme")
  = Ok [in_category "SME"; in_category "sme"].
Proof. split; vm_compute; reflexivity. Qed.

End CategoryFacts.

(** ** Search: the bounds of the scores *)

Section SearchBounds.
Import PyDict IPOSearchEngine.
Local Open Scope Q_scope.

Lemma match_score_bounds (query name : str) :
  0 <= calculate_similarity query name <= 1 /\
  0 <= match_score query name <= 1.
Proof.
  assert (S : 0 <= calculate_similarity query name <= 1)
    by apply ratio_range.
  split; [exact S|]. unfold match_score.
  destruct (contains (lower query) (lower name)); [|exact S].
  unfold py_max. destruct (Qltb _ 0.6); [|exact S].
  split; unfold Qle; simpl; lia.
Qed.

(** X14: The similarity and the score of a name are numbers between 0 and 1,
    as the documentation of [calculate_similarity] says. *)
Theorem match_score_range (query name : str) :
  0 <= calculate_similarity query name <= 1 /\
  0 <= match_score query name <= 1.
Proof. exact (match_score_bounds query name). Qed.

Lemma scan_scores (query : str) (min_score : Q) (cs : list company) :
  forall rs, scan query min_score cs = Ok rs ->
    (length rs <= length cs)%nat /\
    forall r, In r rs ->
      exists c name,
        In c cs /\ PyDict.get (txt "name") c = Some (VStr name) /\
        min_score <= match_score query name /\
        r = set (txt "match_score") (VFloat (match_score query name)) c.
Proof.
  induction cs as [|c cs IH]; intros rs H; simpl in H.
  - injection H as <-. split; [simpl; lia|]. intros r [].
  - unfold name_of in H.
    destruct (PyDict.get (txt "name") c) as [[| name | | | |]|] eqn:En;
      try discriminate.
    cbn [rbind] in H.
    destruct (Qle_bool min_score (match_score query name)) eqn:Es.
    + destruct (scan query min_score cs) as [rs'|e]; [|discriminate].
      cbn [rbind] in H. injection H as <-.
      destruct (IH rs' eq_refl) as [L M]. split; [simpl; lia|].
      intros r [<- | Hr].
      * exists c, name. apply Qle_bool_iff in Es. repeat split; auto.
        left. reflexivity.
      * destruct (M r Hr) as (c' & name' & ? & ? & ? & ?).
        exists c', name'. repeat split; auto. right. assumption.
    + destruct (IH rs H) as [L M]. split; [simpl; lia|].
      intros r Hr. destruct (M r Hr) as (c' & name' & ? & ? & ? & ?).
      exists c', name'. repeat split; auto. right. assumption.
Qed.

Lemma slice_to_length {A} (limit : Z) (l : list A) :
  (length (slice_to limit l) <= length l)%nat.
Proof.
  unfold slice_to. destruct (0 <=? limit)%Z; rewrite length_firstn; lia.
Qed.

Lemma search_scores (companies : list company) (query : str) (limit : Z)
    (min_score : Q) (results : list company) :
  search companies query limit min_score = Ok results ->
  (length results <= length companies)%nat /\
  forall r, In r results ->
    exists c name,
      In c companies /\ PyDict.get (txt "name") c = Some (VStr name) /\
      min_score <= match_score query name <= 1 /\
      r = set (txt "match_score") (VFloat (match_score query name)) c.
Proof.
  unfold search. intros H.
  destruct (is_empty query || _).
  { injection H as <-. split; [simpl; lia|]. intros r []. }
  destruct (scan query min_score companies) as [rs|e] eqn:Es; [|discriminate].
  cbn [rbind] in H.
  destruct (keyed rs) as [ks|e] eqn:Ek; [|discriminate].
  cbn [rbind] in H. injection H as <-.
  apply scan_scores in Es as [L M].
  assert (P : Permutation (map snd (sort_desc ks)) rs).
  { rewrite <- (keyed_snd rs ks Ek). apply Permutation_map, sort_desc_perm. }
  split.
  - etransitivity; [apply slice_to_length|].
    rewrite (Permutation_length P). exact L.
  - intros r Hr. apply slice_to_In in Hr.
    apply (Permutation_in _ P) in Hr.
    destruct (M r Hr) as (c & name & ? & ? & ? & ?).
    exists c, name. repeat split; auto.
    apply match_score_bounds.
Qed.

(** X15: What [search] returns: never more records than the collection has, and
    each of them is a record of the collection with its score put on it,
    the score of its name for the query, which is at least [min_score] and
    at most 1.  So a minimum above 1 gives no result. *)
Theorem search_results_in_bounds (companies : list company) (query : str)
    (limit : Z) (min_score : Q) (results : list company) :
  search companies query limit min_score = Ok results ->
  (length results <= length companies)%nat /\
  (forall r, In r results ->
     exists c name,
       In c companies /\ PyDict.get (txt "name") c = Some (VStr name) /\
       min_score <= match_score query name <= 1 /\
       r = set (txt "match_score") (VFloat (match_score query name)) c) /\
  (1 < min_score -> results = []).
Proof.
  intros H. destruct (search_scores _ _ _ _ _ H) as [L M].
  split; [exact L|]. split; [exact M|].
  intros Hm. destruct results as [|r results]; [reflexivity|].
  destruct (M r (or_introl eq_refl)) as (c & name & _ & _ & [H1 H2] & _).
  exfalso. apply (Qlt_irrefl 1).
  eapply Qlt_le_trans; [exact Hm|]. eapply Qle_trans; eassumption.
Qed.

(** The two results of the query "abc" with the limit 2 among four
    companies. *)
Lemma search_results_in_bounds_witness :
  (length [ set (txt "match_score") (VFloat (6 # 6)) (named "abc");
            set (txt "match_score") (VFloat (4 # 6)) (named "abd") ]
   <= length [named "abd"; named "xyz"; named "abe"; named "abc"])%nat /\
  (forall r,
     In r [ set (txt "match_score") (VFloat (6 # 6)) (named "abc");
            set (txt "match_score") (VFloat (4 # 6)) (named "abd") ] ->
     exists c name,
       In c [named "abd"; named "xyz"; named "abe"; named "abc"] /\
       PyDict.get (txt "name") c = Some (VStr name) /\
       default_min_score <= match_score (txt "abc") name <= 1 /\
       r = set (txt "match_score")
               (VFloat (match_score (txt "abc") name)) c) /\
  (1 < default_min_score ->
   [ set (txt "match_score") (VFloat (6 # 6)) (named "abc");
     set (txt "match_score") (VFloat (4 # 6)) (named "abd") ] = []).
Proof.
  apply (search_results_in_bounds
           [named "abd"; named "xyz"; named "abe"; named "abc"]
           (txt "abc") 2 default_min_score).
  vm_compute. reflexivity.
Defined.

Lemma filter_all {A} (p : A -> bool) (l : list A) :
  (forall x, In x l -> p x = true) -> List.filter p l = l.
Proof.
  induction l as [|x l IH]; intros H; simpl; [reflexivity|].
  rewrite (H x (or_introl eq_refl)). f_equal. apply IH.
  intros y Hy. apply H. right. exact Hy.
Qed.

(** X16: With a minimum score of 0 or less nothing is filtered out: for a
    non-empty query and a limit that is not negative, [search] returns as
    many records as the limit allows, all of them when the limit is at
    least the size of the collection. *)
Theorem search_without_minimum (companies : list company) (query : str)
    (limit : Z) (min_score : Q) :
  query <> [] ->
  (0 <= limit)%Z ->
  min_score <= 0 ->
  Forall has_text_name companies ->
  exists results,
    search companies query limit min_score = Ok results /\
    length results = Nat.min (Z.to_nat limit) (length companies).
Proof.
  intros Hq Hl Hm Hall.
  rewrite search_ranked by assumption. eexists. split; [reflexivity|].
  unfold slice_to. apply Z.leb_le in Hl. rewrite Hl.
  rewrite length_firstn, length_map.
  rewrite (Permutation_length (sort_desc_perm _)).
  unfold qualifying. rewrite filter_all, length_map; [reflexivity|].
  intros p Hp. apply in_map_iff in Hp as (c & <- & _).
  apply Qle_bool_iff. unfold scored. cbn [fst].
  eapply Qle_trans; [exact Hm|]. apply match_score_bounds.
Qed.

(** Three companies, the minimum 0 and the limit 2. *)
Lemma search_without_minimum_witness :
  exists results,
    search [named "abd"; named "xyz"; named "abe"] (txt "abc") 2 0
    = Ok results /\
    length results
    = Nat.min (Z.to_nat 2) (length [named "abd"; named "xyz"; named "abe"]).
Proof.
  apply search_without_minimum.
  - discriminate.
  - lia.
  - unfold Qle. simpl. lia.
  - repeat (constructor; [eexists; reflexivity|]). constructor.
Defined.

End SearchBounds.

(** ** Search: a record without a usable name *)

Section SearchErrors.
Import PyDict IPOSearchEngine.

Lemma scan_raises (query : str) (min_score : Q) (good : list company)
    (bad : company) (rest : list company) (e : exn) :
  Forall has_text_name good ->
  name_of bad = Raise e ->
  scan query min_score (good ++ bad :: rest) = Raise e.
Proof.
  intros Hgood Hbad.
  induction Hgood as [|c good Hc Hgood IH]; cbn [app scan].
  - rewrite Hbad. reflexivity.
  - rewrite (name_of_text c Hc). cbn [rbind]. rewrite IH.
    destruct (Qle_bool _ _); reflexivity.
Qed.

(** X17: One record without a name makes the whole search fail: for a non-empty
    query, when the first record whose [name] is not a text has no [name]
    at all, [search] raises [KeyError], and when its [name] is another kind
    of value, [AttributeError]; whatever the limit and the minimum score,
    and whatever the score that record would have had. *)
Theorem search_raises_on_bad_name (good : list company) (bad : company)
    (rest : list company) (query : str) (limit : Z) (min_score : Q) :
  query <> [] ->
  Forall has_text_name good ->
  (forall s, PyDict.get (txt "name") bad <> Some (VStr s)) ->
  search (good ++ bad :: rest) query limit min_score
  = Raise (match PyDict.get (txt "name") bad with
           | None => KeyError
           | Some _ => AttributeError
           end).
Proof.
  intros Hq Hgood Hbad. unfold search.
  destruct query as [|q0 query]; [congruence|]. cbn [is_empty orb].
  destruct (good ++ bad :: rest) eqn:E; [destruct good; discriminate|].
  rewrite <- E.
  rewrite (scan_raises _ _ good bad rest
             (match PyDict.get (txt "name") bad with
              | None => KeyError
              | Some _ => AttributeError
              end)); [reflexivity|exact Hgood|].
  unfold name_of.
  destruct (PyDict.get (txt "name") bad) as [[| s | | | |]|]; try reflexivity.
  exfalso. apply (Hbad s). reflexivity.
Qed.

(** A record with only an id, after one with a name. *)
Lemma search_raises_on_bad_name_witness :
  search ([named "abc"] ++ listed_id_only :: [named "abd"]) (txt "abc")
         default_limit default_min_score
  = Raise (match PyDict.get (txt "name") listed_id_only with
           | None => KeyError
           | Some _ => AttributeError
           end).
Proof.
  apply search_raises_on_bad_name.
  - discriminate.
  - repeat (constructor; [eexists; reflexivity|]). constructor.
  - intros s. vm_compute. discriminate.
Defined.

End SearchErrors.

(** ** The best match *)

Section BestMatch.
Import PyDict IPOSearchEngine IPOSearchAndExtract.
Local Open Scope Q_scope.

Lemma sort_desc_head {A} (l1 : list (Q * A)) (x : Q * A) (l2 : list (Q * A)) :
  (forall y, In y l1 -> fst y < fst x) ->
  (forall y, In y l2 -> fst y <= fst x) ->
  exists tail, sort_desc (l1 ++ x :: l2) = x :: tail.
Proof.
  intros H1 H2. induction l1 as [|y l1 IH]; cbn [app sort_desc].
  - assert (G : forall l, (forall y, In y l -> fst y <= fst x) ->
                          exists tail, insert_desc x l = x :: tail).
    { intros [|y l] H; simpl; [eauto|].
      assert (E : Qltb (fst x) (fst y) = false).
      { apply Qltb_ge. apply H. left. reflexivity. }
      rewrite E. eauto. }
    apply G. intros y Hy.
    apply (Permutation_in _ (sort_desc_perm l2)) in Hy. auto.
  - destruct IH as (tail & ->).
    { intros z Hz. apply H1. right. exact Hz. }
    simpl.
    assert (E : Qltb (fst y) (fst x) = true).
    { apply Qltb_lt. apply H1. left. reflexivity. }
    rewrite E. eauto.
Qed.

Lemma qualifying_app (query : str) (min_score : Q) (l1 l2 : list company) :
  qualifying query min_score (l1 ++ l2)
  = qualifying query min_score l1 ++ qualifying query min_score l2.
Proof. unfold qualifying. rewrite map_app. apply List.filter_app. Qed.

Lemma qualifying_In (query : str) (min_score : Q) (l : list company) p :
  In p (qualifying query min_score l) ->
  exists c, In c l /\ p = scored query c.
Proof.
  unfold qualifying. intros H. apply filter_In in H as [H _].
  apply in_map_iff in H as (c & <- & Hc). eauto.
Qed.

(** X21: The company that [search_and_extract] goes on with is the best match:
    for a non-empty query, when a company of the collection scores at
    least 0.3, more than every company before it and no less than every
    company after it, the details are those of that company (with its
    score put on it); companies with the same top score give way to the
    first of them. *)
Theorem search_and_extract_takes_best {A : Type}
    (get_company_details : company -> result (option A))
    (before : list company) (best : company) (after : list company)
    (company_name : str) :
  company_name <> [] ->
  Forall has_text_name (before ++ best :: after) ->
  default_min_score <= match_score company_name (name_text best) ->
  (forall c, In c before ->
     match_score company_name (name_text c)
     < match_score company_name (name_text best)) ->
  (forall c, In c after ->
     match_score company_name (name_text c)
     <= match_score company_name (name_text best)) ->
  search_and_extract get_company_details (before ++ best :: after)
                     company_name
  = get_company_details (snd (scored company_name best)).
Proof.
  intros Hq Hall Hbest Hb Ha.
  unfold search_and_extract, search_companies.
  rewrite search_ranked by assumption. cbn [rbind].
  rewrite qualifying_app. unfold qualifying at 2. cbn [map List.filter].
  assert (E : Qle_bool default_min_score (fst (scored company_name best))
              = true) by (apply Qle_bool_iff; exact Hbest).
  rewrite E.
  destruct (sort_desc_head
              (qualifying company_name default_min_score before)
              (scored company_name best)
              (List.filter (fun p => Qle_bool default_min_score (fst p))
                           (map (scored company_name) after)))
    as (tail & ->).
  - intros p Hp. apply qualifying_In in Hp as (c & Hc & ->).
    apply Hb, Hc.
  - intros p Hp. apply (qualifying_In company_name default_min_score after)
      in Hp as (c & Hc & ->).
    apply Ha, Hc.
  - reflexivity.
Qed.

(** Two companies with the top score, after one with a lower score: the
    first of the two is taken. *)
Lemma search_and_extract_takes_best_witness :
  search_and_extract (fun c => Ok (Some c))
                     ([named "abd"] ++ named "abc" :: [named "ABC"])
                     (txt "abc")
  = Ok (Some (snd (scored (txt "abc") (named "abc")))).
Proof.
  apply (search_and_extract_takes_best (fun c => Ok (Some c))).
  - discriminate.
  - repeat (constructor; [eexists; reflexivity|]). constructor.
  - vm_compute. discriminate.
  - intros c [<- | []]. vm_compute. reflexivity.
  - intros c [<- | []]. vm_compute. discriminate.
Defined.



End BestMatch.

(** ** Lookup by id: what is handed out *)

Section LookupAlias.
Import PyDict IPOSearchEngine.

Lemma search_by_id_h_cons (c : nat) (cs : list nat) (i : str)
    (h : list company) :
  search_by_id_h (c :: cs) i h
  = match h !! c with
    | None => (Raise KeyError, h)
    | Some d =>
        match item_is "id" i d with
        | Raise e => (Raise e, h)
        | Ok true => (Ok (Some c), h)
        | Ok false => search_by_id_h cs i h
        end
    end.
Proof.
  cbn [search_by_id_h]. unfold bind, deref, lift, ret.
  destruct (h !! c) as [d|]; [|reflexivity].
  destruct (item_is "id" i d) as [[|]|e]; reflexivity.
Qed.

(** X18: [search_by_id] hands out the stored record itself, not a copy: it
    creates no object and changes none, and the reference it returns is one
    of the references of the collection, to a record with the id asked
    for.  What the caller writes into the record found is written into the
    collection. *)
Theorem search_by_id_returns_stored (companies : list nat) (company_id : str)
    (h : list company) (found : nat) (h' : list company) :
  search_by_id_h companies company_id h = (Ok (Some found), h') ->
  h' = h /\ In found companies /\
  exists d, h !! found = Some d /\
            PyDict.get (txt "id") d = Some (VStr company_id).
Proof.
  induction companies as [|c companies IH]; [discriminate|].
  rewrite search_by_id_h_cons.
  destruct (h !! c) as [d|] eqn:Ed; [|discriminate].
  unfold item_is.
  destruct (PyDict.get (txt "id") d) as [v|] eqn:Ev; [|discriminate].
  assert (Skip : search_by_id_h companies company_id h
                 = (Ok (Some found), h') ->
                 h' = h /\ In found (c :: companies) /\
                 exists d, h !! found = Some d /\
                           PyDict.get (txt "id") d = Some (VStr company_id)).
  { intros H. destruct (IH H) as (? & ? & ?). repeat split; auto.
    right. assumption. }
  destruct v as [| s | | | |]; try exact Skip.
  destruct (str_eqb s company_id) eqn:Es; [|exact Skip].
  apply str_eqb_eq in Es. subst s.
  intros [= <- <-]. split; [reflexivity|]. split; [left; reflexivity|].
  exists d. auto.
Qed.

(** In a heap of two records the id 9 is found at the second reference;
    [search] for the name of that record returns a new reference
    instead. *)
Lemma search_by_id_returns_stored_witness :
  [listed "Acme" "7"; listed "Other" "9"] =
  [listed "Acme" "7"; listed "Other" "9"] /\
  In 1%nat [0%nat; 1%nat] /\
  exists d, [listed "Acme" "7"; listed "Other" "9"] !! 1%nat = Some d /\
            PyDict.get (txt "id") d = Some (VStr (txt "9")).
Proof.
  apply (search_by_id_returns_stored [0%nat; 1%nat] (txt "9")
           [listed "Acme" "7"; listed "Other" "9"] 1%nat).
  vm_compute. reflexivity.
Defined.

Lemma search_copies_lookup_does_not :
  fst (search_h [0%nat; 1%nat] (txt "Other") default_limit default_min_score
                [listed "Acme" "7"; listed "Other" "9"])
  = Ok [2%nat] /\
  fst (search_by_id_h [0%nat; 1%nat] (txt "9")
                      [listed "Acme" "7"; listed "Other" "9"])
  = Ok (Some 1%nat).
Proof. split; vm_compute; reflexivity. Qed.

End LookupAlias.

(** ** The text normalizer: what it does achieve *)

Section CleanTextFacts.
Import Re IPODataExtractor.

(** A greedy repetition without upper bound, followed by something that
    cannot fail, takes the whole run. *)
Lemma rep_greedy_run {R} (fl : flags) (a : atom) (k : nat -> str -> option R)
    (rest : str) :
  (forall p r, is_Some (k p r)) ->
  forall lo pos,
    rep fl true a lo None pos rest k
    = if lo <=? prefix_len (atom_matches fl a) rest
      then k (pos + prefix_len (atom_matches fl a) rest)
             (skipn (prefix_len (atom_matches fl a) rest) rest)
      else None.
Proof.
  intros Hk. induction rest as [|c rest IH]; intros lo pos.
  - simpl. rewrite Nat.add_0_r. destruct lo; reflexivity.
  - cbn [rep prefix_len andb fmap option_fmap option_map].
    destruct (atom_matches fl a c) eqn:Ec.
    + rewrite IH.
      destruct (pred lo <=? prefix_len (atom_matches fl a) rest) eqn:El.
      * apply Nat.leb_le in El.
        replace (lo <=? S (prefix_len (atom_matches fl a) rest)) with true
          by (symmetry; apply Nat.leb_le; lia).
        cbn [skipn].
        replace (S pos + prefix_len (atom_matches fl a) rest)
          with (pos + S (prefix_len (atom_matches fl a) rest)) by lia.
        destruct (Hk (pos + S (prefix_len (atom_matches fl a) rest))
                     (skipn (prefix_len (atom_matches fl a) rest) rest))
          as [x ->]. reflexivity.
      * apply Nat.leb_gt in El.
        replace (lo <=? S (prefix_len (atom_matches fl a) rest)) with false
          by (symmetry; apply Nat.leb_gt; lia).
        destruct lo; [lia|reflexivity].
    + rewrite Nat.add_0_r. destruct lo; reflexivity.
Qed.

(** Where [\s+] matches, and how far. *)
Lemma match_at_ws_run (s : str) (pos : nat) (rest : str) :
  match_at NOFLAGS ws_run s pos rest
  = if 1 <=? prefix_len isspace rest
    then Some {| m_string := s; m_start := pos;
                 m_end := pos + prefix_len isspace rest; m_caps := [] |}
    else None.
Proof.
  unfold match_at, ws_run, plus. cbn [go].
  rewrite rep_greedy_run by eauto. reflexivity.
Qed.

(** [re.sub(r'\s+', ' ', s)] replaces every run of white space by one
    space. *)
Lemma sub_ws_run_from (s : str) (rest : str) :
  forall pos,
    sub_from NOFLAGS ws_run (txt " ") s pos rest 0 = collapse_ws false rest /\
    sub_from NOFLAGS ws_run (txt " ") s pos rest (prefix_len isspace rest)
    = collapse_ws true rest.
Proof.
  induction rest as [|c rest IH]; intros pos; [split; reflexivity|].
  assert (A : sub_from NOFLAGS ws_run (txt " ") s pos (c :: rest) 0
              = collapse_ws false (c :: rest)).
  { cbn [sub_from]. rewrite match_at_ws_run. cbn [prefix_len collapse_ws].
    destruct (isspace c) eqn:Ec.
    - cbn [Nat.leb m_end].
      replace (Nat.eqb (pos + S (prefix_len isspace rest)) pos) with false
        by (symmetry; apply Nat.eqb_neq; lia).
      replace (pos + S (prefix_len isspace rest) - pos - 1)
        with (prefix_len isspace rest) by lia.
      rewrite (proj2 (IH (S pos))). reflexivity.
    - cbn [Nat.leb]. rewrite (proj1 (IH (S pos))). reflexivity. }
  split; [exact A|].
  cbn [prefix_len]. destruct (isspace c) eqn:Ec.
  - cbn [sub_from collapse_ws]. rewrite Ec. apply IH.
  - rewrite A. cbn [collapse_ws]. rewrite Ec. reflexivity.
Qed.

Lemma sub_ws_run (s : str) :
  Re.sub ws_run (txt " ") s NOFLAGS = collapse_ws false s.
Proof. apply sub_ws_run_from. Qed.

Lemma collapse_ws_chars (s : str) :
  forall in_run c, In c (collapse_ws in_run s) ->
                   isspace c = true -> c = 32%N.
Proof.
  induction s as [|x s IH]; intros in_run c; simpl; [tauto|].
  destruct (isspace x) eqn:Ex.
  - destruct in_run; [apply IH|].
    intros [<- | H]; [reflexivity|]. eapply IH; eauto.
  - intros [<- | H]; [congruence|]. eapply IH; eauto.
Qed.

Lemma collapse_ws_no_pair (s : str) :
  forall in_run,
    no_ws_pair (collapse_ws in_run s) = true /\
    (in_run = true ->
     match collapse_ws in_run s with
     | c :: _ => isspace c = false
     | [] => True
     end).
Proof.
  induction s as [|x s IH]; intros in_run; cbn [collapse_ws];
    [split; auto|].
  destruct (isspace x) eqn:Ex.
  - destruct in_run; [apply IH|].
    split; [|discriminate].
    destruct (IH true) as [N H]. specialize (H eq_refl).
    cbn [no_ws_pair]. destruct (collapse_ws true s) as [|d l]; [reflexivity|].
    rewrite H, andb_false_r. exact N.
  - split; [|intros _; exact Ex].
    destruct (IH false) as [N _].
    cbn [no_ws_pair]. destruct (collapse_ws false s) as [|d l]; [reflexivity|].
    rewrite Ex. exact N.
Qed.

(** With the empty replacement, [re.sub] only takes characters out. *)
Lemma sub_from_empty_In (fl : flags) (r : regex) (s : str) (rest : str) :
  forall pos skip c,
    In c (sub_from fl r [] s pos rest skip) -> In c rest.
Proof.
  induction rest as [|x rest IH]; intros pos skip c.
  - destruct skip; simpl; [|tauto].
    destruct (match_at fl r s pos []) as [m|]; [|tauto].
    destruct (Nat.eqb (m_end m) pos); simpl; tauto.
  - destruct skip as [|skip]; cbn [sub_from].
    + destruct (match_at fl r s pos (x :: rest)) as [m|].
      * destruct (Nat.eqb (m_end m) pos); cbn [app].
        -- intros [<- | H]; [left; reflexivity|right; eapply IH; eauto].
        -- intros H. right. eapply IH; eauto.
      * intros [<- | H]; [left; reflexivity|right; eapply IH; eauto].
    + intros H. right. eapply IH; eauto.
Qed.

Lemma lstrip_by_In (p : char -> bool) (s : str) c :
  In c (lstrip_by p s) -> In c s.
Proof.
  destruct (lstrip_by_suffix p s) as (pre & E & _). intros H.
  rewrite E. apply in_or_app. right. exact H.
Qed.

Lemma strip_by_In (p : char -> bool) (s : str) c :
  In c (strip_by p s) -> In c s.
Proof.
  unfold strip_by, rstrip_by. intros H.
  apply <- in_rev in H. apply lstrip_by_In in H. apply <- in_rev in H.
  apply lstrip_by_In in H. exact H.
Qed.

Lemma plain_spaces_In (s : str) :
  plain_spaces s = true <->
  forall c, In c s -> isspace c = true -> c = 32%N.
Proof.
  unfold plain_spaces. rewrite forallb_forall. split; intros H c Hc.
  - intros Hs. specialize (H c Hc). rewrite Hs in H. simpl in H.
    apply N.eqb_eq in H. exact H.
  - destruct (isspace c) eqn:Es; [|reflexivity]. simpl.
    apply N.eqb_eq. apply H; assumption.
Qed.

(** X1: Whatever the text, the only white space that [_clean_text] leaves in
    its result is the plain space: tabs, line ends and the other Unicode
    spaces are gone. *)
Theorem clean_text_only_plain_spaces (text : option str) :
  plain_spaces (_clean_text text) = true.
Proof.
  apply plain_spaces_In. intros c.
  destruct text as [text|]; cbn [_clean_text]; [|intros []].
  destruct (is_empty text); [intros []|].
  intros H. apply strip_by_In in H.
  unfold Re.sub in H. apply sub_from_empty_In in H.
  change (In c (Re.sub ws_run (txt " ") (strip text) NOFLAGS)) in H.
  rewrite sub_ws_run in H. eapply collapse_ws_chars; eauto.
Qed.

Lemma collapse_ws_In (s : str) :
  forall in_run c, In c (collapse_ws in_run s) -> c = 32%N \/ In c s.
Proof.
  induction s as [|x s IH]; intros in_run c; simpl; [tauto|].
  destruct (isspace x).
  - destruct in_run.
    + intros H. apply IH in H. tauto.
    + intros [<- | H]; [auto|]. apply IH in H. tauto.
  - intros [<- | H]; [auto|]. apply IH in H. tauto.
Qed.

(** Where the first character of a literal pattern does not occur, nothing
    is replaced. *)
Lemma sub_lit_absent (p0 : char) (p : str) (repl s : str) (rest : str) :
  ~ In p0 rest ->
  forall pos, sub_from NOFLAGS (lit (p0 :: p)) repl s pos rest 0 = rest.
Proof.
  induction rest as [|c rest IH]; intros Hn pos; [reflexivity|].
  cbn [sub_from]. unfold match_at. cbn [lit fold_right go].
  assert (E : atom_matches NOFLAGS (Lit p0) c = false).
  { simpl. unfold lit_matches. simpl.
    destruct (char_eqb c p0) eqn:E; [|reflexivity].
    apply char_eqb_eq in E. exfalso. apply Hn. left. congruence. }
  rewrite E. f_equal. apply IH. intros H. apply Hn. right. exact H.
Qed.

Lemma no_ws_pair_suffix (pre l : str) :
  no_ws_pair (pre ++ l) = true -> no_ws_pair l = true.
Proof.
  induction pre as [|c pre IH]; [auto|].
  cbn [app no_ws_pair]. destruct (pre ++ l) as [|d m] eqn:E.
  - destruct pre; [|discriminate]. simpl in E. subst l. reflexivity.
  - intros H. apply andb_true_iff in H as [_ H]. apply IH, H.
Qed.

Lemma no_ws_pair_prefix (l post : str) :
  no_ws_pair (l ++ post) = true -> no_ws_pair l = true.
Proof.
  induction l as [|c l IH]; [reflexivity|].
  cbn [app no_ws_pair]. destruct l as [|d l]; [reflexivity|].
  cbn [app]. intros H. apply andb_true_iff in H as [H1 H2].
  rewrite H1. apply IH, H2.
Qed.

Lemma strip_by_piece (p : char -> bool) (s : str) :
  exists pre post, s = pre ++ strip_by p s ++ post.
Proof.
  unfold strip_by, rstrip_by.
  destruct (lstrip_by_suffix p s) as (pre & E & _).
  destruct (lstrip_by_suffix p (rev (lstrip_by p s))) as (pre2 & E2 & _).
  exists pre, (rev pre2).
  rewrite <- rev_app_distr, <- E2, rev_involutive. exact E.
Qed.

Lemma no_ws_pair_strip (s : str) :
  no_ws_pair s = true -> no_ws_pair (strip s) = true.
Proof.
  intros H. destruct (strip_by_piece isspace s) as (pre & post & E).
  rewrite E in H. apply no_ws_pair_suffix, no_ws_pair_prefix in H. exact H.
Qed.

(** X2: On a text without an opening square bracket, so without the
    placeholder, the normalizer does what it is meant to do: no two
    white-space characters are left next to each other. *)
Theorem clean_text_single_spaced (text : str) :
  ~ In 91%N text ->
  no_ws_pair (_clean_text (Some text)) = true.
Proof.
  intros Hn. cbn [_clean_text].
  destruct (is_empty text); [reflexivity|].
  rewrite sub_ws_run. unfold Re.sub, placeholder_re.
  change placeholder with (91%N :: bullet ++ txt "]").
  rewrite sub_lit_absent.
  - apply no_ws_pair_strip, collapse_ws_no_pair.
  - intros H. apply collapse_ws_In in H as [H | H]; [discriminate|].
    apply strip_by_In in H. contradiction.
Qed.

(** Tabs, line ends and runs of spaces between three words. *)
Lemma clean_text_single_spaced_witness :
  no_ws_pair
    (_clean_text
       (Some (txt "  Acme " ++ [9%N; 10%N] ++ txt " Ltd   IPO "))) = true.
Proof.
  apply clean_text_single_spaced. vm_compute.
  intros H. repeat (destruct H as [H | H]; [discriminate H|]). exact H.
Defined.

Lemma clean_text_example :
  _clean_text (Some (txt "  Acme " ++ [9%N; 10%N] ++ txt " Ltd   IPO "))
  = txt "Acme Ltd IPO".
Proof. vm_compute. reflexivity. Qed.

End CleanTextFacts.

(** ** Which pages make [extract_all] raise *)

Section NumberFacts.
Import Re.




End NumberFacts.

Section FloatFacts.
Import Re PyNum.














End FloatFacts.

Section FigureFacts.
Import Re PyDict Bs4 IPODataExtractor.




























(** The two pages of the conversions that fail: the holding "1.2.3" has two
    points, the amount "," has no digit. *)
Lemma unreadable_figures_example :
  existsb unreadable (figures two_dots_doc) = true /\
  existsb unreadable
    (figures {| soup := Tag (txt "[document]") [] [];
                html_str := txt "ipo size of " ++ rupee ++ txt " , Cr." |})
  = true /\
  existsb unreadable (figures pending_listing_doc) = false.
Proof. repeat split; vm_compute; reflexivity. Qed.

End FigureFacts.

(** ** The documents group *)

Section DocumentFacts.
Import Re PyDict Bs4 IPODataExtractor.

(** A reference in which the file name of the draft prospectus is found
    has the file name of the prospectus in it too. *)
Lemma drhp_href_is_rhp_href (v : str) :
  re_filter drhp_href IGNORECASE v = true ->
  re_filter rhp_href IGNORECASE v = true.
Proof.
  unfold re_filter.
  destruct (Re.search drhp_href v IGNORECASE) as [m|] eqn:E; [|discriminate].
  intros _.
  apply search_sound in E as (pre & w & post & Hs & A & _).
  unfold drhp_href, seq in A. cbn [fold_right] in A.
  apply accepts_cat_inv in A as (u & w1 & -> & _ & A).
  apply accepts_cat_inv in A as (l & w2 & -> & A & E).
  apply accepts_eps_inv in E. subst w2.
  apply accepts_lit_inv in A.
  inversion A as [|p0 c0 ps l' H0 Hl]; subst.
  assert (S : is_Some (Re.search rhp_href
                         ((pre ++ u ++ [c0]) ++ l' ++ post) IGNORECASE)).
  { apply search_complete. unfold rhp_href. apply acc_alt_l.
    unfold seq. cbn [fold_right].
    change l' with ([] ++ l'). constructor.
    - constructor; simpl; auto.
    - rewrite <- (app_nil_r l'). constructor.
      + apply accepts_lit_intro. exact Hl.
      + constructor. }
  match goal with
  | |- context [Re.search rhp_href ?t IGNORECASE] =>
      replace t with ((pre ++ u ++ [c0]) ++ l' ++ post)
  end.
  - destruct S as [m' ->]. reflexivity.
  - repeat rewrite <- app_assoc. simpl. rewrite ?app_nil_r. reflexivity.
Qed.

Lemma attr_matches_mono (p q : str -> bool) (v : option attr_val) :
  (forall s, p s = true -> q s = true) ->
  attr_matches p v = true -> attr_matches q v = true.
Proof.
  intros H. destruct v as [[s | l]|]; simpl; auto.
  intros M. apply orb_true_iff in M as [M | M]; apply orb_true_iff.
  - left. apply existsb_exists in M as (x & Hx & Px).
    apply existsb_exists. eauto.
  - right. auto.
Qed.

Lemma find_some_matches (name : str) (filters : list (str * (str -> bool)))
    (root link : node) :
  find name filters root = Some link ->
  In link (descendants root) /\ node_matches name filters link = true.
Proof.
  unfold find, find_all. intros H.
  destruct (List.filter _ _) as [|x l] eqn:E; [discriminate|].
  injection H as ->.
  assert (Hin : In link (List.filter (node_matches name filters)
                                     (descendants root)))
    by (rewrite E; left; reflexivity).
  apply filter_In in Hin. exact Hin.
Qed.

Lemma find_is_some (name : str) (filters : list (str * (str -> bool)))
    (root link : node) :
  In link (descendants root) -> node_matches name filters link = true ->
  is_Some (find name filters root).
Proof.
  unfold find, find_all. intros Hin Hm.
  destruct (List.filter _ _) as [|x l] eqn:E; [|simpl; eauto].
  exfalso.
  assert (H : In link (List.filter (node_matches name filters)
                                   (descendants root)))
    by (apply filter_In; auto).
  rewrite E in H. destruct H.
Qed.

Lemma set_href_keys (key : string) (pattern : regex) (doc : document)
    (d : dict pyval) (k : str) :
  k <> txt key -> PyDict.get k (set_href key pattern doc d) = PyDict.get k d.
Proof.
  intros Hk. unfold set_href.
  destruct (find _ _ _) as [link|]; [|reflexivity].
  destruct (get (txt "href") link) as [[h | l]|]; [| |reflexivity].
  - destruct (is_empty h); [reflexivity|]. apply get_set_ne, Hk.
  - destruct l; [reflexivity|]. apply get_set_ne, Hk.
Qed.

(** A link that [find] takes for a pattern found in its reference has a
    reference that is not empty, when the pattern takes no empty text. *)
Lemma set_href_present (key : string) (pattern : regex) (doc : document)
    (d : dict pyval) :
  Re.search pattern [] IGNORECASE = None ->
  is_Some (find (txt "a") [(txt "href", re_filter pattern IGNORECASE)]
                (soup doc)) ->
  is_Some (PyDict.get (txt key) (set_href key pattern doc d)).
Proof.
  intros Hempty [link Hf]. unfold set_href. rewrite Hf.
  apply find_some_matches in Hf as [_ Hm].
  unfold node_matches in Hm. apply andb_true_iff in Hm as [_ Hm].
  cbn [forallb fst snd] in Hm. rewrite andb_true_r in Hm.
  destruct (get (txt "href") link) as [[h | l]|]; simpl in Hm;
    [| |discriminate].
  - destruct h as [|c h].
    + unfold re_filter in Hm. rewrite Hempty in Hm. discriminate.
    + simpl. rewrite get_set_eq. eauto.
  - destruct l as [|x l].
    + simpl in Hm. unfold re_filter in Hm. rewrite Hempty in Hm.
      discriminate.
    + rewrite get_set_eq. eauto.
Qed.

(** X8: The pattern of the prospectus also takes the file name of the draft
    prospectus, and it is looked for first: whenever the documents group
    has [drhp_url] it has [rhp_url] too, the link of the first reference
    that holds either file name. *)
Theorem drhp_url_brings_rhp_url (doc : document) :
  is_Some (PyDict.get (txt "drhp_url") (_extract_documents doc)) ->
  is_Some (PyDict.get (txt "rhp_url") (_extract_documents doc)).
Proof.
  unfold _extract_documents. intros H.
  rewrite set_href_keys by (vm_compute; discriminate).
  apply set_href_present; [vm_compute; reflexivity|].
  unfold set_href in H at 1.
  destruct (find (txt "a") [(txt "href", re_filter drhp_href IGNORECASE)]
                 (soup doc)) as [link|] eqn:Hf.
  - apply find_some_matches in Hf as [Hin Hm].
    apply (find_is_some _ _ _ link Hin).
    unfold node_matches in Hm |- *.
    apply andb_true_iff in Hm as [Hn Hm]. rewrite Hn. cbn [andb].
    cbn [forallb fst snd] in Hm |- *. rewrite andb_true_r in Hm |- *.
    eapply attr_matches_mono; [|exact Hm]. apply drhp_href_is_rhp_href.
  - rewrite set_href_keys in H by (vm_compute; discriminate).
    destruct H as [v H]. vm_compute in H. discriminate.
Qed.

(** The page whose only link is to a draft prospectus. *)
Lemma drhp_url_brings_rhp_url_witness :
  is_Some (PyDict.get (txt "rhp_url") (_extract_documents draft_only_doc)).
Proof.
  apply drhp_url_brings_rhp_url. vm_compute. eauto.
Defined.

(** On a page whose only prospectus is the draft, the draft is given as
    both. *)
Lemma draft_given_as_prospectus :
  _extract_documents draft_only_doc
  = [ (txt "rhp_url", VStr (txt "/files/Acme_DRHP.pdf"));
      (txt "drhp_url", VStr (txt "/files/Acme_DRHP.pdf")) ].
Proof. vm_compute. reflexivity. Qed.

End DocumentFacts.

(** ** Stakeholders, company description, subscription *)

Section GroupInvariants.
Import Re PyDict Bs4 IPODataExtractor.

Lemma dedup_clean_spec (matches : list str) :
  forall seen,
    List.NoDup (dedup_clean seen matches) /\
    forall x, In x (dedup_clean seen matches) ->
      x <> [] /\ ~ In x seen /\
      exists raw, In raw matches /\ x = _clean_text (Some raw).
Proof.
  induction matches as [|b matches IH]; intros seen; cbn [dedup_clean].
  - split; [constructor|intros x []].
  - destruct (negb (is_empty (_clean_text (Some b)))
              && negb (existsb (str_eqb (_clean_text (Some b))) seen))
      eqn:E.
    + apply andb_true_iff in E as [E1 E2].
      destruct (IH (_clean_text (Some b) :: seen)) as [N M].
      split.
      * constructor; [|exact N]. intros Hin.
        apply M in Hin as (_ & Hn & _). apply Hn. left. reflexivity.
      * intros x [<- | Hx].
        -- split; [destruct (_clean_text (Some b)); [discriminate|discriminate]|].
           split.
           ++ intros Hin. apply existsb_str_In in Hin.
              rewrite Hin in E2. discriminate.
           ++ exists b. split; [left|]; reflexivity.
        -- apply M in Hx as (? & Hn & raw & ? & ?).
           split; [assumption|]. split.
           ++ intros Hin. apply Hn. right. exact Hin.
           ++ exists raw. split; [right|]; assumption.
    + destruct (IH seen) as [N M]. split; [exact N|].
      intros x Hx. apply M in Hx as (? & ? & raw & ? & ?).
      repeat split; auto. exists raw. split; [right|]; assumption.
Qed.

Lemma firstn_NoDup {A} (n : nat) (l : list A) :
  List.NoDup l -> List.NoDup (firstn n l).
Proof.
  revert l. induction n as [|n IH]; intros [|x l] N; simpl;
    try constructor.
  - inversion N; subst. intros Hin. apply In_firstn in Hin. contradiction.
  - inversion N; subst. apply IH. assumption.
Qed.

(** X5: The lead managers of the stakeholders group: at most three names, no
    name twice, no empty name, each the cleaned text of a manager found on
    the page. *)
Theorem lead_managers_distinct (doc : document) (v : pyval) :
  PyDict.get (txt "lead_managers") (_extract_stakeholders doc) = Some v ->
  exists names,
    v = VList (map VStr names) /\
    length names <= 3 /\ List.NoDup names /\
    forall name, In name names ->
      name <> [] /\
      exists raw,
        In raw (findall1 brlm_pattern (html_str doc) IGNORECASE) /\
        name = _clean_text (Some raw).
Proof.
  unfold _extract_stakeholders. intros H.
  assert (H' : PyDict.get (txt "lead_managers")
                 (match findall1 brlm_pattern (html_str doc) IGNORECASE with
                  | [] => []
                  | _ :: _ =>
                      set (txt "lead_managers")
                          (VList (map VStr
                             (firstn 3 (dedup_clean []
                                (findall1 brlm_pattern (html_str doc)
                                          IGNORECASE))))) []
                  end) = Some v).
  { destruct (Re.search registrar_pattern (html_str doc) IGNORECASE);
      [|exact H].
    rewrite get_set_ne in H by (vm_compute; discriminate). exact H. }
  clear H.
  destruct (findall1 brlm_pattern (html_str doc) IGNORECASE) as [|b bs] eqn:E;
    [discriminate|].
  cbn [set PyDict.get] in H'. rewrite str_eqb_refl in H'.
  injection H' as <-.
  destruct (dedup_clean_spec (b :: bs) []) as [N M].
  exists (firstn 3 (dedup_clean [] (b :: bs))).
  split; [reflexivity|]. split; [rewrite length_firstn; lia|].
  split; [apply firstn_NoDup, N|].
  intros name Hin. apply In_firstn in Hin.
  apply M in Hin as (? & _ & raw & ? & ?). eauto.
Qed.

(** The page that names one lead manager twice, with two spaces in the
    name. *)
Lemma lead_managers_distinct_witness :
  exists names,
    VList [VStr (txt "Alpha Capital Limited")] = VList (map VStr names) /\
    length names <= 3 /\ List.NoDup names /\
    forall name, In name names ->
      name <> [] /\
      exists raw,
        In raw (findall1 brlm_pattern (html_str two_managers_doc)
                         IGNORECASE) /\
        name = _clean_text (Some raw).
Proof.
  apply lead_managers_distinct. vm_compute. reflexivity.
Defined.

Lemma strip_by_head_not (p : char -> bool) (s : str) :
  match strip_by p s with [] => True | c :: _ => p c = false end.
Proof. apply strip_by_ends. Qed.

(** X6: The description of the company group has at most 500 characters and
    does not begin with a double quote. *)
Theorem description_bounded (doc : document) (v : pyval) :
  PyDict.get (txt "description") (_extract_company_info doc) = Some v ->
  exists s,
    v = VStr s /\ length s <= 500 /\
    match s with c :: _ => c <> 34%N | [] => True end.
Proof.
  unfold _extract_company_info. intros H.
  destruct (find (txt "div") _ (soup doc)) as [desc_div|].
  - rewrite get_set_eq in H. injection H as <-.
    eexists. split; [reflexivity|]. split; [rewrite length_firstn; lia|].
    pose proof (strip_by_head_not
                  (fun c => existsb (char_eqb c) quote)
                  (_clean_text (Some (text desc_div)))) as Hs.
    unfold strip_chars.
    destruct (strip_by _ _) as [|c s]; [exact I|].
    cbn [firstn]. intros ->. vm_compute in Hs. discriminate.
  - exfalso. revert H.
    unfold with_fallback.
    repeat match goal with
           | |- context [Re.search ?p ?s ?f] => destruct (Re.search p s f)
           end;
      rewrite ?get_set_ne by (vm_compute; discriminate);
      vm_compute; discriminate.
Qed.

(** The page whose description is between double quotes. *)
Lemma description_bounded_witness :
  exists s,
    VStr (txt "Acme makes anvils.") = VStr s /\ length s <= 500 /\
    match s with c :: _ => c <> 34%N | [] => True end.
Proof.
  apply (description_bounded quoted_description_doc). vm_compute.
  reflexivity.
Defined.

Ltac ok_inj H :=
  apply (f_equal (fun r => match r with Ok x => x | Raise _ => [] end)) in H;
  cbv beta iota in H; subst.

(** X7: The subscription group holds the figure or the text it was looked for
    in, never both; and the text is kept only when it is not empty, is not
    the placeholder, and has no figure followed by "times" in it. *)
Theorem subscription_times_or_raw (doc : document) (d : dict pyval) :
  _extract_subscription doc = Ok d ->
  (PyDict.get (txt "total_subscription_times") d = None \/
   PyDict.get (txt "total_subscription_raw") d = None) /\
  forall v, PyDict.get (txt "total_subscription_raw") d = Some v ->
    exists s, v = VStr s /\ s <> [] /\ s <> placeholder /\
              Re.search times_pattern s IGNORECASE = None.
Proof.
  unfold _extract_subscription. cbv zeta. intros H.
  set (table := find (txt "table") _ (soup doc)) in H.
  assert (G : forall k d0,
    k <> txt "category_wise" ->
    PyDict.get k (match table with
                  | Some sub_table =>
                      set (txt "category_wise")
                          (VList (map row_value
                                    (_parse_subscription_table sub_table)))
                          d0
                  | None => d0
                  end) = PyDict.get k d0).
  { intros k d0 Hk. destruct table; [|reflexivity]. apply get_set_ne, Hk. }
  assert (Hempty : forall k, PyDict.get k (@nil (str * pyval)) = None)
    by reflexivity.
  destruct (Re.search sub_pattern (html_str doc) IGNORECASE) as [m|].
  - set (st := _clean_text (group 1 m)) in *. clearbody st.
    destruct (negb (is_empty st) && negb (str_eqb st placeholder)) eqn:C.
    + apply andb_true_iff in C as [C1 C2].
      destruct (Re.search times_pattern st IGNORECASE) as [tm|] eqn:T.
      * destruct (PyNum.float (group_str 1 tm)) as [q|e]; [|discriminate].
        cbn [rbind] in H. ok_inj H.
        rewrite !G by (vm_compute; discriminate).
        rewrite (get_set_ne (txt "total_subscription_raw"))
          by (vm_compute; discriminate).
        split; [right; reflexivity|]. intros v Hv. discriminate.
      * cbn [rbind] in H. ok_inj H.
        rewrite !G by (vm_compute; discriminate).
        rewrite (get_set_ne (txt "total_subscription_times"))
          by (vm_compute; discriminate).
        split; [left; reflexivity|]. intros v Hv.
        rewrite get_set_eq in Hv. injection Hv as <-.
        eexists. split; [reflexivity|].
        split; [|split; [|exact T]].
        -- intros E. rewrite E in C1. discriminate.
        -- intros E. rewrite E, str_eqb_refl in C2. discriminate.
    + cbn [rbind] in H. ok_inj H.
      rewrite !G by (vm_compute; discriminate).
      split; [left; reflexivity|]. intros v Hv. discriminate Hv.
  - cbn [rbind] in H. ok_inj H.
    rewrite !G by (vm_compute; discriminate).
    split; [left; reflexivity|]. intros v Hv. discriminate Hv.
Qed.

(** The page whose subscription is "Not yet open". *)
Lemma subscription_times_or_raw_witness :
  (PyDict.get (txt "total_subscription_times")
     [(txt "total_subscription_raw", VStr (txt "Not yet open"))] = None \/
   PyDict.get (txt "total_subscription_raw")
     [(txt "total_subscription_raw", VStr (txt "Not yet open"))] = None) /\
  forall v,
    PyDict.get (txt "total_subscription_raw")
      [(txt "total_subscription_raw", VStr (txt "Not yet open"))] = Some v ->
    exists s, v = VStr s /\ s <> [] /\ s <> placeholder /\
              Re.search times_pattern s IGNORECASE = None.
Proof.
  apply (subscription_times_or_raw subscription_text_doc). vm_compute.
  reflexivity.
Defined.

End GroupInvariants.

(** ** The currency parser: the units it can give *)

Section CurrencyUnits.
Import Re PyDict IPODataExtractor.

Lemma go_cat {R} (fl : flags) (r1 r2 : regex) pos rest caps
    (k : nat -> str -> captures -> option R) :
  go fl (Cat r1 r2) pos rest caps k
  = go fl r1 pos rest caps
       (fun pos' rest' caps' => go fl r2 pos' rest' caps' k).
Proof. reflexivity. Qed.

Lemma go_alt {R} (fl : flags) (r1 r2 : regex) pos rest caps
    (k : nat -> str -> captures -> option R) :
  go fl (Alt r1 r2) pos rest caps k
  = match go fl r1 pos rest caps k with
    | Some x => Some x
    | None => go fl r2 pos rest caps k
    end.
Proof. reflexivity. Qed.

Lemma search_match_at (fl : flags) (r : regex) (s : str) m :
  Re.search r s fl = Some m ->
  exists pre rest,
    s = pre ++ rest /\ match_at fl r s (length pre) rest = Some m.
Proof.
  unfold Re.search.
  assert (G : forall (rest pre : str),
    search_from fl r s (length pre) rest = Some m ->
    exists skipped rest',
      rest = skipped ++ rest' /\
      match_at fl r s (length pre + length skipped) rest' = Some m).
  { induction rest as [|c rest IH]; intros pre H; simpl in H.
    - destruct (match_at fl r s (length pre) []) eqn:E; [|discriminate].
      injection H as <-. exists [], []. simpl. rewrite Nat.add_0_r. auto.
    - destruct (match_at fl r s (length pre) (c :: rest)) eqn:E.
      + injection H as <-. exists [], (c :: rest). simpl.
        rewrite Nat.add_0_r. auto.
      + specialize (IH (pre ++ [c])). rewrite length_app in IH. simpl in IH.
        replace (length pre + 1) with (S (length pre)) in IH by lia.
        destruct (IH H) as (sk & rest' & -> & M).
        exists (c :: sk), rest'. split; [reflexivity|].
        simpl. replace (length pre + S (length sk))
          with (S (length pre) + length sk) by lia. exact M. }
  intros H. destruct (G s [] H) as (sk & rest' & -> & M).
  exists sk, rest'. auto.
Qed.

(** The unit alternatives are tried in the order they are written and
    nothing follows them in the pattern, so the first that fits is taken:
    "Crore" gives way to "Cr" and "Lakhs" to "Lakh". *)
Lemma go_units {R} (pos : nat) (rest : str) (caps : captures)
    (k : nat -> str -> captures -> option R) x :
  (forall p r c, is_Some (k p r c)) ->
  go NOFLAGS currency_units pos rest caps k = Some x ->
  exists w rest',
    rest = w ++ rest' /\ In w [txt "Cr"; txt "Cr."; txt "Lakh"] /\
    k (pos + length w) rest' caps = Some x.
Proof.
  intros Hk. unfold currency_units, alts. cbn [fold_left].
  set (a := Cat (lit (txt "Cr")) (opt (One (chr ".")))).
  rewrite !go_alt.
  assert (Acr : forall rest', accepts NOFLAGS a pos (txt "Cr") rest').
  { intros rest'. unfold a. rewrite <- (app_nil_r (txt "Cr")).
    constructor; [apply accepts_lit_exact; reflexivity|apply acc_opt_none]. }
  assert (Alakh : forall rest',
            accepts NOFLAGS (lit (txt "Lakh")) pos (txt "Lakh") rest').
  { intros rest'. apply accepts_lit_exact. reflexivity. }
  destruct (go NOFLAGS a pos rest caps k) as [y|] eqn:E1.
  - intros [= <-]. apply go_captures in E1 as (w & rest' & caps' & -> & A & K).
    pose proof (accepts_caps_no_groups _ _ _ _ _ _ _ A eq_refl) as ->.
    apply accepts_caps_accepts in A. unfold a in A.
    apply accepts_cat_inv in A as (w1 & w2 & -> & A1 & A2).
    apply accepts_lit_exact in A1. subst w1.
    exists (txt "Cr" ++ w2), rest'. split; [reflexivity|]. split; [|exact K].
    inversion A2 as [| | | | | |? ? ? ? ? A2'| | | |]; subst.
    + inversion A2'; subst.
      match goal with H : atom_matches _ _ _ = true |- _ =>
        simpl in H; apply lit_matches_noflags in H; subst end.
      right. left. reflexivity.
    + left. reflexivity.
  - destruct (go NOFLAGS (lit (txt "Crore")) pos rest caps k) as [y|] eqn:E2.
    + exfalso. apply go_sound in E2 as (w & rest' & caps' & -> & A & _).
      apply accepts_lit_exact in A. subst w.
      assert (S : is_Some (go NOFLAGS a pos
                              (txt "Cr" ++ (txt "ore" ++ rest')) caps k)).
      { apply go_complete; [apply Acr|]. intros; apply Hk. }
      change (txt "Crore" ++ rest')
        with (txt "Cr" ++ (txt "ore" ++ rest')) in E1.
      destruct S as [z S]. congruence.
    + destruct (go NOFLAGS (lit (txt "Lakh")) pos rest caps k) as [y|] eqn:E3.
      * intros [= <-].
        apply go_captures in E3 as (w & rest' & caps' & -> & A & K).
        pose proof (accepts_caps_no_groups _ _ _ _ _ _ _ A eq_refl) as ->.
        apply accepts_caps_accepts, accepts_lit_exact in A. subst w.
        exists (txt "Lakh"), rest'. split; [reflexivity|]. split; [|exact K].
        right. right. left. reflexivity.
      * intros E4. exfalso.
        apply go_sound in E4 as (w & rest' & caps' & -> & A & _).
        apply accepts_lit_exact in A. subst w.
        assert (S : is_Some (go NOFLAGS (lit (txt "Lakh")) pos
                                (txt "Lakh" ++ (txt "s" ++ rest')) caps k)).
        { apply go_complete; [apply Alakh|]. intros; apply Hk. }
        change (txt "Lakhs" ++ rest')
          with (txt "Lakh" ++ (txt "s" ++ rest')) in E3.
        destruct S as [z S]. congruence.
Qed.

(** X3: The unit that the currency parser gives is empty, "Cr" or "Lakh": the
    pattern also names "Crore" and "Lakhs", but it tries "Cr" and "Lakh"
    first and nothing makes it go on, so a text with "Crore" gives "Cr"
    and a text with "Lakhs" gives "Lakh". *)
Theorem currency_unit_values (text : option str) (d : dict pyval)
    (v : pyval) :
  _extract_currency_value text = Ok (Some d) ->
  PyDict.get (txt "unit") d = Some v ->
  In v [VStr []; VStr (txt "Cr"); VStr (txt "Lakh")].
Proof.
  unfold _extract_currency_value.
  destruct text as [text|]; [|discriminate].
  destruct (is_empty text); [discriminate|].
  destruct (Re.search currency_pattern text NOFLAGS) as [m|] eqn:E.
  2:{ intros [= <-] H. vm_compute in H. discriminate. }
  assert (U : In (match group 2 m with
                  | Some u => if is_empty u then [] else u
                  | None => []
                  end) [[]; txt "Cr"; txt "Cr."; txt "Lakh"]).
  { apply search_match_at in E as (pre & rest & Hs & M).
    unfold match_at, currency_pattern, seq in M. cbn [fold_right] in M.
    fold currency_units in M.
    rewrite go_cat in M.
    apply go_captures in M as (w1 & r1 & c1 & -> & A1 & M). cbv beta in M.
    apply accepts_caps_rep_inv in A1 as (-> & _).
    rewrite go_cat in M.
    apply go_captures in M as (w2 & r2 & c2 & -> & A2 & M). cbv beta in M.
    apply accepts_caps_rep_inv in A2 as (-> & _).
    rewrite go_cat in M.
    apply go_captures in M as (w3 & r3 & c3 & -> & A3 & M). cbv beta in M.
    apply accepts_caps_grp_inv in A3 as (c3' & -> & A3).
    pose proof (accepts_caps_no_groups _ _ _ _ _ _ _ A3 eq_refl) as ->.
    rewrite go_cat in M.
    apply go_captures in M as (w4 & r4 & c4 & -> & A4 & M). cbv beta in M.
    apply accepts_caps_rep_inv in A4 as (-> & _).
    rewrite go_cat in M. cbn [go opt] in M.
    match type of M with
    | match ?g with Some _ => _ | None => _ end = _ =>
        destruct g as [y|] eqn:G
    end.
    - injection M as ->.
      apply go_units in G as (w & rest' & -> & Hw & K); [|eauto].
      injection K as <-. unfold group. cbn [cap_lookup Nat.eqb m_caps].
      cbn [fmap option_fmap option_map fst snd m_string].
      erewrite (slice_at (pre ++ w1 ++ w2 ++ w3 ++ w4) w rest');
        [ | rewrite Hs; repeat rewrite <- app_assoc; reflexivity
          | rewrite !length_app; lia | reflexivity ].
      destruct Hw as [<- | [<- | [<- | []]]]; simpl; auto.
    - injection M as <-. simpl. auto. }
  set (unit := match group 2 m with
               | Some u => if is_empty u then [] else u
               | None => []
               end) in *.
  clearbody unit.
  destruct (if is_empty _ then _ else _) as [val|e]; [|discriminate].
  cbn [rbind]. intros [= <-] H.
  assert (Hv : v = VStr (replace_char 46%N [] unit)).
  { cbn [PyDict.get] in H.
    replace (str_eqb (txt "unit") (txt "value")) with false in H
      by reflexivity.
    replace (str_eqb (txt "unit") (txt "unit")) with true in H by reflexivity.
    congruence. }
  subst v.
  destruct U as [<- | [<- | [<- | [<- | []]]]]; vm_compute; auto.
Qed.

(** The text "Rs. 12 Lakhs" gives the unit "Lakh". *)
Lemma currency_unit_values_witness :
  In (VStr (txt "Lakh")) [VStr []; VStr (txt "Cr"); VStr (txt "Lakh")].
Proof.
  apply (currency_unit_values (Some (txt "Rs. 12 Lakhs"))
           [ (txt "value", VFloat 12); (txt "unit", VStr (txt "Lakh"));
             (txt "currency", VStr rupee);
             (txt "raw", VStr (txt "Rs. 12 Lakhs")) ]).
  - vm_compute. reflexivity.
  - vm_compute. reflexivity.
Defined.

End CurrencyUnits.
